(** * LoopStructural: the discrete least-squares interpolator

    A shallow embedding of
    [LoopStructural/interpolators/_discrete_interpolator.py]
    (class [DiscreteInterpolator]) and the properties of its region
    renumbering, constraint registries, matrix assembly, solver dispatch
    and lazy evaluation.

    Conventions of the embedding:
    - a numpy float is a real number or NaN ([npfloat]); rounding and the
      infinities are not modelled, so arithmetic is exact arithmetic with
      NaN propagation and IEEE comparisons (every comparison with NaN is
      false); the normalisation of the soft constraints, whose result
      depends on the arithmetic, is also given over any floating-point
      kernel and on the binary64 numbers ([add_constraints_float]);
    - a 1-d array is a [list], a 2-d array a list of rows; the
      coefficient and value arrays hold floats, the index arrays
      integers;
    - a Python [dict] is an association list in insertion order;
    - a method of the class is a function in the monad [M]: it takes the
      object [self] (record [DiscreteInterpolator]) and gives back an
      outcome (a returned value, a raised exception, or divergence) and
      the object after the call;
    - calls of [logger] and of the numeric backends are recorded, in
      order, in the field [trace] of the object. *)

From Stdlib Require Import PrimFloat.
From Stdlib Require Import ZArith String Ascii List Bool Arith Lia.
From Stdlib Require Import Reals Lra DecimalString.
From Stdlib Require DecimalZ.
Import ListNotations.

Set Implicit Arguments.
Open Scope string_scope.
Open Scope list_scope.

(** ** numpy values *)

Inductive npfloat : Type :=
| FNaN
| FReal (r : R).

Definition np_isnan (x : npfloat) : bool :=
  match x with FNaN => true | FReal _ => false end.

(** [isnan] of an integer array is false everywhere. *)
Definition np_isnan_int (_ : Z) : bool := false.

(** [x == y]: false as soon as one side is NaN. *)
Definition np_eq (x y : npfloat) : bool :=
  match x, y with
  | FReal a, FReal b => if Req_dec_T a b then true else false
  | _, _ => false
  end.

(** [x > y] *)
Definition np_gt (x y : npfloat) : bool :=
  match x, y with
  | FReal a, FReal b => if Rlt_dec b a then true else false
  | _, _ => false
  end.

Definition np_add (x y : npfloat) : npfloat :=
  match x, y with
  | FReal a, FReal b => FReal (a + b)
  | _, _ => FNaN
  end.

Definition np_mul (x y : npfloat) : npfloat :=
  match x, y with
  | FReal a, FReal b => FReal (a * b)
  | _, _ => FNaN
  end.

(** [x / y]; a zero divisor gives NaN here (numpy would give an infinity
    for a non-zero [x]): the interpolator only divides by norms that it
    has tested to be positive. *)
Definition np_div (x y : npfloat) : npfloat :=
  match x, y with
  | FReal a, FReal b => if Req_dec_T b 0 then FNaN else FReal (a / b)
  | _, _ => FNaN
  end.

Definition np_sqrt (x : npfloat) : npfloat :=
  match x with
  | FReal a => if Rle_dec 0 a then FReal (sqrt a) else FNaN
  | FNaN => FNaN
  end.

Definition f0 : npfloat := FReal 0.
Definition f1 : npfloat := FReal 1.

(** [np.sum] of a vector. *)
Definition np_sum (v : list npfloat) : npfloat := fold_left np_add v f0.

(** [np.linalg.norm] of one row: the square root of the sum of squares. *)
Definition norm_row (row : list npfloat) : npfloat :=
  np_sqrt (np_sum (map (fun x => np_mul x x) row)).

(** [a[mask]]: the entries of [a] where the boolean mask is true. *)
Fixpoint mask_select {X : Type} (mask : list bool) (a : list X) : list X :=
  match mask, a with
  | m :: mask', x :: a' =>
      if m then x :: mask_select mask' a' else mask_select mask' a'
  | _, _ => []
  end.

(** [a[mask] = vals]: the entries of [a] where the mask is true are
    replaced, in order, by the entries of [vals]. *)
Fixpoint mask_assign {X : Type} (a : list X) (mask : list bool) (vals : list X)
  : list X :=
  match a, mask with
  | x :: a', m :: mask' =>
      if m then
        match vals with
        | v :: vals' => v :: mask_assign a' mask' vals'
        | [] => x :: mask_assign a' mask' []
        end
      else x :: mask_assign a' mask' vals
  | _, _ => a
  end.

(** [np.arange(lo, lo + n)] *)
Definition np_arange (lo : Z) (n : nat) : list Z :=
  map (fun k => (lo + Z.of_nat k)%Z) (seq 0 n).

Definition count_true (mask : list bool) : nat := count_occ bool_dec mask true.

(** ** Outcomes of a call and the method monad *)

Inductive exn : Type :=
| ValueError (msg : string)
| IndexError (msg : string)
| BaseException (msg : string).

Inductive outcome (A : Type) : Type :=
| Returned (a : A)
| Raised (e : exn)
| Diverged.

Arguments Returned {A} a.
Arguments Raised {A} e.
Arguments Diverged {A}.

(** ** Sparse matrices

    A sparse matrix is its shape and its list of stored entries
    [(row, column, value)], as given to [scipy.sparse.coo_matrix];
    entries with the same position add up.  The conversions [tocsc] and
    [tocsr] change the storage format only. *)

Record sparse : Type := mkSparse {
  sp_rows : nat;
  sp_cols : nat;
  sp_entries : list (Z * Z * npfloat)
}.

Definition index_in (n : nat) (i : Z) : bool :=
  ((0 <=? i) && (i <? Z.of_nat n))%Z.

(** [sparse.coo_matrix((data, (rows, cols)), shape=(m, n))]: the index
    arrays must lie inside the shape. *)
Definition coo_matrix (entries : list (Z * Z * npfloat)) (m n : nat)
  : outcome sparse :=
  if forallb (fun e => index_in m (fst (fst e))) entries then
    if forallb (fun e => index_in n (snd (fst e))) entries then
      Returned (mkSparse m n entries)
    else Raised (ValueError "column index exceeds matrix dimensions")
  else Raised (ValueError "row index exceeds matrix dimensions").

(** The stored values of row [i], in storage order. *)
Definition sp_row (m : sparse) (i : Z) : list npfloat :=
  map snd (filter (fun e => (fst (fst e) =? i)%Z) (sp_entries m)).

(** The columns of the stored entries of row [i], in storage order. *)
Definition sp_row_cols (m : sparse) (i : Z) : list Z :=
  map (fun e => snd (fst e)) (filter (fun e => (fst (fst e) =? i)%Z) (sp_entries m)).

(** The dense entry at [(i, j)]. *)
Definition sp_get (m : sparse) (i j : Z) : npfloat :=
  np_sum (map snd (filter (fun e => (fst (fst e) =? i)%Z && (snd (fst e) =? j)%Z)
                          (sp_entries m))).

(** Row [i] as a dense vector, as [m.toarray()[i]] shows it: the stored
    entries of one position added up. *)
Definition sp_dense_row (m : sparse) (i : Z) : list npfloat :=
  map (fun j => sp_get m i (Z.of_nat j)) (seq 0 (sp_cols m)).

Definition sp_transpose (m : sparse) : sparse :=
  mkSparse (sp_cols m) (sp_rows m)
           (map (fun e => (snd (fst e), fst (fst e), snd e)) (sp_entries m)).

(** [a.dot(b)] for two sparse matrices. *)
Definition sp_dot (a b : sparse) : outcome sparse :=
  if Nat.eqb (sp_cols a) (sp_rows b) then
    Returned (mkSparse (sp_rows a) (sp_cols b)
      (flat_map (fun ea =>
         map (fun eb => (fst (fst ea), snd (fst eb), np_mul (snd ea) (snd eb)))
             (filter (fun eb => (fst (fst eb) =? snd (fst ea))%Z) (sp_entries b)))
         (sp_entries a)))
  else Raised (ValueError "dimension mismatch").

(** [a.dot(v)] for a sparse matrix and a vector. *)
Definition sp_dot_vec (a : sparse) (v : list npfloat) : outcome (list npfloat) :=
  if Nat.eqb (sp_cols a) (length v) then
    Returned (map (fun i =>
                np_sum (map (fun e => np_mul (snd e) (nth (Z.to_nat (snd (fst e))) v FNaN))
                            (filter (fun e => (fst (fst e) =? Z.of_nat i)%Z) (sp_entries a))))
                (seq 0 (sp_rows a)))
  else Raised (ValueError "dimension mismatch").

(** [m.multiply(w[:, None])]: row [i] is scaled by [w[i]]. *)
Definition sp_scale_rows (m : sparse) (w : list npfloat) : outcome sparse :=
  if Nat.eqb (length w) (sp_rows m) then
    Returned (mkSparse (sp_rows m) (sp_cols m)
      (map (fun e => (fst e, np_mul (snd e) (nth (Z.to_nat (fst (fst e))) w FNaN)))
           (sp_entries m)))
  else Raised (ValueError "inconsistent shapes").

Definition sp_shift (dr dc : nat) (m : sparse) : list (Z * Z * npfloat) :=
  map (fun e => ((fst (fst e) + Z.of_nat dr)%Z, (snd (fst e) + Z.of_nat dc)%Z, snd e))
      (sp_entries m).

(** [sparse.vstack(mats)]: an empty list of blocks and blocks of
    different widths are refused. *)
Fixpoint vstack_from (acc : sparse) (mats : list sparse) : outcome sparse :=
  match mats with
  | [] => Returned acc
  | m :: mats' =>
      if Nat.eqb (sp_cols m) (sp_cols acc) then
        vstack_from
          (mkSparse (sp_rows acc + sp_rows m) (sp_cols acc)
                    (sp_entries acc ++ sp_shift (sp_rows acc) 0 m))
          mats'
      else Raised (ValueError "incompatible dimensions for axis 1")
  end.

Definition sp_vstack (mats : list sparse) : outcome sparse :=
  match mats with
  | [] => Raised (ValueError "blocks must be 2-D")
  | m :: mats' => vstack_from m mats'
  end.

(** [np.hstack(vs)] of vectors: at least one is needed. *)
Definition np_hstack (vs : list (list npfloat)) : outcome (list npfloat) :=
  match vs with
  | [] => Raised (ValueError "need at least one array to concatenate")
  | _ => Returned (concat vs)
  end.

(** [sparse.bmat([[a, ct], [c, None]])] *)
Definition sp_bmat22 (a ct c : sparse) : outcome sparse :=
  if Nat.eqb (sp_rows a) (sp_rows ct) && Nat.eqb (sp_cols a) (sp_cols c) then
    Returned (mkSparse (sp_rows a + sp_rows c) (sp_cols a + sp_cols ct)
      (sp_entries a ++ sp_shift 0 (sp_cols a) ct ++ sp_shift (sp_rows a) 0 c))
  else Raised (ValueError "blocks have incompatible dimensions").

(** ** Python strings and dictionaries *)

Definition underscore : ascii := "_"%char.

(** ["_" in name] *)
Fixpoint has_underscore (s : string) : bool :=
  match s with
  | EmptyString => false
  | String ch s' => if Ascii.eqb ch underscore then true else has_underscore s'
  end.

(** [name.split("_")]: the (never empty) list of the fields between
    underscores. *)
Fixpoint split_underscore (s : string) : list string :=
  match s with
  | EmptyString => [EmptyString]
  | String ch s' =>
      if Ascii.eqb ch underscore then EmptyString :: split_underscore s'
      else match split_underscore s' with
           | field :: fields => String ch field :: fields
           | [] => [String ch EmptyString]
           end
  end.

Definition is_space (ch : ascii) : bool :=
  let n := nat_of_ascii ch in
  (((9 <=? n) && (n <=? 13)) || ((28 <=? n) && (n <=? 32)))%nat.

Fixpoint lstrip (s : string) : string :=
  match s with
  | String ch s' => if is_space ch then lstrip s' else s
  | EmptyString => EmptyString
  end.

Definition string_rev (s : string) : string :=
  string_of_list_ascii (rev (list_ascii_of_string s)).

Definition strip (s : string) : string :=
  string_rev (lstrip (string_rev (lstrip s))).

Definition digit_of (ch : ascii) : option Z :=
  let n := nat_of_ascii ch in
  if ((48 <=? n) && (n <=? 57))%nat then Some (Z.of_nat (n - 48)) else None.

Fixpoint parse_digits (acc : Z) (s : string) : option Z :=
  match s with
  | EmptyString => Some acc
  | String ch s' =>
      match digit_of ch with
      | Some d => parse_digits (10 * acc + d) s'
      | None => None
      end
  end.

Definition parse_nat (s : string) : option Z :=
  match s with
  | EmptyString => None
  | _ => parse_digits 0 s
  end.

(** [int(s)] for a string of ASCII characters: surrounding white space,
    an optional sign and at least one decimal digit; [None] stands for
    the [ValueError] of anything else.  (Python's [int] also reads the
    decimal digits and the white space of other scripts.) *)
Definition py_int (s : string) : option Z :=
  match strip s with
  | String "+" s' => parse_nat s'
  | String "-" s' => option_map Z.opp (parse_nat s')
  | s' => parse_nat s'
  end.

(** ["{}".format(n)] for an integer. *)
Definition py_str_of_int (n : Z) : string :=
  NilEmpty.string_of_int (Z.to_int n).

Definition dict (V : Type) : Type := list (string * V).

(** [key in d] *)
Fixpoint dict_mem {V : Type} (key : string) (d : dict V) : bool :=
  match d with
  | [] => false
  | (k, _) :: d' => if String.eqb k key then true else dict_mem key d'
  end.

Fixpoint dict_get {V : Type} (key : string) (d : dict V) : option V :=
  match d with
  | [] => None
  | (k, v) :: d' => if String.eqb k key then Some v else dict_get key d'
  end.

(** [d[key] = v]: an existing key keeps its place, a new one goes last. *)
Fixpoint dict_set {V : Type} (key : string) (v : V) (d : dict V) : dict V :=
  match d with
  | [] => [(key, v)]
  | (k, v') :: d' =>
      if String.eqb k key then (k, v) :: d' else (k, v') :: dict_set key v d'
  end.

Definition dict_keys {V : Type} (d : dict V) : list string := map fst d.
Definition dict_values {V : Type} (d : dict V) : list V := map snd d.

(** ** The support and the interpolator object *)

Definition point : Type := list npfloat.

(** The mesh, an external collaborator: its nodes and its evaluation
    kernels. *)
Record Support : Type := mkSupport {
  nodes : list point;
  support_evaluate_value : list point -> list npfloat -> list npfloat;
  support_evaluate_gradient : list point -> list npfloat -> list (list npfloat)
}.

Definition n_nodes (s : Support) : nat := length (nodes s).

(** A registered soft constraint: ['matrix'], ['b'] and ['w']. *)
Record soft_block : Type := mkSoft {
  blk_matrix : sparse;
  blk_b : list npfloat;
  blk_w : list npfloat
}.

(** A registered equality constraint: ["A"], ["B"], ["col"], ["row"]. *)
Record eq_block : Type := mkEq {
  eq_A : list npfloat;
  eq_B : list npfloat;
  eq_col : list Z;
  eq_row : list Z
}.

(** The [solver] argument of [solve_system] and the attribute
    [self.solver]: [None], a string, a callable, or any other object. *)
Inductive solver_arg : Type :=
| SolverNone
| SolverStr (s : string)
| SolverCallable (f : sparse -> list npfloat -> list npfloat)
| SolverOther.

(** What a call leaves behind besides the attributes: the log records
    and the calls of the numeric backends and of the setup hook. *)
Inductive event : Type :=
| LogDebug (msg : string)
| LogInfo (msg : string)
| LogWarning (msg : string)
| LogError (msg : string)
| BackendSolve (backend : string)
| SetupCalled.

(** The attributes of the object that the methods below read or write.
    [region_function] is the predicate of the region on one node
    position (the source applies it to the whole array of nodes at
    once); [trace] records the log and the backend calls. *)
Record DiscreteInterpolator : Type := mkInterpolator {
  support : Support;
  region_function : point -> bool;
  c : list npfloat;
  up_to_date : bool;
  solver : solver_arg;
  constraints : dict soft_block;
  interpolation_weights : dict npfloat;
  equal_constraints : dict eq_block;
  eq_const_c : nat;
  c_ : Z;
  trace : list event
}.

Definition set_c (v : list npfloat) (self : DiscreteInterpolator) :=
  mkInterpolator (support self) (region_function self) v (up_to_date self)
    (solver self) (constraints self) (interpolation_weights self)
    (equal_constraints self) (eq_const_c self) (c_ self) (trace self).

Definition set_up_to_date (b : bool) (self : DiscreteInterpolator) :=
  mkInterpolator (support self) (region_function self) (c self) b
    (solver self) (constraints self) (interpolation_weights self)
    (equal_constraints self) (eq_const_c self) (c_ self) (trace self).

Definition set_constraints (d : dict soft_block) (self : DiscreteInterpolator) :=
  mkInterpolator (support self) (region_function self) (c self) (up_to_date self)
    (solver self) d (interpolation_weights self)
    (equal_constraints self) (eq_const_c self) (c_ self) (trace self).

Definition set_interpolation_weight (k : string) (v : npfloat)
  (self : DiscreteInterpolator) :=
  mkInterpolator (support self) (region_function self) (c self) (up_to_date self)
    (solver self) (constraints self) (dict_set k v (interpolation_weights self))
    (equal_constraints self) (eq_const_c self) (c_ self) (trace self).

Definition set_equal_constraints (d : dict eq_block) (n : nat)
  (self : DiscreteInterpolator) :=
  mkInterpolator (support self) (region_function self) (c self) (up_to_date self)
    (solver self) (constraints self) (interpolation_weights self)
    d n (c_ self) (trace self).

Definition set_c_ (z : Z) (self : DiscreteInterpolator) :=
  mkInterpolator (support self) (region_function self) (c self) (up_to_date self)
    (solver self) (constraints self) (interpolation_weights self)
    (equal_constraints self) (eq_const_c self) z (trace self).

Definition emit (e : event) (self : DiscreteInterpolator) :=
  mkInterpolator (support self) (region_function self) (c self) (up_to_date self)
    (solver self) (constraints self) (interpolation_weights self)
    (equal_constraints self) (eq_const_c self) (c_ self) (trace self ++ [e]).

(** The method monad. *)
Definition M (A : Type) : Type :=
  DiscreteInterpolator -> outcome A * DiscreteInterpolator.

Definition ret {A : Type} (a : A) : M A := fun self => (Returned a, self).

Definition bind {A B : Type} (m : M A) (k : A -> M B) : M B :=
  fun self =>
    match m self with
    | (Returned a, self') => k a self'
    | (Raised e, self') => (Raised e, self')
    | (Diverged, self') => (Diverged, self')
    end.

Definition raise {A : Type} (e : exn) : M A := fun self => (Raised e, self).

Definition lift {A : Type} (o : outcome A) : M A := fun self => (o, self).

Definition get : M DiscreteInterpolator := fun self => (Returned self, self).

Definition modify (f : DiscreteInterpolator -> DiscreteInterpolator) : M unit :=
  fun self => (Returned tt, f self).

Definition log (e : event) : M unit := modify (emit e).

Declare Scope method_scope.
Delimit Scope method_scope with method.
Notation "x <- m ;; k" := (bind m (fun x => k))
  (at level 100, m at next level, right associativity) : method_scope.
Notation "m ;;; k" := (bind m (fun _ => k))
  (at level 100, right associativity) : method_scope.
Open Scope method_scope.

(** ** Region renumbering *)

(** Property [region]: the boolean mask of the active nodes. *)
Definition region (self : DiscreteInterpolator) : list bool :=
  map (region_function self) (nodes (support self)).

(** Property [nx]: [len(self.support.nodes[self.region])]. *)
Definition nx (self : DiscreteInterpolator) : nat :=
  length (mask_select (region self) (nodes (support self))).

(** Property [region_map]. *)
Definition region_map (self : DiscreteInterpolator) : list Z :=
  let region_map := repeat 0%Z (n_nodes (support self)) in
  mask_assign region_map (region self)
    (np_arange 0 (length (mask_select (region self) region_map))).

(** The local map [gi] built by [add_equality_constraints] and by
    [add_inequality_constraints_to_matrix] (its floats hold whole
    numbers, kept here as integers). *)
Definition gi (self : DiscreteInterpolator) : list Z :=
  let gi := repeat 0%Z (n_nodes (support self)) in
  let gi := map (fun _ => (-1)%Z) gi in
  mask_assign gi (region self) (np_arange 0 (nx self)).

(** [__init__(support, up_to_date=...)] *)
Definition init (s : Support) (utd : bool) : DiscreteInterpolator :=
  emit (LogInfo "Creating discrete interpolator")
    (mkInterpolator s (fun _ => true) (repeat f0 (n_nodes s)) utd
       (SolverStr "cg") [] [] [] 0 0%Z []).

(** ** Soft constraints *)

(** [set_interpolation_weights(weights)] *)
Fixpoint set_interpolation_weights (weights : dict npfloat) : M unit :=
  match weights with
  | [] => ret tt
  | (key, v) :: weights' =>
      modify (set_up_to_date false) ;;;
      modify (set_interpolation_weight key v) ;;;
      set_interpolation_weights weights'
  end.

(** [reset()] *)
Definition reset : M unit :=
  modify (set_constraints []) ;;;
  modify (set_c_ 0%Z) ;;;
  log (LogDebug "Resetting interpolation constraints").

(** The array arguments [A] and [idc]: two- or three-dimensional.  An
    array without rows is taken to have no columns. *)
Inductive ndarray (X : Type) : Type :=
| Arr2 (a : list (list X))
| Arr3 (a : list (list (list X))).

Definition all_length {X : Type} (n : nat) (l : list (list X)) : bool :=
  forallb (fun row => Nat.eqb (length row) n) l.

Definition rectangular2 {X : Type} (a : list (list X)) : bool :=
  all_length (length (hd [] a)) a.

Definition rectangular3 {X : Type} (a : list (list (list X))) : bool :=
  all_length (length (hd [] a)) a
  && forallb (all_length (length (hd [] (hd [] a)))) a.

(** [np.array(a).shape]; a ragged nesting is a [ValueError]. *)
Definition np_shape {X : Type} (a : ndarray X) : outcome (list nat) :=
  match a with
  | Arr2 a2 =>
      if rectangular2 a2 then Returned [length a2; length (hd [] a2)]
      else Raised (ValueError "inhomogeneous shape")
  | Arr3 a3 =>
      if rectangular3 a3 then
        Returned [length a3; length (hd [] a3); length (hd [] (hd [] a3))]
      else Raised (ValueError "inhomogeneous shape")
  end.

(** The third argument [w]: a Python number, a numpy array, or anything
    else. *)
Inductive weight : Type :=
| WScalar (x : npfloat)
| WArray (w : list npfloat)
| WOther.

Fixpoint zip_with {X Y Z : Type} (f : X -> Y -> Z) (l : list X) (l' : list Y)
  : list Z :=
  match l, l' with
  | x :: l, y :: l' => f x y :: zip_with f l l'
  | _, _ => []
  end.

(** [B[length > 0] /= length[length > 0]] *)
Definition normalise_b (B length : list npfloat) : list npfloat :=
  zip_with (fun b len => if np_gt len f0 then np_div b len else b) B length.

(** [mask = np.any(np.isnan(A), axis=1); A[mask, :] = 0] *)
Definition zero_nan_rows (A : list (list npfloat)) : list (list npfloat) :=
  map (fun row => if existsb np_isnan row then map (fun _ => f0) row else row) A.

(** [A[length > 0, :] /= length[length > 0, None]] *)
Definition normalise_rows (A : list (list npfloat)) (length : list npfloat)
  : list (list npfloat) :=
  zip_with (fun row len =>
              if np_gt len f0 then map (fun x => np_div x len) row else row)
           A length.

(** The triples [(rows.flatten(), idc.flatten())] with [A.flatten()],
    where [rows[i, j] = i]. *)
Definition coo_triples (A : list (list npfloat)) (idc : list (list Z))
  : list (Z * Z * npfloat) :=
  concat
    (zip_with (fun i rc =>
                 zip_with (fun v j => (Z.of_nat i, j, v)) (fst rc) (snd rc))
              (seq 0 (length A)) (combine A idc)).

(** The numeric suffix tried after a collision on [name]. *)
Definition next_count (name : string) : outcome Z :=
  if has_underscore name then
    match py_int (nth 1 (split_underscore name) EmptyString) with
    | Some n => Returned (n + 1)%Z
    | None => Raised (ValueError "invalid literal for int() with base 10")
    end
  else Returned 0%Z.

(** The loop [while name in self.constraints: ...]; [fuel] bounds the
    number of iterations, and running out of it is [Diverged]. *)
Fixpoint unique_name {V : Type} (fuel : nat) (base_name name : string)
  (registry : dict V) : outcome string :=
  if dict_mem name registry then
    match fuel with
    | O => Diverged
    | S fuel' =>
        match next_count name with
        | Returned count =>
            unique_name fuel' base_name
              (base_name ++ "_" ++ py_str_of_int count) registry
        | Raised e => Raised e
        | Diverged => Diverged
        end
    end
  else Returned name.

(** The block of the [if len(A.shape) > 2] branch: the three-dimensional
    arguments flattened to two dimensions. *)
Definition flatten_block (A : ndarray npfloat) (idc : ndarray Z)
  (B : list npfloat) (w : weight)
  : outcome (nat * list (list npfloat) * list (list Z) * list npfloat * weight) :=
  match A, idc with
  | Arr3 a3, Arr3 i3 =>
      let n_rows := (length a3 * length (hd [] a3))%nat in
      let w := match w with
               | WArray wa => WArray (concat (repeat wa (length (hd [] a3))))
               | _ => w
               end in
      if Nat.eqb (length B) n_rows then
        Returned (n_rows, concat a3, concat i3, B, w)
      else Raised (ValueError "cannot reshape array")
  | Arr2 a2, Arr2 i2 => Returned (length a2, a2, i2, B, w)
  | _, _ => Raised (ValueError "shape mismatch")
  end.

(** [add_constraints_to_least_squares(A, B, idc, w, name)] *)
Definition add_constraints_to_least_squares (fuel : nat)
  (A : ndarray npfloat) (B : list npfloat) (idc : ndarray Z) (w : weight)
  (name : string) : M unit :=
  shape_A <- lift (np_shape A) ;;
  shape_idc <- lift (np_shape idc) ;;
  if negb (if list_eq_dec Nat.eq_dec shape_A shape_idc then true else false) then
    log (LogError ("Cannot add constraints: A and indexes have different shape : "
                   ++ name))
  else
    flat <- lift (flatten_block A idc B w) ;;
    let '(n_rows, A, idc, B, w) := flat in
    (* normalise by rows of A *)
    let length := map norm_row A in
    if negb (Nat.eqb (List.length B) (List.length length)) then
      raise (IndexError "boolean index did not match indexed array")
    else
    let B := normalise_b B length in
    let A := zero_nan_rows A in
    let A := normalise_rows A length in
    w <- match w with
         | WScalar x => ret (map (fun one => np_mul one x) (repeat f1 (List.length A)))
         | WArray wa => ret wa
         | WOther => raise (BaseException "w must be a numpy array")
         end ;;
    if negb (Nat.eqb (List.length w) (List.length A)) then
      raise (BaseException "Weight array does not match number of constraints")
    else
    (if existsb np_isnan_int (concat idc)
        || existsb np_isnan (concat A)
        || existsb np_isnan B
     then log (LogWarning ("Constraints contain nan not adding constraints: "
                           ++ name))
     else ret tt) ;;;
    self <- get ;;
    name <- lift (unique_name fuel name name (constraints self)) ;;
    matrix <- lift (coo_matrix (coo_triples A idc) n_rows (nx self)) ;;
    modify (set_constraints
              (dict_set name (mkSoft matrix B w) (constraints self))).

(** ** Equality constraints *)

(** [a[i]] for an integer index: negative indices count from the end. *)
Definition py_getitem {X : Type} (a : list X) (i : Z) : option X :=
  let n := Z.of_nat (length a) in
  if ((0 <=? i) && (i <? n))%Z then nth_error a (Z.to_nat i)
  else if ((- n <=? i) && (i <? 0))%Z then nth_error a (Z.to_nat (i + n))
  else None.

(** [a[idx]] for an integer index array. *)
Fixpoint np_take {X : Type} (a : list X) (idx : list Z) : outcome (list X) :=
  match idx with
  | [] => Returned []
  | i :: idx' =>
      match py_getitem a i with
      | None => Raised (IndexError "index is out of bounds")
      | Some x =>
          match np_take a idx' with
          | Returned xs => Returned (x :: xs)
          | other => other
          end
      end
  end.

(** [add_equality_constraints(node_idx, values, name)] *)
Definition add_equality_constraints (node_idx : list Z) (values : list npfloat)
  (name : string) : M unit :=
  self <- get ;;
  let gi := gi self in
  idc <- lift (np_take gi node_idx) ;;
  let outside := map (fun i => negb (i =? -1)%Z) idc in
  if negb (Nat.eqb (length values) (length outside)) then
    raise (IndexError "boolean index did not match indexed array")
  else
    let n := length (mask_select outside idc) in
    modify (set_equal_constraints
              (dict_set name
                 (mkEq (repeat f1 n)
                       (mask_select outside values)
                       (mask_select outside idc)
                       (np_arange (Z.of_nat (eq_const_c self)) n))
                 (equal_constraints self))
              (eq_const_c self + n)).

(** ** Matrix assembly *)

Definition obind {A B : Type} (o : outcome A) (k : A -> outcome B) : outcome B :=
  match o with
  | Returned a => k a
  | Raised e => Raised e
  | Diverged => Diverged
  end.

(** [b * w] for two vectors of one length (the broadcasting of arrays of
    different lengths is left out: no block is stored with them). *)
Definition np_mul_vec (b w : list npfloat) : outcome (list npfloat) :=
  if Nat.eqb (length b) (length w) then Returned (zip_with np_mul b w)
  else Raised (ValueError "operands could not be broadcast together").

(** The loop of [build_matrix] over [self.constraints.values()]. *)
Fixpoint weighted_blocks (blocks : list soft_block)
  : outcome (list sparse * list (list npfloat)) :=
  match blocks with
  | [] => Returned ([], [])
  | blk :: blocks' =>
      if Nat.eqb (length (blk_w blk)) 0 then weighted_blocks blocks'
      else
        obind (sp_scale_rows (blk_matrix blk) (blk_w blk)) (fun m =>
        obind (np_mul_vec (blk_b blk) (blk_w blk)) (fun b =>
        obind (weighted_blocks blocks') (fun rest =>
        Returned (m :: fst rest, b :: snd rest))))
  end.

(** [build_matrix()] *)
Definition build_matrix : M (sparse * list npfloat) :=
  self <- get ;;
  mats_bs <- lift (weighted_blocks (dict_values (constraints self))) ;;
  A <- lift (sp_vstack (fst mats_bs)) ;;
  log (LogInfo "Interpolation matrix is assembled") ;;;
  B <- lift (np_hstack (snd mats_bs)) ;;
  ret (A, B).

(** The lists [a], [rows], [cols] and [b] collected by
    [add_equality_block] from the equality registry. *)
Fixpoint equality_lists (blocks : list eq_block)
  : outcome (list npfloat * list Z * list Z * list npfloat) :=
  match blocks with
  | [] => Returned ([], [], [], [])
  | blk :: blocks' =>
      let aa := eq_A blk in
      let keep := map (fun x => negb (np_eq x f0)) aa in
      if Nat.eqb (length (eq_row blk)) (length aa)
         && Nat.eqb (length (eq_col blk)) (length aa) then
        obind (equality_lists blocks') (fun rest =>
          let '(a, rows, cols, b) := rest in
          Returned (mask_select keep aa ++ a,
                    mask_select keep (eq_row blk) ++ rows,
                    mask_select keep (eq_col blk) ++ cols,
                    eq_B blk ++ b))
      else Raised (IndexError "boolean index did not match indexed array")
  end.

(** The matrix [C] of [add_equality_block]: shape
    [(self.eq_const_c, self.nx)]. *)
Definition equality_C (self : DiscreteInterpolator) : outcome sparse :=
  obind (equality_lists (dict_values (equal_constraints self))) (fun l =>
    let '(a, rows, cols, _) := l in
    if Nat.eqb (length rows) (length a) && Nat.eqb (length cols) (length a) then
      coo_matrix (zip_with (fun rc v => (fst rc, snd rc, v)) (combine rows cols) a)
                 (eq_const_c self) (nx self)
    else Raised (ValueError "row, column, and data arrays must be 1-D")).

(** [add_equality_block(A, B)]; [None] is the value of the call when no
    equality constraint is registered. *)
Definition add_equality_block (A : sparse) (B : list npfloat)
  : M (option (sparse * list npfloat)) :=
  self <- get ;;
  if Nat.ltb 0 (length (equal_constraints self)) then
    ATA <- lift (sp_dot (sp_transpose A) A) ;;
    ATB <- lift (sp_dot_vec (sp_transpose A) B) ;;
    log (LogInfo "Equality block is assembled") ;;;
    l <- lift (equality_lists (dict_values (equal_constraints self))) ;;
    C <- lift (equality_C self) ;;
    let d := snd l in
    ATA <- lift (sp_bmat22 ATA (sp_transpose C) C) ;;
    ret (Some (ATA, ATB ++ d))
  else ret None.

(** ** Solver, lazy update and evaluation *)

Definition solver_is (name : string) (s : solver_arg) : bool :=
  match s with
  | SolverStr s' => String.eqb s' name
  | _ => false
  end.

Section Solver.

(** The keyword arguments handed on to the backend, and [{}]. *)
Variable kwargs : Type.
Variable no_kwargs : kwargs.

(** [sparse.linalg.cg] and [sparse.linalg.lsmr]: the solution and the
    termination code, [res[0]] and [res[1]]. *)
Variable sla_cg : sparse -> list npfloat -> kwargs -> list npfloat * Z.
Variable sla_lsmr : sparse -> list npfloat -> kwargs -> list npfloat * Z.

(** What the setup hook registers. *)
Variable setup_hook : DiscreteInterpolator -> DiscreteInterpolator.

(** The branch [if callable(solver)] of [solve_system]. *)
Definition solve_custom (f : sparse -> list npfloat -> list npfloat)
  (A : sparse) (b : list npfloat) : M bool :=
  log (LogWarning "Using custom solver") ;;;
  log (BackendSolve "custom") ;;;
  modify (set_c (f A b)) ;;;
  modify (set_up_to_date true) ;;;
  ret true.

(** The branch [if isinstance(solver, str)]: an unknown name becomes
    ["cg"]. *)
Definition known_solver (solver : solver_arg) : M solver_arg :=
  match solver with
  | SolverStr s =>
      if negb (String.eqb s "cg" || String.eqb s "lsmr") then
        log (LogWarning ("Unknown solver " ++ s ++ " using cg")) ;;;
        ret (SolverStr "cg")
      else ret solver
  | _ => ret solver
  end.

(** The branch [if solver == 'cg']. *)
Definition solve_cg (A : sparse) (b : list npfloat) (solver_kwargs : kwargs)
  : M bool :=
  log (LogInfo "Solving using cg") ;;;
  ATA <- lift (sp_dot (sp_transpose A) A) ;;
  ATB <- lift (sp_dot_vec (sp_transpose A) b) ;;
  log (BackendSolve "cg") ;;;
  let res := sla_cg ATA ATB solver_kwargs in
  (if (snd res >? 0)%Z then
     log (LogWarning "CG reached iteration limit and did not converge")
   else ret tt) ;;;
  modify (set_c (fst res)) ;;;
  modify (set_up_to_date true) ;;;
  ret true.

(** The branch [elif solver == 'lsmr']. *)
Definition solve_lsmr (A : sparse) (b : list npfloat) (solver_kwargs : kwargs)
  : M bool :=
  log (LogInfo "Solving using lsmr") ;;;
  log (BackendSolve "lsmr") ;;;
  let res := sla_lsmr A b solver_kwargs in
  (if (snd res =? 1)%Z || (snd res =? 4)%Z || (snd res =? 2)%Z
      || (snd res =? 5)%Z then
     modify (set_c (fst res))
   else if (snd res =? 0)%Z then
     log (LogWarning "Solution to least squares problem is all zeros, check input data")
   else if (snd res =? 3)%Z || (snd res =? 6)%Z then
     log (LogWarning "COND(A) seems to be greater than CONLIM, check input data")
   else if (snd res =? 7)%Z then
     log (LogWarning "LSMR reached iteration limit and did not converge") ;;;
     modify (set_c (fst res))
   else ret tt) ;;;
  modify (set_up_to_date true) ;;;
  log (LogInfo "Interpolation took some seconds") ;;;
  ret true.

(** The part of [solve_system] that follows the assembly of [A, b]. *)
Definition dispatch_solver (solver : solver_arg) (solver_kwargs : kwargs)
  (A : sparse) (b : list npfloat) : M bool :=
  match solver with
  | SolverCallable f => solve_custom f A b
  | _ =>
      (* solve with lsmr *)
      solver <- known_solver solver ;;
      if solver_is "cg" solver then solve_cg A b solver_kwargs
      else if solver_is "lsmr" solver then solve_lsmr A b solver_kwargs
      else ret false
  end.

(** [solve_system(solver, solver_kwargs)] *)
Definition solve_system (solver : solver_arg) (solver_kwargs : kwargs) : M bool :=
  self <- get ;;
  modify (set_c (repeat f0 (n_nodes (support self)))) ;;;
  self <- get ;;
  modify (set_c (map (fun _ => FNaN) (c self))) ;;;
  Ab <- build_matrix ;;
  dispatch_solver solver solver_kwargs (fst Ab) (snd Ab).

(** Modelled from the spec: [setup_interpolator], the hook of the base
    class [GeologicalInterpolator] that [update] calls; its code is not
    among these sources.  The spec has it (re)populate the constraints:
    it replaces the constraint registries and the equality row counter
    and leaves the other attributes as they are. *)
Definition setup_interpolator : M unit :=
  log SetupCalled ;;;
  modify (fun self =>
            let self' := setup_hook self in
            set_equal_constraints (equal_constraints self') (eq_const_c self')
              (set_constraints (constraints self') self)).

(** [update()]; [None] is the value of the call that falls off the end. *)
Definition update : M (option bool) :=
  self <- get ;;
  match solver self with
  | SolverNone =>
      log (LogDebug "Cannot rerun interpolator") ;;;
      ret (Some false)
  | _ =>
      if negb (up_to_date self) then
        setup_interpolator ;;;
        self <- get ;;
        r <- solve_system (solver self) no_kwargs ;;
        ret (Some r)
      else ret None
  end.

(** [evaluate_value(locations)] *)
Definition evaluate_value (locations : list point) : M (list npfloat) :=
  update ;;;
  let evaluation_points := locations in
  let evaluated := repeat f0 (length evaluation_points) in
  let mask := map (existsb (fun x => np_eq x FNaN)) evaluation_points in
  let not_mask := map negb mask in
  if Nat.ltb 0 (length (mask_select not_mask evaluation_points)) then
    self <- get ;;
    let values := support_evaluate_value (support self)
                    (mask_select not_mask evaluation_points) (c self) in
    if Nat.eqb (length values) (length (mask_select not_mask evaluated)) then
      ret (mask_assign evaluated not_mask values)
    else raise (ValueError "shape mismatch in boolean index assignment")
  else ret evaluated.

(** [evaluate_gradient(locations)] *)
Definition evaluate_gradient (locations : list point)
  : M (list (list npfloat)) :=
  update ;;;
  if Nat.ltb 0 (length locations) then
    self <- get ;;
    ret (support_evaluate_gradient (support self) locations (c self))
  else ret [].

End Solver.

(** ** A small support for concrete runs

    Nodes on the x axis, and a field whose value at a point is the
    point's first coordinate. *)

Definition line_support (xs : list R) : Support :=
  mkSupport (map (fun x => [FReal x; f0; f0]) xs)
            (fun points _ => map (hd FNaN) points)
            (fun points _ => map (fun _ => [f1; f0; f0]) points).

(** The assignment [self.region_function = f]. *)
Definition set_region_function (f : point -> bool) (self : DiscreteInterpolator) :=
  mkInterpolator (support self) f (c self) (up_to_date self)
    (solver self) (constraints self) (interpolation_weights self)
    (equal_constraints self) (eq_const_c self) (c_ self) (trace self).

(** [set_region(region)]: the assignment is commented out in the source,
    the call only logs. *)
Definition set_region (region : point -> bool) : M unit :=
  log (LogInfo "Cannot use region at the moment").

(** The nodes with a positive first coordinate. *)
Definition positive_x (p : point) : bool := np_gt (hd FNaN p) f0.

(** A backend that answers the zero vector with termination code
    [code], for concrete runs. *)
Definition zero_backend (code : Z) (A : sparse) (b : list npfloat) (_ : unit)
  : list npfloat * Z :=
  (repeat f0 (sp_cols A), code).

(** The public calls that go through [update]. *)
Inductive lazy_call : Type :=
| CallUpdate
| CallEvaluateValue (locations : list point)
| CallEvaluateGradient (locations : list point).

Section Calls.

Variable kwargs : Type.
Variable no_kwargs : kwargs.
Variable sla_cg : sparse -> list npfloat -> kwargs -> list npfloat * Z.
Variable sla_lsmr : sparse -> list npfloat -> kwargs -> list npfloat * Z.
Variable setup_hook : DiscreteInterpolator -> DiscreteInterpolator.

(** The object after one call, whatever the call gave back: a caller
    that catches an exception goes on with the object as the call left
    it. *)
Definition after_call (self : DiscreteInterpolator) (k : lazy_call)
  : DiscreteInterpolator :=
  match k with
  | CallUpdate => snd (update no_kwargs sla_cg sla_lsmr setup_hook self)
  | CallEvaluateValue l =>
      snd (evaluate_value no_kwargs sla_cg sla_lsmr setup_hook l self)
  | CallEvaluateGradient l =>
      snd (evaluate_gradient no_kwargs sla_cg sla_lsmr setup_hook l self)
  end.

Definition after_calls (self : DiscreteInterpolator) (ks : list lazy_call)
  : DiscreteInterpolator :=
  fold_left after_call ks self.

End Calls.

(** The number of backend solves recorded in a trace. *)
Definition solves (t : list event) : nat :=
  length (filter (fun e => match e with BackendSolve _ => true | _ => false end) t).

(** ** Vocabulary of the statements *)

(** The number of active entries before position [i]. *)
Definition rank (mask : list bool) (i : nat) : nat := count_true (firstn i mask).

(** What [build_matrix] gives back, as a function of the registry. *)
Definition assembled (self : DiscreteInterpolator)
  : outcome (sparse * list npfloat) :=
  obind (weighted_blocks (dict_values (constraints self))) (fun mats_bs =>
  obind (sp_vstack (fst mats_bs)) (fun A =>
  obind (np_hstack (snd mats_bs)) (fun B => Returned (A, B)))).

(** Two objects that differ at most by log records: same attributes,
    same number of recorded solves. *)
Definition same_attributes (self self' : DiscreteInterpolator) : Prop :=
  support self' = support self
  /\ region_function self' = region_function self
  /\ c self' = c self
  /\ up_to_date self' = up_to_date self
  /\ solver self' = solver self
  /\ constraints self' = constraints self
  /\ interpolation_weights self' = interpolation_weights self
  /\ equal_constraints self' = equal_constraints self
  /\ eq_const_c self' = eq_const_c self
  /\ solves (trace self') = solves (trace self).

(** The object once [solve_system] has overwritten [c] with NaN. *)
Definition reset_c (self : DiscreteInterpolator) : DiscreteInterpolator :=
  set_c (repeat FNaN (n_nodes (support self))) self.

(** The attributes that no solve touches. *)
Definition same_registries (self self' : DiscreteInterpolator) : Prop :=
  support self' = support self
  /\ region_function self' = region_function self
  /\ solver self' = solver self
  /\ constraints self' = constraints self
  /\ interpolation_weights self' = interpolation_weights self
  /\ equal_constraints self' = equal_constraints self
  /\ eq_const_c self' = eq_const_c self.

(** The termination codes of [lsmr] after which [solve_lsmr] stores the
    answer of the backend. *)
Definition lsmr_keeps (code : Z) : bool :=
  ((code =? 1) || (code =? 4) || (code =? 2) || (code =? 5) || (code =? 7))%Z.

(** The termination codes by which [lsmr] reports an ill-conditioned
    system. *)
Definition ill_conditioned (code : Z) : bool := ((code =? 3) || (code =? 6))%Z.

(** The solver arguments on which [solve_system] runs a backend. *)
Definition runs_backend (solver : solver_arg) : bool :=
  match solver with
  | SolverCallable _ | SolverStr _ => true
  | SolverNone | SolverOther => false
  end.

(** An interpolator on two nodes with one registered soft constraint of
    one row, for concrete runs of the solver. *)
Definition one_block_interpolator : DiscreteInterpolator :=
  set_constraints
    [("value", mkSoft (mkSparse 1 2 [(0%Z, 0%Z, f1)]) [f1] [f1])]
    (init (line_support [0; 1]%R) false).

(** The solves still owed or done: the recorded solves, plus one while
    the object is stale. *)
Definition solve_budget (self : DiscreteInterpolator) : nat :=
  solves (trace self) + (if up_to_date self then 0 else 1).

(** The position that a Python index [i] designates in an array of
    length [n]. *)
Definition py_position (n : nat) (i : Z) : nat :=
  Z.to_nat (if (i <? 0)%Z then i + Z.of_nat n else i)%Z.

(** An index accepted by an array of length [n]. *)
Definition py_index_ok (n : nat) (i : Z) : Prop :=
  (- Z.of_nat n <= i < Z.of_nat n)%Z.

(** The region-mapped columns [gi[node_idx]]. *)
Definition mapped_columns (self : DiscreteInterpolator) (node_idx : list Z)
  : list Z :=
  map (fun i => nth (py_position (n_nodes (support self)) i) (gi self) 0%Z) node_idx.

(** The mask [~(idc == -1)]. *)
Definition not_sentinel (idc : list Z) : list bool :=
  map (fun i => negb (i =? -1)%Z) idc.

(** An equality block whose entries lie inside a bordering block of
    [rows] rows and [cols] columns. *)
Definition eq_block_fits (rows cols : nat) (blk : eq_block) : Prop :=
  length (eq_row blk) = length (eq_A blk)
  /\ length (eq_col blk) = length (eq_A blk)
  /\ Forall (fun r => index_in rows r = true) (eq_row blk)
  /\ Forall (fun j => index_in cols j = true) (eq_col blk).

(** A sequence of calls of [add_equality_constraints]. *)
Fixpoint add_equalities (calls : list (list Z * list npfloat * string))
  (self : DiscreteInterpolator) : DiscreteInterpolator :=
  match calls with
  | [] => self
  | (node_idx, values, name) :: calls' =>
      add_equalities calls'
        (snd (add_equality_constraints node_idx values name self))
  end.

(** The coefficient rows and the right-hand side as
    [add_constraints_to_least_squares] stores them. *)
Definition normalised_A (A : list (list npfloat)) : list (list npfloat) :=
  normalise_rows (zero_nan_rows A) (map norm_row A).

Definition normalised_B (A : list (list npfloat)) (B : list npfloat)
  : list npfloat :=
  normalise_b B (map norm_row A).

(** The test [np.any(np.isnan(idc)) or np.any(np.isnan(A)) or
    np.any(np.isnan(B))] of the method. *)
Definition has_nan (A : list (list npfloat)) (idc : list (list Z))
  (B : list npfloat) : bool :=
  existsb np_isnan_int (concat idc) || existsb np_isnan (concat A)
  || existsb np_isnan B.

Definition nan_warning (name : string) : event :=
  LogWarning ("Constraints contain nan not adding constraints: " ++ name).

(** The weight array that the method derives from its argument [w] for
    [n] rows. *)
Definition weights_of (w : weight) (n : nat) : option (list npfloat) :=
  match w with
  | WScalar x => Some (map (fun one => np_mul one x) (repeat f1 n))
  | WArray wa => Some wa
  | WOther => None
  end.

(** The sum of the squares of a row of reals, added up from the left as
    [np_sum] does. *)
Definition sum_sq (rs : list R) : R :=
  fold_left Rplus (map (fun x => (x * x)%R) rs) 0%R.

(** A block that [build_matrix] stacks: its weight array is not empty. *)
Definition contributes (blk : soft_block) : bool :=
  negb (Nat.eqb (length (blk_w blk)) 0).

(** The rows of the blocks that [build_matrix] stacks. *)
Definition stacked_rows (blocks : list soft_block) : nat :=
  list_sum (map (fun blk => sp_rows (blk_matrix blk)) (filter contributes blocks)).

(** A well-formed block of a system with [n] columns: one right-hand
    side and one weight per row. *)
Definition block_ok (n : nat) (blk : soft_block) : Prop :=
  sp_cols (blk_matrix blk) = n
  /\ length (blk_b blk) = sp_rows (blk_matrix blk)
  /\ length (blk_w blk) = sp_rows (blk_matrix blk).

(** The arguments of one call of [add_constraints_to_least_squares]. *)
Record soft_call : Type := mkSoftCall {
  call_fuel : nat;
  call_A : ndarray npfloat;
  call_B : list npfloat;
  call_idc : ndarray Z;
  call_w : weight;
  call_name : string
}.

Definition run_soft_call (k : soft_call) : M unit :=
  add_constraints_to_least_squares (call_fuel k) (call_A k) (call_B k)
    (call_idc k) (call_w k) (call_name k).

(** A sequence of calls each of which returned: [accepted self ks self']
    when the calls [ks], made in order on [self], all return and leave
    [self']. *)
Inductive accepted : DiscreteInterpolator -> list soft_call -> DiscreteInterpolator -> Prop :=
| accepted_nil (self : DiscreteInterpolator) : accepted self [] self
| accepted_cons (self self1 self2 : DiscreteInterpolator) (k : soft_call)
    (ks : list soft_call) :
    run_soft_call k self = (Returned tt, self1) ->
    accepted self1 ks self2 ->
    accepted self (k :: ks) self2.

(** One call with a block of one row, the coefficient 1 on column 0 with
    target 2 and weight 1, under [name]. *)
Definition add_named (fuel : nat) (name : string) : M unit :=
  add_constraints_to_least_squares fuel (Arr2 [[FReal 1]]) [FReal 2]
    (Arr2 [[0%Z]]) (WScalar f1) name.

(** The keys of a registry after [n] more blocks have been registered
    under the same [name]; [None] if the collision loop does not settle
    on a name. *)
Fixpoint register_names (fuel : nat) (name : string) (n : nat)
  (registry : dict unit) : option (list string) :=
  match n with
  | O => Some (dict_keys registry)
  | S n' =>
      match unique_name fuel name name registry with
      | Returned name' => register_names fuel name n' (dict_set name' tt registry)
      | _ => None
      end
  end.

(** The sum of the values [vs] that sit on column [j], for values on the
    columns [cs]. *)
Fixpoint col_sum (vs : list R) (cs : list Z) (j : Z) : R :=
  match vs, cs with
  | v :: vs', c :: cs' => ((if (c =? j)%Z then v else 0) + col_sum vs' cs' j)%R
  | _, _ => 0%R
  end.

(** The name with the numeric suffix [k]. *)
Definition suffixed (base_name : string) (k : Z) : string :=
  (base_name ++ "_" ++ py_str_of_int k)%string.

(** Strings of decimal digits. *)
Definition is_digit (ch : ascii) : bool :=
  match digit_of ch with Some _ => true | None => false end.

Definition all_digits (s : string) : bool :=
  forallb is_digit (list_ascii_of_string s).

(** [n] calls of [add_named] in a row, whatever each of them gives
    back. *)
Fixpoint add_named_repeat (fuel : nat) (name : string) (n : nat)
  (self : DiscreteInterpolator) : DiscreteInterpolator :=
  match n with
  | O => self
  | S n' => add_named_repeat fuel name n' (snd (add_named fuel name self))
  end.

(** ** The constructor with its argument [c], and sequences of calls *)

(** The argument [c] of [__init__]: [None], a number, or a sequence of
    numbers. *)
Inductive c_arg : Type :=
| CNone
| CScalar (x : npfloat)
| CArray (v : list npfloat).

(** [np.array(c).shape[0]] *)
Definition c_shape0 (c : c_arg) : outcome nat :=
  match c with
  | CNone | CScalar _ => Raised (IndexError "tuple index out of range")
  | CArray v => Returned (length v)
  end.

(** [__init__(support, c=..., up_to_date=...)], assignment by
    assignment. *)
Definition init_with_c (s : Support) (c : c_arg) (utd : bool)
  : outcome DiscreteInterpolator :=
  obind (match c with
         | CNone => Returned (repeat f0 (n_nodes s))
         | _ =>
             obind (c_shape0 c) (fun n =>
               if Nat.eqb n (n_nodes s) then
                 Returned (match c with CArray v => v | _ => [] end)
               else Returned (repeat f0 (n_nodes s)))
         end) (fun c0 =>
  let self := mkInterpolator s (fun _ => true) c0 utd (SolverStr "cg")
                [] [] [] 0 0%Z [] in
  let self := emit (LogInfo "Creating discrete interpolator") self in
  Returned (set_c (repeat f0 (n_nodes s)) self)).

Section Methods.

Variable kwargs : Type.
Variable no_kwargs : kwargs.
Variable sla_cg : sparse -> list npfloat -> kwargs -> list npfloat * Z.
Variable sla_lsmr : sparse -> list npfloat -> kwargs -> list npfloat * Z.
Variable setup_hook : DiscreteInterpolator -> DiscreteInterpolator.

(** One call of a method of the class, with its arguments. *)
Inductive method_call : Type :=
| CallSetRegion (region : point -> bool)
| CallSetInterpolationWeights (weights : dict npfloat)
| CallReset
| CallAddConstraints (k : soft_call)
| CallAddEquality (node_idx : list Z) (values : list npfloat) (name : string)
| CallBuildMatrix
| CallAddEqualityBlock (A : sparse) (B : list npfloat)
| CallSolveSystem (solver : solver_arg) (solver_kwargs : kwargs)
| CallLazy (k : lazy_call).

(** The object after one call of a method, whatever the call gave
    back. *)
Definition after_method (self : DiscreteInterpolator) (k : method_call)
  : DiscreteInterpolator :=
  match k with
  | CallSetRegion region => snd (set_region region self)
  | CallSetInterpolationWeights weights => snd (set_interpolation_weights weights self)
  | CallReset => snd (reset self)
  | CallAddConstraints k => snd (run_soft_call k self)
  | CallAddEquality node_idx values name =>
      snd (add_equality_constraints node_idx values name self)
  | CallBuildMatrix => snd (build_matrix self)
  | CallAddEqualityBlock A B => snd (add_equality_block A B self)
  | CallSolveSystem solver solver_kwargs =>
      snd (solve_system sla_cg sla_lsmr solver solver_kwargs self)
  | CallLazy k => after_call no_kwargs sla_cg sla_lsmr setup_hook self k
  end.

Definition after_methods (self : DiscreteInterpolator) (ks : list method_call)
  : DiscreteInterpolator :=
  fold_left after_method ks self.

End Methods.

(** A method that leaves the support, the region function and the
    solver attribute of the object as they are, whatever it gives
    back. *)
Definition keeps_region {A : Type} (m : M A) : Prop :=
  forall self : DiscreteInterpolator,
    support (snd (m self)) = support self
    /\ region_function (snd (m self)) = region_function self
    /\ solver (snd (m self)) = solver self.

(** The number of right-hand sides that the registered equality blocks
    hold. *)
Definition eq_rows (blocks : list eq_block) : nat :=
  list_sum (map (fun blk => length (eq_B blk)) blocks).

(** ** Residuals *)

(** What [calculate_residual_for_constraints] gives back: the dictionary
    of the residuals, or an exception; [TypeError] is raised by this
    method only. *)
Inductive residuals_outcome : Type :=
| ResidualsReturned (residuals : dict (list npfloat))
| ResidualsValueError (msg : string)
| ResidualsTypeError (msg : string).

(** A Python string is a sequence of characters; a string of this file
    holds their UTF-8 bytes.  The bytes [10xxxxxx] continue the
    character that the byte before them started. *)
Definition is_continuation (ch : ascii) : bool :=
  let n := nat_of_ascii ch in
  ((128 <=? n) && (n <? 192))%nat.

(** The characters of a string, each with its bytes. *)
Fixpoint utf8_chars (s : string) : list string :=
  match s with
  | EmptyString => []
  | String ch s' =>
      match s' with
      | EmptyString => [String ch EmptyString]
      | String ch' _ =>
          if is_continuation ch' then
            match utf8_chars s' with
            | first :: others => String ch first :: others
            | [] => [String ch EmptyString]
            end
          else String ch EmptyString :: utf8_chars s'
      end
  end.

(** [constraint_name, constraint = key] for a string [key]: the string
    must have exactly two characters. *)
Definition unpack_two (key : string) : string + string * string :=
  match utf8_chars key with
  | [] | [_] => inl "not enough values to unpack (expected 2)"
  | [a; b] => inr (a, b)
  | _ => inl "too many values to unpack (expected 2)"
  end.

(** [calculate_residual_for_constraints()]: the loop runs over the
    dictionary itself, that is over its keys, and unpacks each key into
    [constraint_name, constraint]; [constraint["A"]], the first thing
    evaluated in the body, then subscripts a one-character string with a
    string. *)
Definition calculate_residual_for_constraints (self : DiscreteInterpolator)
  : residuals_outcome :=
  let residuals : dict (list npfloat) := [] in
  match dict_keys (constraints self) with
  | [] => ResidualsReturned residuals
  | key :: _ =>
      match unpack_two key with
      | inl msg => ResidualsValueError msg
      | inr (constraint_name, constraint) =>
          ResidualsTypeError "string indices must be integers"
      end
  end.

(** ** Inequality constraints

    The registry [self.ineq_constraints] is threaded through
    explicitly: the two methods take it as an argument, and
    [add_inequality_constraints_to_matrix] gives back the registry after
    the call.  The arrays are two-dimensional (an array without rows is
    taken to have no columns). *)

(** A registered inequality constraint: ['matrix'] and ["bounds"]. *)
Record ineq_block : Type := mkIneq {
  ineq_matrix : sparse;
  ineq_bounds : list (list npfloat)
}.

(** [a[idx]] for a two-dimensional integer index array. *)
Fixpoint np_take2 {X : Type} (a : list X) (idx : list (list Z))
  : outcome (list (list X)) :=
  match idx with
  | [] => Returned []
  | row :: idx' =>
      obind (np_take a row) (fun r =>
      obind (np_take2 a idx') (fun rs => Returned (r :: rs)))
  end.

(** [sparse.coo_matrix((data, (rows, cols)), shape=(m, n))] on the three
    flat arrays. *)
Definition coo_matrix_arrays (data : list npfloat) (rows cols : list Z) (m n : nat)
  : outcome sparse :=
  if Nat.eqb (length rows) (length data) && Nat.eqb (length cols) (length data) then
    coo_matrix (zip_with (fun rc v => (fst rc, snd rc, v)) (combine rows cols) data) m n
  else Raised (ValueError "row, column, and data array must all be the same length").

(** [add_inequality_constraints_to_matrix(A, bounds, idc, name)] *)
Definition add_inequality_constraints_to_matrix (A bounds : list (list npfloat))
  (idc : list (list Z)) (name : string) (self : DiscreteInterpolator)
  (ineq_constraints : dict ineq_block) : outcome (dict ineq_block) :=
  (* map from mesh node index to region node index *)
  let gi := gi self in
  obind (np_take2 gi idc) (fun idc =>
  let rows := np_arange 0 (length idc) in
  let rows := map (fun r => repeat r (length (hd [] A))) rows in
  obind (coo_matrix_arrays (concat A) (concat rows) (concat idc)
           (length rows) (nx self)) (fun matrix =>
  Returned (dict_set name (mkIneq matrix bounds) ineq_constraints))).

(** [np.hstack(arrays)] of two-dimensional arrays: they are joined row by
    row and must have the same number of rows. *)
Definition np_hstack2 (arrays : list (list (list npfloat)))
  : outcome (list (list npfloat)) :=
  match arrays with
  | [] => Raised (ValueError "need at least one array to concatenate")
  | a :: rest =>
      if forallb (fun b => Nat.eqb (length b) (length a)) rest then
        Returned (map (fun i => concat (map (fun b => nth i b []) arrays))
                      (seq 0 (length a)))
      else Raised (ValueError "all the input array dimensions except for the concatenation axis must match exactly")
  end.

(** [build_inequality_matrix()] *)
Definition build_inequality_matrix (ineq_constraints : dict ineq_block)
  : outcome (sparse * list (list npfloat)) :=
  let mats := map ineq_matrix (dict_values ineq_constraints) in
  let bounds := map ineq_bounds (dict_values ineq_constraints) in
  obind (sp_vstack mats) (fun Q =>
  obind (np_hstack2 bounds) (fun bounds =>
  Returned (Q, bounds))).

(** A sequence of calls of [add_inequality_constraints_to_matrix], each
    of which returned. *)
Inductive ineq_accepted (self : DiscreteInterpolator)
  : dict ineq_block
    -> list (list (list npfloat) * list (list npfloat) * list (list Z) * string)
    -> dict ineq_block -> Prop :=
| ineq_accepted_nil (reg : dict ineq_block) : ineq_accepted self reg [] reg
| ineq_accepted_cons (reg reg1 reg2 : dict ineq_block)
    (A bounds : list (list npfloat)) (idc : list (list Z)) (name : string)
    (ks : list (list (list npfloat) * list (list npfloat) * list (list Z) * string)) :
    add_inequality_constraints_to_matrix A bounds idc name self reg = Returned reg1 ->
    ineq_accepted self reg1 ks reg2 ->
    ineq_accepted self reg ((A, bounds, idc, name) :: ks) reg2.

(** The entries of a list of blocks stacked from row [offset] on: the
    entry [(i, j, v)] of a block sits on row [i] below the rows of the
    blocks before it and holds [v] times the weight of row [i]. *)
Fixpoint weighted_entries (offset : nat) (blocks : list soft_block)
  : list (Z * Z * npfloat) :=
  match blocks with
  | [] => []
  | blk :: blocks' =>
      map (fun e => ((fst (fst e) + Z.of_nat offset)%Z, snd (fst e),
                     np_mul (snd e) (nth (Z.to_nat (fst (fst e))) (blk_w blk) FNaN)))
          (sp_entries (blk_matrix blk))
      ++ weighted_entries (offset + sp_rows (blk_matrix blk)) blocks'
  end.

(** [arr[mask]] for a boolean mask over the first axis: the mask must
    have the length of the array. *)
Definition np_mask_rows {X : Type} (mask : list bool) (arr : list X)
  : outcome (list X) :=
  if Nat.eqb (length mask) (length arr) then Returned (mask_select mask arr)
  else Raised (IndexError "boolean index did not match indexed array").

Section InequalityValue.

(** [get_inequality_value_constraints()], a method of the base class
    that reads the data of the object: the points, one row
    [x, y, z, lower, upper] each. *)
Variable get_inequality_value_constraints : DiscreteInterpolator -> list point.

(** [support.get_element_for_location(points)]: the vertices, the
    interpolation coefficients [a], the element of each point and the
    mask of the points inside the mesh; [support.elements]: the nodes of
    each element. *)
Variable vertices_array : Type.
Variable get_element_for_location :
  Support -> list point -> vertices_array * list (list npfloat) * list Z * list bool.
Variable elements : Support -> list (list Z).

(** [add_value_inequality_constraints(w)] *)
Definition add_value_inequality_constraints (w : npfloat)
  (self : DiscreteInterpolator) (ineq_constraints : dict ineq_block)
  : outcome (dict ineq_block) :=
  let points := get_inequality_value_constraints self in
  (* check that we have added some points *)
  if Nat.ltb 0 (length points) then
    let '(vertices, a, element, inside) :=
      get_element_for_location (support self) points in
    obind (np_mask_rows inside points) (fun inside_points =>
    let rows := np_arange 0 (length inside_points) in
    let rows := map (fun r => repeat r (length (hd [] a))) rows in
    obind (np_mask_rows inside a) (fun a =>
    obind (np_mask_rows inside element) (fun element_inside =>
    obind (np_take (elements (support self)) element_inside) (fun cols =>
    add_inequality_constraints_to_matrix a
      (map (fun p => firstn 2 (skipn 3 p)) points) cols "inequality_value"
      self ineq_constraints))))
  else Returned ineq_constraints.

End InequalityValue.

(** ** Soft constraints on numpy's floating-point numbers

    [add_constraints_to_least_squares] once more, over any carrier [F]
    of the array entries and the operations that the method applies to
    them.  What is proved of it holds of the [float64] arithmetic of
    numpy, with its rounding, its infinities and its underflow, as well
    as of the exact numbers above.  The method reads [self.nx] and the
    registry [self.constraints]; it leaves a registry and log records. *)

Definition outcome_then {X Y : Type} (o : outcome X) (st : Y)
  (k : X -> outcome unit * Y) : outcome unit * Y :=
  match o with
  | Returned x => k x
  | Raised e => (Raised e, st)
  | Diverged => (Diverged, st)
  end.

Section FloatKernel.

(** The entries of the arrays. *)
Variable F : Type.
(** The [0] of [A[mask, :] = 0] and the entries of [np.ones]. *)
Variable fzero : F.
Variable fone : F.
(** [np.isnan(x)] *)
Variable fisnan : F -> bool.
(** [x > 0] *)
Variable fpositive : F -> bool.
(** [x * y] and [x / y] *)
Variable fmul : F -> F -> F.
Variable fdiv : F -> F -> F.
(** [np.linalg.norm] of one row. *)
Variable linalg_norm : list F -> F.

Record float_sparse : Type := mkFloatSparse {
  fs_rows : nat;
  fs_cols : nat;
  fs_entries : list (Z * Z * F)
}.

Record float_block : Type := mkFloatBlock {
  fb_matrix : float_sparse;
  fb_b : list F;
  fb_w : list F
}.

Inductive float_weight : Type :=
| FWScalar (x : F)
| FWArray (w : list F)
| FWOther.

(** The stored values and columns of row [i], in storage order. *)
Definition float_row (m : float_sparse) (i : Z) : list F :=
  map snd (filter (fun e => (fst (fst e) =? i)%Z) (fs_entries m)).

Definition float_row_cols (m : float_sparse) (i : Z) : list Z :=
  map (fun e => snd (fst e)) (filter (fun e => (fst (fst e) =? i)%Z) (fs_entries m)).

Definition float_coo_matrix (entries : list (Z * Z * F)) (m n : nat)
  : outcome float_sparse :=
  if forallb (fun e => index_in m (fst (fst e))) entries then
    if forallb (fun e => index_in n (snd (fst e))) entries then
      Returned (mkFloatSparse m n entries)
    else Raised (ValueError "column index exceeds matrix dimensions")
  else Raised (ValueError "row index exceeds matrix dimensions").

Definition float_coo_triples (A : list (list F)) (idc : list (list Z))
  : list (Z * Z * F) :=
  concat
    (zip_with (fun i rc =>
                 zip_with (fun v j => (Z.of_nat i, j, v)) (fst rc) (snd rc))
              (seq 0 (length A)) (combine A idc)).

(** [B[length > 0] /= length[length > 0]] *)
Definition float_normalise_b (B length : list F) : list F :=
  zip_with (fun b len => if fpositive len then fdiv b len else b) B length.

(** [mask = np.any(np.isnan(A), axis=1); A[mask, :] = 0] *)
Definition float_zero_nan_rows (A : list (list F)) : list (list F) :=
  map (fun row => if existsb fisnan row then map (fun _ => fzero) row else row) A.

(** [A[length > 0, :] /= length[length > 0, None]] *)
Definition float_normalise_rows (A : list (list F)) (length : list F)
  : list (list F) :=
  zip_with (fun row len =>
              if fpositive len then map (fun x => fdiv x len) row else row)
           A length.

(** The coefficient rows and the right-hand side as the method stores
    them. *)
Definition float_normalised_A (A : list (list F)) : list (list F) :=
  float_normalise_rows (float_zero_nan_rows A) (map linalg_norm A).

Definition float_normalised_B (A : list (list F)) (B : list F) : list F :=
  float_normalise_b B (map linalg_norm A).

(** The block of the [if len(A.shape) > 2] branch. *)
Definition float_flatten_block (A : ndarray F) (idc : ndarray Z)
  (B : list F) (w : float_weight)
  : outcome (nat * list (list F) * list (list Z) * list F * float_weight) :=
  match A, idc with
  | Arr3 a3, Arr3 i3 =>
      let n_rows := (length a3 * length (hd [] a3))%nat in
      let w := match w with
               | FWArray wa => FWArray (concat (repeat wa (length (hd [] a3))))
               | _ => w
               end in
      if Nat.eqb (length B) n_rows then
        Returned (n_rows, concat a3, concat i3, B, w)
      else Raised (ValueError "cannot reshape array")
  | Arr2 a2, Arr2 i2 => Returned (length a2, a2, i2, B, w)
  | _, _ => Raised (ValueError "shape mismatch")
  end.

(** [add_constraints_to_least_squares(A, B, idc, w, name)], from the
    registry [self.constraints] and [nx = self.nx] to the outcome of the
    call, the registry after it and the log records it has written. *)
Definition add_constraints_float (fuel nx : nat)
  (A : ndarray F) (B : list F) (idc : ndarray Z) (w : float_weight)
  (name : string) (registry : dict float_block)
  : outcome unit * (dict float_block * list event) :=
  outcome_then (np_shape A) (registry, []) (fun shape_A =>
  outcome_then (np_shape idc) (registry, []) (fun shape_idc =>
  if negb (if list_eq_dec Nat.eq_dec shape_A shape_idc then true else false) then
    (Returned tt,
     (registry,
      [LogError ("Cannot add constraints: A and indexes have different shape : "
                 ++ name)]))
  else
    outcome_then (float_flatten_block A idc B w) (registry, []) (fun flat =>
    let '(n_rows, A, idc, B, w) := flat in
    (* normalise by rows of A *)
    let length := map linalg_norm A in
    if negb (Nat.eqb (List.length B) (List.length length)) then
      (Raised (IndexError "boolean index did not match indexed array"),
       (registry, []))
    else
    let B := float_normalise_b B length in
    let A := float_zero_nan_rows A in
    let A := float_normalise_rows A length in
    outcome_then
      match w with
      | FWScalar x =>
          Returned (map (fun one => fmul one x) (repeat fone (List.length A)))
      | FWArray wa => Returned wa
      | FWOther => Raised (BaseException "w must be a numpy array")
      end (registry, []) (fun w =>
    if negb (Nat.eqb (List.length w) (List.length A)) then
      (Raised (BaseException "Weight array does not match number of constraints"),
       (registry, []))
    else
    let logged :=
      if existsb np_isnan_int (concat idc)
         || existsb fisnan (concat A)
         || existsb fisnan B
      then [LogWarning ("Constraints contain nan not adding constraints: "
                        ++ name)]
      else [] in
    outcome_then (unique_name fuel name name registry) (registry, logged)
      (fun name =>
    outcome_then (float_coo_matrix (float_coo_triples A idc) n_rows nx)
      (registry, logged) (fun matrix =>
    (Returned tt,
     (dict_set name (mkFloatBlock matrix B w) registry, logged)))))))).

End FloatKernel.

(** The exact numbers as a carrier: the registry and the weight argument
    of [add_constraints_to_least_squares] seen over it. *)
Definition float_sparse_of (m : sparse) : float_sparse npfloat :=
  mkFloatSparse (sp_rows m) (sp_cols m) (sp_entries m).

Definition float_block_of (blk : soft_block) : float_block npfloat :=
  mkFloatBlock (float_sparse_of (blk_matrix blk)) (blk_b blk) (blk_w blk).

Definition float_registry (registry : dict soft_block)
  : dict (float_block npfloat) :=
  map (fun kv => (fst kv, float_block_of (snd kv))) registry.

Definition float_weight_of (w : weight) : float_weight npfloat :=
  match w with
  | WScalar x => FWScalar x
  | WArray wa => FWArray wa
  | WOther => FWOther npfloat
  end.

Definition add_constraints_exact :=
  add_constraints_float f0 f1 np_isnan (fun x => np_gt x f0) np_mul np_div
    norm_row.

(** The carrier of numpy's [float64]: the IEEE 754 binary64 numbers with
    their infinities, NaN, rounding to nearest and gradual underflow.
    [binary64_norm] is the square root of the sum of the squares, as
    [np.linalg.norm] computes it along an axis, with the squares added
    from left to right; on rows of one or two entries, where it is used
    below, the order of the additions does not matter. *)
Definition binary64 : Type := PrimFloat.float.

Definition binary64_norm (row : list binary64) : binary64 :=
  PrimFloat.sqrt
    (fold_left PrimFloat.add (map (fun x => PrimFloat.mul x x) row) 0%float).

Definition add_constraints_binary64 :=
  add_constraints_float 0%float 1%float PrimFloat.is_nan
    (fun x => PrimFloat.ltb 0%float x) PrimFloat.mul PrimFloat.div
    binary64_norm.

(** * Properties *)

(** ** Boolean masks and ranges *)

Lemma index_in_iff (n : nat) (i : Z) :
  index_in n i = true <-> (0 <= i < Z.of_nat n)%Z.
Proof.
  unfold index_in. rewrite andb_true_iff, Z.leb_le, Z.ltb_lt. tauto.
Qed.

Lemma index_in_mono (n n' : nat) (i : Z) :
  n <= n' -> index_in n i = true -> index_in n' i = true.
Proof. rewrite !index_in_iff. lia. Qed.

Lemma np_arange_length (lo : Z) (n : nat) : length (np_arange lo n) = n.
Proof. unfold np_arange. now rewrite length_map, length_seq. Qed.

Lemma np_arange_S (lo : Z) (n : nat) :
  np_arange lo (S n) = lo :: np_arange (lo + 1) n.
Proof.
  unfold np_arange. cbn [seq map]. f_equal.
  - lia.
  - rewrite <- seq_shift, map_map. apply map_ext. intros k. lia.
Qed.

Lemma np_arange_nth (lo : Z) (n k : nat) (d : Z) :
  k < n -> nth k (np_arange lo n) d = (lo + Z.of_nat k)%Z.
Proof.
  revert lo k. induction n as [|n IH]; intros lo k Hk; [lia|].
  rewrite np_arange_S. destruct k as [|k]; cbn [nth].
  - lia.
  - rewrite IH by lia. lia.
Qed.

Lemma nth_map_in {X Y : Type} (f : X -> Y) (l : list X) (k : nat) (dx : X) (dy : Y) :
  k < length l -> nth k (map f l) dy = f (nth k l dx).
Proof.
  intros Hk. rewrite nth_indep with (d' := f dx) by now rewrite length_map.
  apply map_nth.
Qed.

Lemma mask_select_length {X : Type} (mask : list bool) (a : list X) :
  length mask = length a -> length (mask_select mask a) = count_true mask.
Proof.
  revert a. induction mask as [|m mask IH]; intros [|x a] H; try discriminate;
    [reflexivity|].
  injection H as H. unfold count_true in *. cbn [mask_select count_occ].
  destruct m; cbn [length]; destruct (bool_dec _ _); try congruence;
    rewrite IH by exact H; reflexivity.
Qed.

Lemma mask_assign_length {X : Type} (a : list X) (mask : list bool) (vals : list X) :
  length (mask_assign a mask vals) = length a.
Proof.
  revert mask vals. induction a as [|x a IH]; intros [|m mask] vals; try reflexivity.
  cbn [mask_assign]. destruct m; [destruct vals|]; cbn [length]; now rewrite IH.
Qed.


Lemma rank_lt (mask : list bool) (i : nat) :
  nth i mask false = true -> rank mask i < count_true mask.
Proof.
  unfold rank, count_true. revert i.
  induction mask as [|m mask IH]; intros [|i] H; cbn [nth firstn count_occ] in *;
    try discriminate.
  - subst m. destruct (bool_dec true true); [lia|congruence].
  - specialize (IH i H). destruct (bool_dec m true); lia.
Qed.

(** Writing a range through a mask numbers the selected positions in
    ascending order and leaves the others alone. *)
Lemma mask_assign_arange_nth (a : list Z) (mask : list bool) (lo d : Z) (i : nat) :
  length mask = length a -> i < length a ->
  nth i (mask_assign a mask (np_arange lo (count_true mask))) d =
  if nth i mask false then (lo + Z.of_nat (rank mask i))%Z else nth i a d.
Proof.
  revert mask lo i. induction a as [|x a IH]; intros [|m mask] lo i Hlen Hi;
    cbn [length] in *; try lia; try discriminate.
  injection Hlen as Hlen. unfold rank, count_true in *.
  destruct m; cbn [count_occ mask_assign].
  - destruct (bool_dec true true) as [_|n]; [|congruence].
    rewrite np_arange_S. destruct i as [|i]; cbn [nth firstn count_occ].
    + lia.
    + destruct (bool_dec true true) as [_|n]; [|congruence].
      rewrite IH by lia. destruct (nth i mask false); [lia|reflexivity].
  - destruct (bool_dec false true) as [e|_]; [discriminate|].
    destruct i as [|i]; cbn [nth firstn count_occ]; [reflexivity|].
    destruct (bool_dec false true) as [e|_]; [discriminate|].
    apply IH; lia.
Qed.

(** ** Region renumbering *)

Example mask_assign_range :
  mask_assign [0; 0; 0; 0]%Z [false; true; false; true] (np_arange 0 2)
  = [0; 0; 0; 1]%Z.
Proof. reflexivity. Qed.

Lemma region_length (self : DiscreteInterpolator) :
  length (region self) = n_nodes (support self).
Proof. unfold region, n_nodes. apply length_map. Qed.

(** [nx] counts the active nodes. *)
Lemma nx_count (self : DiscreteInterpolator) :
  nx self = count_true (region self).
Proof. unfold nx. apply mask_select_length. apply region_length. Qed.


(** The inactive nodes keep the zero that [region_map] starts from. *)
Lemma region_map_inactive (self : DiscreteInterpolator) (i : nat) :
  i < n_nodes (support self) -> nth i (region self) false = false ->
  nth i (region_map self) 0%Z = 0%Z.
Proof.
  intros Hi Hin. unfold region_map.
  rewrite mask_select_length by (rewrite repeat_length; apply region_length).
  rewrite mask_assign_arange_nth
    by (rewrite repeat_length; auto using region_length).
  rewrite Hin. apply nth_repeat.
Qed.

Lemma gi_length (self : DiscreteInterpolator) :
  length (gi self) = n_nodes (support self).
Proof. unfold gi. now rewrite mask_assign_length, length_map, repeat_length. Qed.

(** The map [gi] of the constraint methods: ascending renumbering of the
    active nodes, [-1] on the inactive ones. *)
Lemma gi_nth (self : DiscreteInterpolator) (i : nat) :
  i < n_nodes (support self) ->
  nth i (gi self) 0%Z =
  if nth i (region self) false then Z.of_nat (rank (region self) i) else (-1)%Z.
Proof.
  intros Hi. unfold gi. rewrite nx_count.
  rewrite mask_assign_arange_nth
    by (rewrite length_map, repeat_length; auto using region_length).
  destruct (nth i (region self) false); [reflexivity|].
  rewrite map_repeat.
  rewrite nth_indep with (d' := (-1)%Z) by now rewrite repeat_length.
  apply nth_repeat.
Qed.

Lemma np_gt_real (a b : R) : (b < a)%R -> np_gt (FReal a) (FReal b) = true.
Proof. intros H. unfold np_gt. now destruct (Rlt_dec b a). Qed.

Lemma np_gt_real_false (a b : R) : (a <= b)%R -> np_gt (FReal a) (FReal b) = false.
Proof. intros H. unfold np_gt. destruct (Rlt_dec b a); [lra|reflexivity]. Qed.

(** Settles the comparisons of real constants left in the goal. *)
Ltac decide_reals :=
  repeat match goal with
         | |- context [Rlt_dec ?a ?b] => destruct (Rlt_dec a b); try lra
         | |- context [Rle_dec ?a ?b] => destruct (Rle_dec a b); try lra
         | |- context [Req_dec_T ?a ?b] => destruct (Req_dec_T a b); try lra
         end.



(** ** Evaluation *)

Lemma np_eq_nan (x : npfloat) : np_eq x FNaN = false.
Proof. now destruct x. Qed.

(** The comparison [evaluation_points == np.nan] is false everywhere, so
    the mask of [evaluate_value] selects no point at all. *)
Lemma nan_mask_all_false (points : list point) :
  map (existsb (fun x => np_eq x FNaN)) points = repeat false (length points).
Proof.
  induction points as [|p points IH]; [reflexivity|].
  cbn [map length repeat]. rewrite IH. f_equal.
  induction p as [|x p IHp]; [reflexivity|].
  cbn [existsb]. now rewrite np_eq_nan.
Qed.

Lemma mask_select_all {X : Type} (a : list X) :
  mask_select (map negb (repeat false (length a))) a = a.
Proof. induction a as [|x a IH]; [reflexivity|]. cbn. now rewrite IH. Qed.

Lemma mask_select_all_true {X Y : Type} (a : list X) (b : list Y) :
  length a = length b ->
  mask_select (map negb (repeat false (length a))) b = b.
Proof. intros ->. apply mask_select_all. Qed.

Lemma mask_assign_all {X : Type} (a vals : list X) (n : nat) :
  length a = n -> length vals = n ->
  mask_assign a (map negb (repeat false n)) vals = vals.
Proof.
  revert vals n. induction a as [|x a IH]; intros [|v vals] [|n] Ha Hv;
    try discriminate; [reflexivity|].
  cbn. f_equal. cbn [length] in Ha, Hv. apply IH; lia.
Qed.

Section Lazy.

Variable kwargs : Type.
Variable no_kwargs : kwargs.
Variable sla_cg : sparse -> list npfloat -> kwargs -> list npfloat * Z.
Variable sla_lsmr : sparse -> list npfloat -> kwargs -> list npfloat * Z.
Variable setup_hook : DiscreteInterpolator -> DiscreteInterpolator.

Let update_ := update no_kwargs sla_cg sla_lsmr setup_hook.
Let evaluate_value_ := evaluate_value no_kwargs sla_cg sla_lsmr setup_hook.
Let evaluate_gradient_ := evaluate_gradient no_kwargs sla_cg sla_lsmr setup_hook.

(** With the flag up, [update] returns at once and changes nothing. *)
Lemma update_up_to_date (self : DiscreteInterpolator) :
  up_to_date self = true -> solver self <> SolverNone ->
  update_ self = (Returned None, self).
Proof.
  intros Hutd Hsolver. unfold update_, update, bind, get.
  destruct (solver self); try congruence; now rewrite Hutd.
Qed.

Lemma update_no_solver (self : DiscreteInterpolator) :
  solver self = SolverNone ->
  update_ self = (Returned (Some false),
                 emit (LogDebug "Cannot rerun interpolator") self).
Proof.
  intros Hsolver. unfold update_, update, bind, get.
  now rewrite Hsolver.
Qed.

(** Whatever the coordinates, an up-to-date interpolator hands every
    point to the support and returns its values. *)
Lemma evaluate_value_queries_every_point (self : DiscreteInterpolator)
  (locations : list point) :
  up_to_date self = true -> solver self <> SolverNone ->
  locations <> [] ->
  length (support_evaluate_value (support self) locations (c self))
  = length locations ->
  evaluate_value_ locations self
  = (Returned (support_evaluate_value (support self) locations (c self)), self).
Proof.
  intros Hutd Hsolver Hne Hlen.
  unfold evaluate_value_, evaluate_value, bind.
  fold update_. rewrite update_up_to_date by assumption.
  rewrite nan_mask_all_false, mask_select_all.
  assert (Hpos : Nat.ltb 0 (length locations) = true)
    by (destruct locations; [congruence|reflexivity]).
  rewrite Hpos. unfold get.
  rewrite (mask_select_all_true locations (repeat f0 (length locations)))
    by now rewrite repeat_length.
  rewrite repeat_length, Hlen, Nat.eqb_refl.
  unfold ret. do 2 f_equal.
  apply mask_assign_all; [apply repeat_length|exact Hlen].
Qed.

End Lazy.

(** C1: two query points, the first with a NaN coordinate, on an
    up-to-date interpolator.  The mask of [evaluate_value] is false on
    both, the Support is queried on both, and the slot of the NaN point
    holds what the Support answered (NaN for this support), not 0. *)
Theorem evaluate_value_nan_point_not_masked :
  let self := init (line_support [0; 1]%R) true in
  let points := [[FNaN; f0; f0]; [f1; f0; f0]] in
  map (existsb (fun x => np_eq x FNaN)) points = [false; false]
  /\ evaluate_value tt (zero_backend 0) (zero_backend 1) (fun s => s) points self
     = (Returned [FNaN; f1], self)
  /\ [FNaN; f1] <> [f0; f1].
Proof.
  intros self points. split; [|split].
  - apply (nan_mask_all_false points).
  - rewrite evaluate_value_queries_every_point; try reflexivity; discriminate.
  - discriminate.
Qed.

(** ** Matrix assembly, seen from the solver *)


Lemma same_attributes_refl (self : DiscreteInterpolator) : same_attributes self self.
Proof. repeat split. Qed.

Lemma solves_app (t t' : list event) : solves (t ++ t') = solves t + solves t'.
Proof. unfold solves. now rewrite filter_app, length_app. Qed.

Lemma same_attributes_emit_log (self : DiscreteInterpolator) (e : event) :
  solves [e] = 0 -> same_attributes self (emit e self).
Proof.
  intros He. repeat split. cbn [emit trace]. rewrite solves_app, He. lia.
Qed.

Lemma build_matrix_outcome (self : DiscreteInterpolator) :
  fst (build_matrix self) = assembled self.
Proof.
  unfold build_matrix, assembled, bind, get, lift, log, modify, ret, obind.
  destruct (weighted_blocks _) as [[mats bs]|e|]; try reflexivity.
  cbn [fst snd]. destruct (sp_vstack mats) as [A|e|]; try reflexivity.
  cbn. destruct (np_hstack bs); reflexivity.
Qed.

Lemma build_matrix_state (self : DiscreteInterpolator) :
  same_attributes self (snd (build_matrix self)).
Proof.
  unfold build_matrix, bind, get, lift, log, modify, ret.
  destruct (weighted_blocks _) as [[mats bs]|e|];
    try apply same_attributes_refl.
  cbn [fst snd]. destruct (sp_vstack mats) as [A|e|];
    try apply same_attributes_refl.
  cbn. destruct (np_hstack bs); cbn [snd];
    now apply same_attributes_emit_log.
Qed.

(** ** The solver *)

Ltac run_method :=
  cbv [bind log modify ret lift raise get]; cbn [fst snd].

Ltac project_state :=
  unfold same_attributes, same_registries;
  cbn [trace c up_to_date support region_function solver constraints
       interpolation_weights equal_constraints eq_const_c c_
       emit set_c set_up_to_date set_constraints set_equal_constraints
       set_interpolation_weight set_c_ set_region_function];
  rewrite ?solves_app; cbn [solves filter length].

Lemma same_registries_refl (self : DiscreteInterpolator) : same_registries self self.
Proof. repeat split. Qed.

Lemma same_registries_trans (s1 s2 s3 : DiscreteInterpolator) :
  same_registries s1 s2 -> same_registries s2 s3 -> same_registries s1 s3.
Proof. unfold same_registries. intuition congruence. Qed.

Lemma same_attributes_registries (self self' : DiscreteInterpolator) :
  same_attributes self self' -> same_registries self self'.
Proof. unfold same_attributes, same_registries. intuition. Qed.

Section SolverProperties.

Variable kwargs : Type.
Variable sla_cg : sparse -> list npfloat -> kwargs -> list npfloat * Z.
Variable sla_lsmr : sparse -> list npfloat -> kwargs -> list npfloat * Z.

Lemma solve_system_unfold (solver : solver_arg) (kw : kwargs)
  (self : DiscreteInterpolator) :
  solve_system sla_cg sla_lsmr solver kw self =
  bind build_matrix
       (fun Ab => dispatch_solver sla_cg sla_lsmr solver kw (fst Ab) (snd Ab))
       (reset_c self).
Proof.
  unfold solve_system, reset_c.
  unfold bind at 1 2 3 4, get, modify. cbn [fst snd].
  replace (set_c (map _ _) _)
    with (set_c (repeat FNaN (n_nodes (support self))) self); [reflexivity|].
  unfold set_c. cbn. now rewrite map_repeat.
Qed.

(** A custom solver: one solve, its answer taken as it is. *)
Lemma solve_custom_run (f : sparse -> list npfloat -> list npfloat)
  (A : sparse) (b : list npfloat) (self : DiscreteInterpolator) :
  exists self',
    solve_custom f A b self = (Returned true, self')
    /\ c self' = f A b /\ up_to_date self' = true
    /\ solves (trace self') = solves (trace self) + 1
    /\ same_registries self self'.
Proof.
  eexists. unfold solve_custom. run_method. split; [reflexivity|].
  project_state. repeat split; lia.
Qed.

(** Conjugate gradient: if the normal equations can be formed, one
    solve whose last iterate is kept whatever the termination code. *)
Lemma solve_cg_run (A : sparse) (b : list npfloat) (kw : kwargs)
  (self : DiscreteInterpolator) :
  (exists self' ATA ATB,
      solve_cg sla_cg A b kw self = (Returned true, self')
      /\ sp_dot (sp_transpose A) A = Returned ATA
      /\ sp_dot_vec (sp_transpose A) b = Returned ATB
      /\ c self' = fst (sla_cg ATA ATB kw) /\ up_to_date self' = true
      /\ solves (trace self') = solves (trace self) + 1
      /\ same_registries self self')
  \/ (exists e self',
      solve_cg sla_cg A b kw self = (Raised e, self')
      /\ same_attributes self self').
Proof.
  unfold solve_cg. run_method.
  destruct (sp_dot (sp_transpose A) A) as [ATA|e|] eqn:HATA.
  - destruct (sp_dot_vec (sp_transpose A) b) as [ATB|e|] eqn:HATB.
    + left. destruct (snd (sla_cg ATA ATB kw) >? 0)%Z;
        (eexists; exists ATA, ATB; split; [reflexivity|]);
        project_state; repeat split; lia.
    + right. do 2 eexists. split; [reflexivity|].
      now apply same_attributes_emit_log.
    + unfold sp_dot_vec in HATB. destruct (Nat.eqb _ _); discriminate.
  - right. do 2 eexists. split; [reflexivity|].
    now apply same_attributes_emit_log.
  - unfold sp_dot in HATA. destruct (Nat.eqb _ _); discriminate.
Qed.

(** [lsmr]: one solve; the answer is stored for the codes 1, 2, 4, 5
    and 7 and dropped for every other code. *)
Lemma solve_lsmr_run (A : sparse) (b : list npfloat) (kw : kwargs)
  (self : DiscreteInterpolator) :
  exists self',
    solve_lsmr sla_lsmr A b kw self = (Returned true, self')
    /\ c self' = (if lsmr_keeps (snd (sla_lsmr A b kw))
                  then fst (sla_lsmr A b kw) else c self)
    /\ up_to_date self' = true
    /\ solves (trace self') = solves (trace self) + 1
    /\ same_registries self self'.
Proof.
  unfold solve_lsmr, lsmr_keeps. run_method.
  destruct (snd (sla_lsmr A b kw) =? 1)%Z eqn:H1;
  destruct (snd (sla_lsmr A b kw) =? 4)%Z eqn:H4;
  destruct (snd (sla_lsmr A b kw) =? 2)%Z eqn:H2;
  destruct (snd (sla_lsmr A b kw) =? 5)%Z eqn:H5;
  destruct (snd (sla_lsmr A b kw) =? 0)%Z eqn:H0;
  destruct (snd (sla_lsmr A b kw) =? 3)%Z eqn:H3;
  destruct (snd (sla_lsmr A b kw) =? 6)%Z eqn:H6;
  destruct (snd (sla_lsmr A b kw) =? 7)%Z eqn:H7;
  try lia;
  (eexists; split; [reflexivity|]);
  project_state; cbn [orb]; repeat split; lia.
Qed.

Lemma known_solver_run (solver : solver_arg) (self : DiscreteInterpolator) :
  exists solver' self',
    known_solver solver self = (Returned solver', self')
    /\ same_attributes self self'
    /\ match solver with
       | SolverStr s =>
           solver' = SolverStr (if String.eqb s "lsmr" then "lsmr" else "cg")
       | _ => solver' = solver
       end.
Proof.
  destruct solver as [|s|f|]; cbn [known_solver];
    try (do 2 eexists; split; [reflexivity|]; split;
         [apply same_attributes_refl|reflexivity]).
  destruct (String.eqb s "cg") eqn:Hcg; cbn [orb negb].
  - do 2 eexists. split; [reflexivity|]. split; [apply same_attributes_refl|].
    apply String.eqb_eq in Hcg. subst s. reflexivity.
  - destruct (String.eqb s "lsmr") eqn:Hlsmr; cbn [negb].
    + do 2 eexists. split; [reflexivity|]. split; [apply same_attributes_refl|].
      apply String.eqb_eq in Hlsmr. now subst s.
    + run_method. do 2 eexists. split; [reflexivity|].
      split; [now apply same_attributes_emit_log|reflexivity].
Qed.

(** What the dispatch does, by kind of [solver] argument. *)
Lemma dispatch_solver_run (solver : solver_arg) (kw : kwargs) (A : sparse)
  (b : list npfloat) (self : DiscreteInterpolator) :
  (exists self',
      dispatch_solver sla_cg sla_lsmr solver kw A b self = (Returned true, self')
      /\ runs_backend solver = true
      /\ up_to_date self' = true
      /\ solves (trace self') = solves (trace self) + 1
      /\ same_registries self self')
  \/ (dispatch_solver sla_cg sla_lsmr solver kw A b self = (Returned false, self)
      /\ runs_backend solver = false)
  \/ (exists e self',
      dispatch_solver sla_cg sla_lsmr solver kw A b self = (Raised e, self')
      /\ same_attributes self self').
Proof.
  destruct solver as [|s|f|].
  - right; left. split; reflexivity.
  - unfold dispatch_solver, bind.
    destruct (known_solver_run (SolverStr s) self)
      as (solver' & self1 & -> & Hsame & ->).
    destruct (String.eqb s "lsmr"); cbn [solver_is String.eqb Ascii.eqb Bool.eqb].
    + destruct (solve_lsmr_run A b kw self1) as (self' & -> & _ & Hutd & Hs & Hreg).
      left. exists self'. split; [reflexivity|]. split; [reflexivity|].
      split; [assumption|]. split.
      * destruct Hsame as (_ & _ & _ & _ & _ & _ & _ & _ & _ & Hsolves). lia.
      * eapply same_registries_trans;
          [apply same_attributes_registries; eassumption|assumption].
    + destruct (solve_cg_run A b kw self1)
        as [(self' & ATA & ATB & -> & _ & _ & _ & Hutd & Hs & Hreg)
           |(e & self' & -> & Hsame')].
      * left. exists self'. split; [reflexivity|]. split; [reflexivity|].
        split; [assumption|]. split.
        -- destruct Hsame as (_ & _ & _ & _ & _ & _ & _ & _ & _ & Hsolves). lia.
        -- eapply same_registries_trans;
             [apply same_attributes_registries; eassumption|assumption].
      * right; right. exists e, self'. split; [reflexivity|].
        unfold same_attributes in *. intuition congruence.
  - destruct (solve_custom_run f A b self) as (self' & H & _ & Hutd & Hs & Hreg).
    left. exists self'. cbn [dispatch_solver]. repeat split; try tauto.
    all: apply Hreg.
  - right; left. split; reflexivity.
Qed.

Lemma assembled_reset_c (self : DiscreteInterpolator) :
  assembled (reset_c self) = assembled self.
Proof. reflexivity. Qed.

Lemma assembled_never_diverges (self : DiscreteInterpolator) :
  assembled self <> Diverged.
Proof.
  unfold assembled.
  assert (Hw : forall blocks, weighted_blocks blocks <> Diverged).
  { induction blocks as [|blk blocks IH]; cbn [weighted_blocks]; [discriminate|].
    destruct (Nat.eqb _ 0); [exact IH|].
    unfold sp_scale_rows, np_mul_vec.
    destruct (Nat.eqb _ _); cbn [obind]; [|discriminate].
    destruct (Nat.eqb _ _); cbn [obind]; [|discriminate].
    destruct (weighted_blocks blocks); cbn [obind]; congruence. }
  assert (Hv : forall mats acc, vstack_from acc mats <> Diverged).
  { induction mats as [|m mats IH]; intros acc; cbn [vstack_from]; [discriminate|].
    destruct (Nat.eqb _ _); [apply IH|discriminate]. }
  destruct (weighted_blocks _) as [[mats bs]|e|] eqn:H; cbn [obind fst snd];
    [|discriminate|now apply Hw in H].
  destruct (sp_vstack mats) as [A|e|] eqn:HA; cbn [obind];
    [|discriminate|].
  - destruct bs; cbn [np_hstack obind]; discriminate.
  - destruct mats; [discriminate|now apply Hv in HA].
Qed.

(** The three ways a call of [solve_system] can end. *)
Lemma solve_system_run (solver : solver_arg) (kw : kwargs)
  (self : DiscreteInterpolator) :
  exists o self',
    solve_system sla_cg sla_lsmr solver kw self = (o, self')
    /\ same_registries self self'
    /\ ((o = Returned true
         /\ runs_backend solver = true
         /\ up_to_date self' = true
         /\ solves (trace self') = solves (trace self) + 1)
        \/ (o = Returned false
            /\ runs_backend solver = false
            /\ (exists Ab, assembled self = Returned Ab)
            /\ c self' = repeat FNaN (n_nodes (support self))
            /\ up_to_date self' = up_to_date self
            /\ solves (trace self') = solves (trace self))
        \/ (exists e, o = Raised e
            /\ (runs_backend solver = false -> assembled self = Raised e)
            /\ c self' = repeat FNaN (n_nodes (support self))
            /\ up_to_date self' = up_to_date self
            /\ solves (trace self') = solves (trace self))).
Proof.
  rewrite solve_system_unfold. unfold bind.
  assert (Ho := build_matrix_outcome (reset_c self)).
  assert (Hs := build_matrix_state (reset_c self)).
  rewrite assembled_reset_c in Ho.
  destruct (build_matrix (reset_c self)) as [[[A b]|e|] self1];
    cbn [fst snd] in *.
  - destruct (dispatch_solver_run solver kw A b self1)
      as [(self' & -> & Hrun & Hutd & Hsol & Hreg)
         |[(-> & Hrun)|(e & self' & Hd & Hsame)]].
    + do 2 eexists. split; [reflexivity|]. split.
      * apply same_registries_trans with (s2 := self1); [|assumption].
        apply same_attributes_registries in Hs. exact Hs.
      * left. repeat split; try assumption.
        destruct Hs as (_ & _ & _ & _ & _ & _ & _ & _ & _ & Hsolves).
        cbn [reset_c set_c trace] in Hsolves. lia.
    + do 2 eexists. split; [reflexivity|]. split.
      * apply same_attributes_registries in Hs. exact Hs.
      * right; left. split; [reflexivity|]. split; [assumption|].
        split; [now exists (A, b)|].
        destruct Hs as (_ & _ & Hc & Hutd & _ & _ & _ & _ & _ & Hsolves).
        repeat split; assumption.
    + assert (Hrun : runs_backend solver = true)
        by (destruct solver; try reflexivity; cbn in Hd; discriminate).
      rewrite Hd. do 2 eexists. split; [reflexivity|]. split.
      * apply same_registries_trans with (s2 := self1);
          [|apply same_attributes_registries; assumption].
        apply same_attributes_registries in Hs. exact Hs.
      * right; right. exists e. split; [reflexivity|].
        destruct Hs as (_ & _ & Hc & Hutd & _ & _ & _ & _ & _ & Hsolves).
        destruct Hsame as (_ & _ & Hc' & Hutd' & _ & _ & _ & _ & _ & Hsolves').
        cbn [reset_c set_c c up_to_date trace] in *.
        split; [congruence|repeat split; congruence].
  - do 2 eexists. split; [reflexivity|]. split.
    + apply same_attributes_registries in Hs. exact Hs.
    + right; right. exists e. split; [reflexivity|].
      destruct Hs as (_ & _ & Hc & Hutd & _ & _ & _ & _ & _ & Hsolves).
      repeat split; auto.
  - symmetry in Ho. now apply assembled_never_diverges in Ho.
Qed.

Lemma ill_conditioned_not_kept (code : Z) :
  ill_conditioned code = true -> lsmr_keeps code = false.
Proof. unfold ill_conditioned, lsmr_keeps. lia. Qed.

(** Under ["lsmr"], once the matrix is assembled, the call returns
    true and [c] is the backend's answer or the NaN vector. *)
Lemma solve_system_lsmr (kw : kwargs) (self : DiscreteInterpolator)
  (A : sparse) (b : list npfloat) :
  assembled self = Returned (A, b) ->
  exists self',
    solve_system sla_cg sla_lsmr (SolverStr "lsmr") kw self = (Returned true, self')
    /\ c self' = (if lsmr_keeps (snd (sla_lsmr A b kw))
                  then fst (sla_lsmr A b kw)
                  else repeat FNaN (n_nodes (support self)))
    /\ up_to_date self' = true.
Proof.
  intros Hasm. rewrite solve_system_unfold. unfold bind.
  assert (Ho := build_matrix_outcome (reset_c self)).
  assert (Hs := build_matrix_state (reset_c self)).
  rewrite assembled_reset_c, Hasm in Ho.
  destruct (build_matrix (reset_c self)) as [o self1]. cbn [fst snd] in *.
  subst o. cbn [fst snd dispatch_solver known_solver String.eqb Ascii.eqb
                Bool.eqb orb negb].
  unfold bind, ret. cbn [solver_is String.eqb Ascii.eqb Bool.eqb].
  destruct (solve_lsmr_run A b kw self1) as (self' & -> & Hc & Hutd & _).
  exists self'. split; [reflexivity|]. split; [|assumption].
  rewrite Hc. destruct (lsmr_keeps _); [reflexivity|].
  destruct Hs as (_ & _ & Hc1 & _). exact Hc1.
Qed.

End SolverProperties.

(** When [solve_system] returns, it returns true exactly when one more
    backend solve is on record, which is the case exactly for a callable
    or a string [solver]; the flag is then up. *)
Lemma solve_system_return_value
  (kwargs : Type) (sla_cg sla_lsmr : sparse -> list npfloat -> kwargs -> list npfloat * Z)
  (solver : solver_arg) (kw : kwargs) (self self' : DiscreteInterpolator) (r : bool) :
  solve_system sla_cg sla_lsmr solver kw self = (Returned r, self') ->
  (r = true <-> solves (trace self') = solves (trace self) + 1)
  /\ (r = true <-> runs_backend solver = true)
  /\ (r = true -> up_to_date self' = true)
  /\ (forall A b,
        solver = SolverStr "lsmr" -> assembled self = Returned (A, b) ->
        ill_conditioned (snd (sla_lsmr A b kw)) = true ->
        r = true
        /\ c self' = repeat FNaN (n_nodes (support self))
        /\ up_to_date self' = true).
Proof.
  intros Hrun.
  destruct (solve_system_run sla_cg sla_lsmr solver kw self)
    as (o & self1 & Heq & _ & Hcases).
  rewrite Hrun in Heq. injection Heq as <- <-.
  split; [|split; [|split]].
  - destruct Hcases as [(Hr & _ & _ & Hs)|[(Hr & _ & _ & _ & _ & Hs)|(e & Hr & _)]];
      try discriminate; injection Hr as ->; split; intros; try lia; auto;
      discriminate.
  - destruct Hcases as [(Hr & Hb & _)|[(Hr & Hb & _)|(e & Hr & _)]];
      try discriminate; injection Hr as ->; split; intros; congruence.
  - destruct Hcases as [(Hr & _ & Hu & _)|[(Hr & _)|(e & Hr & _)]];
      try discriminate; injection Hr as ->; intros; congruence.
  - intros A b -> Hasm Hill.
    destruct (solve_system_lsmr sla_cg sla_lsmr kw self Hasm)
      as (self2 & Heq & Hc & Hutd).
    rewrite Hrun in Heq. injection Heq as -> ->.
    rewrite (ill_conditioned_not_kept _ Hill) in Hc. auto.
Qed.

(** C10 does not hold as stated: on a freshly made interpolator (no
    registered block) the call with the default [solver] does not return
    [False]: the assembly raises. *)
Lemma solve_system_default_raises_without_blocks :
  let run := solve_system (zero_backend 0) (zero_backend 1) SolverNone tt
               (init (line_support [0; 1]%R) false) in
  fst run = Raised (ValueError "blocks must be 2-D")
  /\ fst run <> Returned false.
Proof. split; [reflexivity|discriminate]. Qed.

Lemma weighted_blocks_all_empty (blocks : list soft_block) :
  forallb (fun blk => Nat.eqb (length (blk_w blk)) 0) blocks = true ->
  weighted_blocks blocks = Returned ([], []).
Proof.
  induction blocks as [|blk blocks IH]; [reflexivity|].
  cbn [forallb weighted_blocks]. intros [-> H]%andb_true_iff. auto.
Qed.

(** C10, amended: with the default [solver] the call first overwrites
    [c] with NaN (length [n_nodes]) and then assembles the matrix; it
    returns [False] when the assembly succeeds and lets the exception of
    the assembly through otherwise, as it does when no registered block
    has a non-empty weight array; either way no backend runs and
    [up_to_date] and the registries are left as they were. *)
Theorem solve_system_default_solver
  (kwargs : Type) (sla_cg sla_lsmr : sparse -> list npfloat -> kwargs -> list npfloat * Z)
  (kw : kwargs) (self : DiscreteInterpolator) :
  let run := solve_system sla_cg sla_lsmr SolverNone kw self in
  fst run = match assembled self with
            | Returned _ => Returned false
            | Raised e => Raised e
            | Diverged => Diverged
            end
  /\ (forallb (fun blk => Nat.eqb (length (blk_w blk)) 0)
              (dict_values (constraints self)) = true ->
      fst run = Raised (ValueError "blocks must be 2-D"))
  /\ c (snd run) = repeat FNaN (n_nodes (support self))
  /\ up_to_date (snd run) = up_to_date self
  /\ solves (trace (snd run)) = solves (trace self)
  /\ same_registries self (snd run).
Proof.
  intros run. subst run.
  destruct (solve_system_run sla_cg sla_lsmr SolverNone kw self)
    as (o & self' & -> & Hreg & Hcases). cbn [fst snd].
  assert (Hfst : o = match assembled self with
                     | Returned _ => Returned false
                     | Raised e => Raised e
                     | Diverged => Diverged
                     end).
  { destruct Hcases as [(_ & Hb & _)|[(-> & _ & (Ab & ->) & _)|(e & -> & Hasm & _)]];
      [discriminate|reflexivity|].
    now rewrite Hasm. }
  split; [exact Hfst|]. split.
  - intros Hempty. rewrite Hfst. unfold assembled.
    now rewrite (weighted_blocks_all_empty _ Hempty).
  - destruct Hcases as [(_ & Hb & _)|[(_ & _ & _ & Hc & Hu & Hs)|(e & _ & _ & Hc & Hu & Hs)]];
      [discriminate| |]; auto.
Qed.

(** ** Lazy update *)

Section UpdateProperties.

Variable kwargs : Type.
Variable no_kwargs : kwargs.
Variable sla_cg : sparse -> list npfloat -> kwargs -> list npfloat * Z.
Variable sla_lsmr : sparse -> list npfloat -> kwargs -> list npfloat * Z.
Variable setup_hook : DiscreteInterpolator -> DiscreteInterpolator.

Let update_ := update no_kwargs sla_cg sla_lsmr setup_hook.
Let after_call_ := after_call no_kwargs sla_cg sla_lsmr setup_hook.
Let after_calls_ := after_calls no_kwargs sla_cg sla_lsmr setup_hook.

(** One call of [update]: nothing happens to [c], to the flag and to
    the count of solves when the flag is up, and the budget of solves
    never grows. *)
Lemma update_budget (self : DiscreteInterpolator) :
  let self' := snd (update_ self) in
  solve_budget self' <= solve_budget self
  /\ solves (trace self) <= solves (trace self')
  /\ (up_to_date self = true ->
      c self' = c self /\ up_to_date self' = true
      /\ solves (trace self') = solves (trace self)).
Proof.
  intros self'.
  assert (Hdirty :
    up_to_date self = false ->
    forall o st,
      bind (setup_interpolator setup_hook)
           (fun _ => bind get (fun self1 =>
              bind (solve_system sla_cg sla_lsmr (solver self1) no_kwargs)
                   (fun r => ret (Some r)))) self = (o, st) ->
      solves (trace st) + (if up_to_date st then 0 else 1)
      <= solves (trace self) + 1
      /\ solves (trace self) <= solves (trace st)).
  { intros Hutd o st. unfold setup_interpolator. run_method.
    match goal with
    | |- context [solve_system _ _ ?s ?k ?st] =>
        destruct (solve_system_run sla_cg sla_lsmr s k st)
          as (o' & st' & -> & _ & Hcases)
    end.
    revert Hcases. project_state. rewrite Hutd. intros Hcases.
    destruct Hcases as [(-> & _ & Hu & Hs)|[(-> & _ & _ & _ & Hu & Hs)
                                          |(e & -> & _ & _ & Hu & Hs)]];
      intros [= <- <-]; rewrite Hu; lia. }
  assert (Hrun : forall o st, update_ self = (o, st) ->
    solve_budget st <= solve_budget self
    /\ solves (trace self) <= solves (trace st)
    /\ (up_to_date self = true ->
        c st = c self /\ up_to_date st = true
        /\ solves (trace st) = solves (trace self))).
  { intros o st. unfold update_, update, solve_budget, bind at 1, get.
    cbv beta iota.
    destruct (solver self) eqn:Hsolver;
      [ run_method; intros [= <- <-]; project_state;
        destruct (up_to_date self); repeat split; lia | | | ];
      (destruct (up_to_date self) eqn:Hutd; cbn [negb];
       [ cbn [ret]; intros [= <- <-]; rewrite Hutd; repeat split; lia
       | intros H; destruct (Hdirty eq_refl _ _ H); repeat split;
         try lia; discriminate ]). }
  subst self'. destruct (update_ self) as [o st] eqn:H. cbn [snd].
  exact (Hrun o st eq_refl).
Qed.

(** The evaluation methods leave the object as their call of [update]
    left it. *)
Lemma after_call_is_update (self : DiscreteInterpolator) (k : lazy_call) :
  after_call_ self k = snd (update_ self).
Proof.
  unfold after_call_, after_call, update_.
  destruct k as [|l|l]; [reflexivity| |].
  - unfold evaluate_value, bind.
    destruct (update _ _ _ _ self) as [[r| |] self']; try reflexivity.
    cbn [snd]. destruct (Nat.ltb _ _); [|reflexivity].
    unfold get. destruct (Nat.eqb _ _); reflexivity.
  - unfold evaluate_gradient, bind.
    destruct (update _ _ _ _ self) as [[r| |] self']; try reflexivity.
    cbn [snd]. destruct (Nat.ltb _ _); reflexivity.
Qed.

Lemma after_calls_budget (ks : list lazy_call) (self : DiscreteInterpolator) :
  let self' := after_calls_ self ks in
  solve_budget self' <= solve_budget self
  /\ solves (trace self) <= solves (trace self')
  /\ (up_to_date self = true ->
      c self' = c self /\ up_to_date self' = true
      /\ solves (trace self') = solves (trace self)).
Proof.
  unfold after_calls_, after_calls. revert self.
  induction ks as [|k ks IH]; intros self; cbn [fold_left].
  - repeat split; auto.
  - change (after_call no_kwargs sla_cg sla_lsmr setup_hook self k)
      with (after_call_ self k).
    rewrite after_call_is_update.
    pose proof (update_budget self) as (Hb & Hm & Hu).
    pose proof (IH (snd (update_ self))) as (Hb' & Hm' & Hu').
    set (self1 := snd (update_ self)) in *.
    set (self2 := fold_left _ ks self1) in *.
    split; [lia|]. split; [lia|].
    intros Hutd. destruct (Hu Hutd) as (Hc & Hutd' & Hs).
    destruct (Hu' Hutd') as (Hc'' & Hutd'' & Hs'').
    repeat split; congruence.
Qed.

End UpdateProperties.

(** C9: over any sequence of calls of [update], [evaluate_value] and
    [evaluate_gradient], at most one backend solve is added to the
    record; and from an object whose flag [up_to_date] is true the
    sequence adds no solve at all and leaves [c] and the flag as they
    are, a single [update] returning at once with the object untouched
    (given a solver is configured). *)
Theorem update_solves_at_most_once
  (kwargs : Type) (no_kwargs : kwargs)
  (sla_cg sla_lsmr : sparse -> list npfloat -> kwargs -> list npfloat * Z)
  (setup_hook : DiscreteInterpolator -> DiscreteInterpolator)
  (self : DiscreteInterpolator) (calls : list lazy_call) :
  let self' := after_calls no_kwargs sla_cg sla_lsmr setup_hook self calls in
  solves (trace self') <= solves (trace self) + 1
  /\ (up_to_date self = true ->
      solves (trace self') = solves (trace self)
      /\ c self' = c self
      /\ up_to_date self' = true
      /\ c (snd (update no_kwargs sla_cg sla_lsmr setup_hook self)) = c self
      /\ (solver self <> SolverNone ->
          update no_kwargs sla_cg sla_lsmr setup_hook self = (Returned None, self))).
Proof.
  intros self'.
  destruct (after_calls_budget no_kwargs sla_cg sla_lsmr setup_hook calls self)
    as (Hbudget & _ & Hclean).
  fold self' in Hbudget, Hclean. split.
  - unfold solve_budget in Hbudget.
    destruct (up_to_date self'), (up_to_date self); lia.
  - intros Hutd. destruct (Hclean Hutd) as (Hc & Hutd' & Hs).
    repeat split; try assumption.
    + now destruct (update_budget no_kwargs sla_cg sla_lsmr setup_hook self)
        as (_ & _ & H); destruct (H Hutd).
    + intros Hsolver. now apply update_up_to_date.
Qed.

(** On an up-to-date interpolator two updates and an evaluation record
    no solve and leave [c] alone. *)
Lemma update_solves_at_most_once_witness :
  let self := init (line_support [0; 1]%R) true in
  let self' := after_calls tt (zero_backend 0) (zero_backend 1) (fun s => s) self
                 [CallUpdate; CallUpdate; CallEvaluateValue [[f1; f0; f0]]] in
  solves (trace self') = solves (trace self) /\ c self' = c self.
Proof.
  intros self self'.
  destruct (update_solves_at_most_once tt (zero_backend 0) (zero_backend 1)
              (fun s => s) self
              [CallUpdate; CallUpdate; CallEvaluateValue [[f1; f0; f0]]])
    as (_ & H).
  destruct (H eq_refl) as (Hs & Hc & _). split; assumption.
Defined.

(** ** Equality constraints *)

Lemma py_getitem_ok {X : Type} (a : list X) (i : Z) (d : X) :
  py_index_ok (length a) i ->
  py_getitem a i = Some (nth (py_position (length a) i) a d).
Proof.
  unfold py_index_ok, py_getitem, py_position. intros Hi.
  destruct (0 <=? i)%Z eqn:H0; destruct (i <? Z.of_nat (length a))%Z eqn:H1;
    cbn [andb]; try lia.
  - assert (Hneg : (i <? 0)%Z = false) by lia. rewrite Hneg.
    apply nth_error_nth'. lia.
  - assert (Hneg : (i <? 0)%Z = true) by lia. rewrite Hneg.
    assert (Hlo : (- Z.of_nat (length a) <=? i)%Z = true) by lia. rewrite Hlo.
    cbn [andb]. apply nth_error_nth'. lia.
Qed.

Lemma py_getitem_out {X : Type} (a : list X) (i : Z) :
  ~ py_index_ok (length a) i -> py_getitem a i = None.
Proof.
  unfold py_index_ok, py_getitem. intros Hi.
  destruct (0 <=? i)%Z eqn:H0; destruct (i <? Z.of_nat (length a))%Z eqn:H1;
    cbn [andb]; try lia;
    destruct (- Z.of_nat (length a) <=? i)%Z eqn:H2;
    destruct (i <? 0)%Z eqn:H3; cbn [andb]; try reflexivity; lia.
Qed.

Lemma np_take_ok {X : Type} (a : list X) (idx : list Z) (d : X) :
  Forall (py_index_ok (length a)) idx ->
  np_take a idx = Returned (map (fun i => nth (py_position (length a) i) a d) idx).
Proof.
  induction 1 as [|i idx Hi _ IH]; [reflexivity|].
  cbn [np_take map]. now rewrite (py_getitem_ok _ d Hi), IH.
Qed.

Lemma np_take_out {X : Type} (a : list X) (idx : list Z) :
  ~ Forall (py_index_ok (length a)) idx ->
  exists e, np_take a idx = Raised e.
Proof.
  induction idx as [|i idx IH]; intros H; [now destruct H|].
  cbn [np_take].
  destruct (py_getitem a i) as [x|] eqn:Hget; [|eauto].
  destruct IH as [e ->]; [|eauto].
  intros Hidx. apply H. constructor; [|assumption].
  destruct (Z_le_dec (- Z.of_nat (length a)) i), (Z_lt_dec i (Z.of_nat (length a)));
    try (split; assumption);
    rewrite py_getitem_out in Hget by (unfold py_index_ok; lia); discriminate.
Qed.

Lemma dict_get_set_same {V : Type} (key : string) (v : V) (d : dict V) :
  dict_get key (dict_set key v d) = Some v.
Proof.
  induction d as [|[k v'] d IH]; cbn [dict_set dict_get].
  - now rewrite String.eqb_refl.
  - destruct (String.eqb k key) eqn:H; cbn [dict_get]; now rewrite H.
Qed.

Lemma dict_get_set_other {V : Type} (key key' : string) (v : V) (d : dict V) :
  key' <> key -> dict_get key' (dict_set key v d) = dict_get key' d.
Proof.
  intros Hne. induction d as [|[k v'] d IH]; cbn [dict_set dict_get].
  - destruct (String.eqb key key') eqn:H; [|reflexivity].
    apply String.eqb_eq in H. congruence.
  - destruct (String.eqb k key) eqn:H; cbn [dict_get].
    + apply String.eqb_eq in H. subst k.
      destruct (String.eqb key key') eqn:H'; [|reflexivity].
      apply String.eqb_eq in H'. congruence.
    + now rewrite IH.
Qed.

Lemma dict_values_set {V : Type} (P : V -> Prop) (key : string) (v : V) (d : dict V) :
  P v -> Forall P (dict_values d) -> Forall P (dict_values (dict_set key v d)).
Proof.
  intros Hv. unfold dict_values.
  induction d as [|[k v'] d IH]; cbn [dict_set map]; intros H.
  - now constructor.
  - inversion H as [|? ? Hv' Hd]; subst.
    destruct (String.eqb k key); cbn [map]; constructor; auto.
Qed.

Lemma mask_select_Forall {X : Type} (P : X -> Prop) (mask : list bool) (a : list X) :
  Forall P a -> Forall P (mask_select mask a).
Proof.
  intros H. revert mask. induction H as [|x a Hx _ IH]; intros [|m mask];
    cbn [mask_select]; try constructor.
  destruct m; [constructor|]; auto.
Qed.

(** An entry of [gi] is the sentinel exactly on an inactive node. *)
Lemma gi_sentinel_iff (self : DiscreteInterpolator) (i : nat) :
  i < n_nodes (support self) ->
  nth i (gi self) 0%Z = (-1)%Z <-> nth i (region self) false = false.
Proof.
  intros Hi. rewrite gi_nth by assumption.
  destruct (nth i (region self) false); split; intros; try reflexivity;
    try discriminate; lia.
Qed.

(** Every entry of [gi] is the sentinel or a column of the active
    system. *)
Lemma gi_entries (self : DiscreteInterpolator) :
  Forall (fun v => v = (-1)%Z \/ index_in (nx self) v = true) (gi self).
Proof.
  apply Forall_nth. intros i d Hi. rewrite gi_length in Hi.
  rewrite nth_indep with (d' := 0%Z) by now rewrite gi_length.
  rewrite gi_nth by assumption.
  destruct (nth i (region self) false) eqn:Hact; [right|now left].
  apply rank_lt in Hact. rewrite <- nx_count in Hact.
  apply index_in_iff. lia.
Qed.

Lemma mask_select_length_eq {X Y : Type} (mask : list bool) (a : list X) (b : list Y) :
  length a = length b ->
  length (mask_select mask a) = length (mask_select mask b).
Proof.
  revert a b. induction mask as [|m mask IH]; intros [|x a] [|y b] H;
    try discriminate; try reflexivity.
  cbn [mask_select]. injection H as H. destruct m; cbn [length]; auto.
Qed.

Lemma not_sentinel_selects (idc : list Z) :
  Forall (fun j => j <> (-1)%Z) (mask_select (not_sentinel idc) idc).
Proof.
  unfold not_sentinel. induction idc as [|j idc IH]; cbn [map mask_select];
    [constructor|].
  destruct (j =? -1)%Z eqn:H; cbn [negb]; [assumption|].
  constructor; [lia|assumption].
Qed.

Lemma eq_block_fits_mono (rows rows' cols : nat) (blk : eq_block) :
  rows <= rows' -> eq_block_fits rows cols blk -> eq_block_fits rows' cols blk.
Proof.
  intros Hle (Hr & Hc & Hrows & Hcols). repeat split; try assumption.
  eapply Forall_impl; [|exact Hrows]. intros r. now apply index_in_mono.
Qed.

Lemma np_arange_index_in (lo n : nat) :
  Forall (fun r => index_in (lo + n) r = true) (np_arange (Z.of_nat lo) n).
Proof.
  apply Forall_nth. intros i d Hi. rewrite np_arange_length in Hi.
  rewrite np_arange_nth by assumption. apply index_in_iff. lia.
Qed.

Lemma mapped_columns_entries (self : DiscreteInterpolator) (node_idx : list Z) :
  Forall (py_index_ok (n_nodes (support self))) node_idx ->
  Forall (fun v => v = (-1)%Z \/ index_in (nx self) v = true)
         (mapped_columns self node_idx).
Proof.
  intros H. unfold mapped_columns. apply Forall_map.
  eapply Forall_impl; [|exact H]. intros i Hi. cbv beta.
  assert (Hall := gi_entries self). rewrite Forall_forall in Hall.
  apply Hall. apply nth_In. rewrite gi_length.
  unfold py_index_ok, py_position in *.
  destruct (i <? 0)%Z eqn:Hneg; cbv beta iota; lia.
Qed.

(** The call on indices that the node array accepts. *)
Lemma add_equality_constraints_run (self : DiscreteInterpolator)
  (node_idx : list Z) (values : list npfloat) (name : string) :
  Forall (py_index_ok (n_nodes (support self))) node_idx ->
  length values = length node_idx ->
  let idc := mapped_columns self node_idx in
  let keep := not_sentinel idc in
  let n := count_true keep in
  add_equality_constraints node_idx values name self
  = (Returned tt,
     set_equal_constraints
       (dict_set name
          (mkEq (repeat f1 n) (mask_select keep values) (mask_select keep idc)
                (np_arange (Z.of_nat (eq_const_c self)) n))
          (equal_constraints self))
       (eq_const_c self + n) self).
Proof.
  intros Hidx Hlen idc keep n.
  unfold add_equality_constraints. run_method.
  rewrite <- gi_length in Hidx.
  rewrite (np_take_ok _ 0%Z Hidx). rewrite gi_length.
  fold (mapped_columns self node_idx). fold idc. fold (not_sentinel idc). fold keep.
  assert (Hk : length keep = length node_idx)
    by (unfold keep, not_sentinel, idc, mapped_columns; now rewrite !length_map).
  rewrite Hk, Hlen, Nat.eqb_refl. cbn [negb].
  assert (Hn : length (mask_select keep idc) = n).
  { apply mask_select_length. unfold keep, not_sentinel. now rewrite length_map. }
  now rewrite Hn.
Qed.

(** The lists that [add_equality_block] collects from blocks that fit. *)
Lemma equality_lists_fit (rows cols : nat) (blocks : list eq_block) :
  Forall (eq_block_fits rows cols) blocks ->
  exists a rs cs b,
    equality_lists blocks = Returned (a, rs, cs, b)
    /\ length rs = length a /\ length cs = length a
    /\ Forall (fun r => index_in rows r = true) rs
    /\ Forall (fun j => index_in cols j = true) cs.
Proof.
  induction 1 as [|blk blocks (Hr & Hc & Hrows & Hcols) _ IH].
  - exists [], [], [], []. repeat split; constructor.
  - destruct IH as (a & rs & cs & b & Heq & Hlr & Hlc & Hfr & Hfc).
    cbn [equality_lists]. rewrite Hr, Hc, !Nat.eqb_refl, Heq. cbn [andb obind].
    do 4 eexists. split; [reflexivity|].
    rewrite !length_app. repeat split.
    + f_equal; [|assumption]. now apply mask_select_length_eq.
    + f_equal; [|assumption]. now apply mask_select_length_eq.
    + apply Forall_app. split; [now apply mask_select_Forall|assumption].
    + apply Forall_app. split; [now apply mask_select_Forall|assumption].
Qed.

Lemma coo_matrix_shape (entries : list (Z * Z * npfloat)) (m n : nat) (A : sparse) :
  coo_matrix entries m n = Returned A ->
  sp_rows A = m /\ sp_cols A = n /\ sp_entries A = entries.
Proof.
  unfold coo_matrix. destruct (forallb _ _); [|discriminate].
  destruct (forallb _ _); [|discriminate]. intros [= <-]. auto.
Qed.

Lemma coo_matrix_ok (entries : list (Z * Z * npfloat)) (m n : nat) :
  Forall (fun e => index_in m (fst (fst e)) = true) entries ->
  Forall (fun e => index_in n (snd (fst e)) = true) entries ->
  coo_matrix entries m n = Returned (mkSparse m n entries).
Proof.
  intros Hr Hc. unfold coo_matrix.
  assert (H1 : forallb (fun e => index_in m (fst (fst e))) entries = true)
    by (apply forallb_forall; now apply Forall_forall).
  assert (H2 : forallb (fun e => index_in n (snd (fst e))) entries = true)
    by (apply forallb_forall; now apply Forall_forall).
  now rewrite H1, H2.
Qed.

Lemma zip_triples_Forall (P Q : Z -> Prop) (rs cs : list Z) (a : list npfloat) :
  Forall P rs -> Forall Q cs ->
  Forall (fun e => P (fst (fst e)) /\ Q (snd (fst e)))
         (zip_with (fun rc v => (fst rc, snd rc, v)) (combine rs cs) a).
Proof.
  intros Hr. revert cs a.
  induction Hr as [|r rs Hr _ IH]; intros cs a Hc; [constructor|].
  destruct Hc as [|j cs Hj Hc]; [constructor|].
  destruct a as [|v a]; [constructor|].
  cbn [combine zip_with]. constructor; [now split|now apply IH].
Qed.

(** The matrix [C] exists for a registry of fitting blocks, with
    [eq_const_c] rows and [nx] columns. *)
Lemma equality_C_fits (self : DiscreteInterpolator) :
  Forall (eq_block_fits (eq_const_c self) (nx self))
         (dict_values (equal_constraints self)) ->
  exists C, equality_C self = Returned C
            /\ sp_rows C = eq_const_c self /\ sp_cols C = nx self.
Proof.
  intros Hfit. unfold equality_C.
  destruct (equality_lists_fit Hfit) as (a & rs & cs & b & -> & Hlr & Hlc & Hfr & Hfc).
  cbn [obind]. rewrite Hlr, Hlc, !Nat.eqb_refl. cbn [andb].
  assert (H := zip_triples_Forall a Hfr Hfc).
  rewrite coo_matrix_ok.
  - eexists. split; [reflexivity|]. split; reflexivity.
  - eapply Forall_impl; [|exact H]. now intros e [? _].
  - eapply Forall_impl; [|exact H]. now intros e [_ ?].
Qed.

Lemma py_index_ok_dec (n : nat) (i : Z) : {py_index_ok n i} + {~ py_index_ok n i}.
Proof.
  unfold py_index_ok.
  destruct (Z_le_dec (- Z.of_nat n) i), (Z_lt_dec i (Z.of_nat n));
    [left|right|right|right]; lia.
Qed.

(** A call either stores its block as [add_equality_constraints_run]
    says or raises and leaves the object alone. *)
Lemma add_equality_constraints_cases (self : DiscreteInterpolator)
  (node_idx : list Z) (values : list npfloat) (name : string) :
  (Forall (py_index_ok (n_nodes (support self))) node_idx
   /\ length values = length node_idx)
  \/ exists e, add_equality_constraints node_idx values name self = (Raised e, self).
Proof.
  destruct (Forall_dec _ (py_index_ok_dec (n_nodes (support self))) node_idx)
    as [Hok|Hout].
  - destruct (Nat.eq_dec (length values) (length node_idx)) as [Hlen|Hlen];
      [now left|right].
    unfold add_equality_constraints. run_method.
    rewrite <- gi_length in Hok. rewrite (np_take_ok _ 0%Z Hok).
    rewrite !length_map. apply Nat.eqb_neq in Hlen. rewrite Hlen. cbn [negb].
    eauto.
  - right. rewrite <- gi_length in Hout.
    destruct (np_take_out _ Hout) as [e He].
    unfold add_equality_constraints. run_method. rewrite He. eauto.
Qed.

Lemma nx_set_equal_constraints (d : dict eq_block) (n : nat)
  (self : DiscreteInterpolator) :
  nx (set_equal_constraints d n self) = nx self.
Proof. reflexivity. Qed.

(** Every call keeps the registered blocks inside the bordering block
    that the counter announces. *)
Lemma add_equality_constraints_fits (self : DiscreteInterpolator)
  (node_idx : list Z) (values : list npfloat) (name : string) :
  Forall (eq_block_fits (eq_const_c self) (nx self))
         (dict_values (equal_constraints self)) ->
  let self' := snd (add_equality_constraints node_idx values name self) in
  Forall (eq_block_fits (eq_const_c self') (nx self'))
         (dict_values (equal_constraints self'))
  /\ support self' = support self
  /\ region_function self' = region_function self.
Proof.
  intros Hfit self'. subst self'.
  destruct (add_equality_constraints_cases self node_idx values name)
    as [[Hok Hlen]|[e ->]]; [|now cbn [snd]].
  rewrite (@add_equality_constraints_run self node_idx values name Hok Hlen).
  cbn [snd].
  split; [|split; reflexivity].
  rewrite nx_set_equal_constraints.
  cbn [eq_const_c equal_constraints set_equal_constraints].
  set (idc := mapped_columns self node_idx).
  set (keep := not_sentinel idc).
  set (n := count_true keep).
  assert (Hn : length (mask_select keep idc) = n)
    by (apply mask_select_length; unfold keep, not_sentinel; now rewrite length_map).
  apply dict_values_set.
  - unfold eq_block_fits. cbn [eq_A eq_B eq_col eq_row].
    rewrite np_arange_length, repeat_length. repeat split; try assumption.
    + apply np_arange_index_in.
    + assert (Hne := not_sentinel_selects idc). fold keep in Hne.
      assert (Hent := mask_select_Forall keep (mapped_columns_entries self Hok)).
      fold idc in Hent.
      rewrite Forall_forall in *. intros j Hj.
      destruct (Hent j Hj) as [->|H]; [|assumption].
      now specialize (Hne _ Hj).
  - eapply Forall_impl; [|exact Hfit].
    intros blk. apply eq_block_fits_mono. lia.
Qed.

Lemma add_equalities_fits (calls : list (list Z * list npfloat * string))
  (self : DiscreteInterpolator) :
  Forall (eq_block_fits (eq_const_c self) (nx self))
         (dict_values (equal_constraints self)) ->
  Forall (eq_block_fits (eq_const_c (add_equalities calls self))
                        (nx (add_equalities calls self)))
         (dict_values (equal_constraints (add_equalities calls self))).
Proof.
  revert self. induction calls as [|[[node_idx values] name] calls IH];
    intros self Hfit; cbn [add_equalities]; [assumption|].
  apply IH. now apply add_equality_constraints_fits.
Qed.

(** C5: on node indices that the node array accepts, with one value per
    index, [add_equality_constraints] returns; the block stored under
    [name] holds, for exactly the entries whose region-mapped column is
    not the sentinel -1 (the entries on inactive nodes are dropped), the
    coefficient 1, the value, the column and the next free rows from
    [eq_const_c] on; the other names are left alone; [eq_const_c] grows
    by the number of surviving entries; and this counter is the row
    dimension of the matrix [C] that [add_equality_block] borders the
    system with, which exists after any sequence of such calls on a new
    interpolator. *)
Theorem add_equality_constraints_drops_inactive
  (self : DiscreteInterpolator) (node_idx : list Z) (values : list npfloat)
  (name : string) :
  Forall (py_index_ok (n_nodes (support self))) node_idx ->
  length values = length node_idx ->
  let idc := mapped_columns self node_idx in
  let keep := not_sentinel idc in
  let n := count_true keep in
  exists self',
    add_equality_constraints node_idx values name self = (Returned tt, self')
    /\ dict_get name (equal_constraints self')
       = Some (mkEq (repeat f1 n) (mask_select keep values)
                    (mask_select keep idc)
                    (np_arange (Z.of_nat (eq_const_c self)) n))
    /\ (forall k, k < length node_idx ->
          nth k keep false = false
          <-> nth (py_position (n_nodes (support self)) (nth k node_idx 0%Z))
                  (region self) false = false)
    /\ Forall (fun j => j <> (-1)%Z /\ index_in (nx self) j = true)
              (mask_select keep idc)
    /\ (forall other, other <> name ->
          dict_get other (equal_constraints self')
          = dict_get other (equal_constraints self))
    /\ eq_const_c self' = eq_const_c self + n
    /\ (forall C, equality_C self' = Returned C ->
          sp_rows C = eq_const_c self' /\ sp_cols C = nx self')
    /\ (forall s calls,
          let new := add_equalities calls (init s false) in
          exists C, equality_C new = Returned C
                    /\ sp_rows C = eq_const_c new /\ sp_cols C = nx new).
Proof.
  intros Hok Hlen idc keep n.
  eexists.
  split; [apply (@add_equality_constraints_run self node_idx values name Hok Hlen)|].
  cbn [equal_constraints eq_const_c set_equal_constraints].
  fold idc. fold keep. fold n.
  split; [apply dict_get_set_same|].
  repeat apply conj.
  - intros k Hk. unfold keep, not_sentinel, idc, mapped_columns.
    rewrite map_map, (nth_map_in _ _ 0%Z) by assumption.
    rewrite negb_false_iff, Z.eqb_eq.
    apply gi_sentinel_iff.
    rewrite Forall_forall in Hok.
    assert (Hin := Hok _ (nth_In node_idx 0%Z Hk)).
    unfold py_index_ok, py_position in *.
    destruct (nth k node_idx 0 <? 0)%Z eqn:Hneg; cbv beta iota; lia.
  - assert (Hne := not_sentinel_selects idc). fold keep in Hne.
    assert (Hent := mask_select_Forall keep (mapped_columns_entries self Hok)).
    fold idc in Hent. rewrite Forall_forall in *. intros j Hj.
    split; [now apply Hne|]. destruct (Hent j Hj) as [->|H]; [|assumption].
    now specialize (Hne _ Hj).
  - intros other Hne. now apply dict_get_set_other.
  - reflexivity.
  - intros C HC. unfold equality_C in HC.
    destruct (equality_lists _) as [[[[a rs] cs] b]| |]; try discriminate.
    cbn [obind] in HC. destruct (_ && _); [|discriminate].
    apply coo_matrix_shape in HC. tauto.
  - intros s calls. apply equality_C_fits. apply add_equalities_fits.
    constructor.
Qed.

(** Three nodes of which the middle one is inactive: of the indices 1
    and 2 only the second survives, in row 0 and column 1. *)
Lemma add_equality_constraints_drops_inactive_witness :
  let self := set_region_function positive_x (init (line_support [1; 0; 2]%R) false) in
  exists self',
    add_equality_constraints [1; 2]%Z [FReal 5; FReal 7] "fixed" self
    = (Returned tt, self')
    /\ eq_const_c self' = eq_const_c self
                          + count_true (not_sentinel (mapped_columns self [1; 2]%Z)).
Proof.
  intros self.
  assert (Hok : Forall (py_index_ok (n_nodes (support self))) [1; 2]%Z)
    by (repeat constructor; cbn; lia).
  destruct (@add_equality_constraints_drops_inactive self [1; 2]%Z
              [FReal 5; FReal 7] "fixed" Hok eq_refl)
    as (self' & Hrun & _ & _ & _ & _ & Hcount & _).
  exists self'. split; assumption.
Defined.

(** ** Norms of rows *)

Lemma fold_left_Rplus_acc (l : list R) (a : R) :
  fold_left Rplus l a = (a + fold_left Rplus l 0)%R.
Proof.
  revert a. induction l as [|x l IH]; intros a; cbn [fold_left]; [lra|].
  rewrite (IH (a + x)%R), (IH (0 + x)%R). lra.
Qed.

Lemma sum_sq_cons (x : R) (rs : list R) :
  sum_sq (x :: rs) = (x * x + sum_sq rs)%R.
Proof.
  unfold sum_sq. cbn [map fold_left]. rewrite fold_left_Rplus_acc. lra.
Qed.

Lemma sum_sq_nonneg (rs : list R) : (0 <= sum_sq rs)%R.
Proof.
  induction rs as [|x rs IH]; [unfold sum_sq; cbn; lra|].
  rewrite sum_sq_cons. nra.
Qed.

Lemma sum_sq_zero (rs : list R) :
  sum_sq rs = 0%R -> Forall (fun x => x = 0%R) rs.
Proof.
  induction rs as [|x rs IH]; [constructor|].
  rewrite sum_sq_cons. intros H. assert (Hrs := sum_sq_nonneg rs).
  constructor; [nra|]. apply IH. nra.
Qed.

Lemma sum_sq_scaled (l : R) (rs : list R) :
  l <> 0%R -> sum_sq (map (fun x => (x / l)%R) rs) = (sum_sq rs / (l * l))%R.
Proof.
  intros Hl. induction rs as [|x rs IH].
  - unfold sum_sq. cbn. field. exact Hl.
  - cbn [map]. rewrite !sum_sq_cons, IH. field. exact Hl.
Qed.

(** The sum of a vector of reals is real; a NaN anywhere makes it NaN. *)
Lemma fold_np_add_real (rs : list R) (a : R) :
  fold_left np_add (map FReal rs) (FReal a) = FReal (fold_left Rplus rs a).
Proof.
  revert a. induction rs as [|x rs IH]; intros a; [reflexivity|].
  cbn [map fold_left np_add]. apply IH.
Qed.

Lemma fold_np_add_nan (v : list npfloat) : fold_left np_add v FNaN = FNaN.
Proof. induction v as [|x v IH]; [reflexivity|]. cbn. exact IH. Qed.

Lemma np_sum_squares_real (rs : list R) :
  np_sum (map (fun x => np_mul x x) (map FReal rs)) = FReal (sum_sq rs).
Proof.
  unfold np_sum, sum_sq, f0. rewrite map_map. cbn [np_mul].
  rewrite <- (map_map (fun x => (x * x)%R) FReal). apply fold_np_add_real.
Qed.

Lemma norm_row_real (rs : list R) :
  norm_row (map FReal rs) = FReal (sqrt (sum_sq rs)).
Proof.
  unfold norm_row. rewrite np_sum_squares_real. unfold np_sqrt.
  destruct (Rle_dec 0 (sum_sq rs)) as [_|H]; [reflexivity|].
  destruct H. apply sum_sq_nonneg.
Qed.

(** A row whose norm is a number holds numbers only. *)
Lemma norm_row_is_real (row : list npfloat) (l : R) :
  norm_row row = FReal l ->
  exists rs, row = map FReal rs /\ l = sqrt (sum_sq rs).
Proof.
  intros H.
  assert (Hreal : exists rs, row = map FReal rs).
  { unfold norm_row, np_sum in H.
    assert (Hacc : forall v a, (exists x, In x v /\ np_isnan x = true) ->
                     fold_left np_add (map (fun x => np_mul x x) v) a = FNaN).
    { induction v as [|y v IH]; intros a (x & Hin & Hx); [destruct Hin|].
      cbn [map fold_left]. destruct Hin as [->|Hin].
      - destruct x; [|discriminate]. destruct a; cbn; apply fold_np_add_nan.
      - apply IH. eauto. }
    induction row as [|x row IH]; [now exists []|].
    destruct x as [|r].
    - rewrite Hacc in H by (exists FNaN; cbn; auto). discriminate.
    - destruct (existsb np_isnan row) eqn:Hex.
      + apply existsb_exists in Hex. destruct Hex as (y & Hy & Hnan).
        rewrite Hacc in H by (exists y; cbn; auto). discriminate.
      + assert (Hall : forall y, In y row -> np_isnan y = false).
        { intros y Hy. destruct (np_isnan y) eqn:E; [|reflexivity].
          assert (existsb np_isnan row = true)
            by (apply existsb_exists; eauto). congruence. }
        clear IH H Hex Hacc.
        assert (exists rs, row = map FReal rs) as [rs ->].
        { induction row as [|y row IH]; [now exists []|].
          destruct IH as [rs ->]; [intros; apply Hall; now right|].
          specialize (Hall y (or_introl eq_refl)).
          destruct y as [|ry]; [discriminate|]. now exists (ry :: rs). }
        now exists (r :: rs). }
  destruct Hreal as [rs ->]. exists rs. split; [reflexivity|].
  rewrite norm_row_real in H. now injection H.
Qed.

Lemma norm_row_nan (row : list npfloat) :
  existsb np_isnan row = true -> norm_row row = FNaN.
Proof.
  intros Hex. destruct (norm_row row) as [|l] eqn:H; [reflexivity|].
  apply norm_row_is_real in H. destruct H as (rs & -> & _).
  apply existsb_exists in Hex. destruct Hex as (y & Hy & Hnan).
  apply in_map_iff in Hy. destruct Hy as (r & <- & _). discriminate.
Qed.

Lemma real_row_no_nan (rs : list R) : existsb np_isnan (map FReal rs) = false.
Proof. induction rs as [|r rs IH]; [reflexivity|]. exact IH. Qed.

(** Dividing a row of numbers by its non-zero norm gives a row of norm
    one. *)
Lemma norm_row_scaled (rs : list R) :
  sqrt (sum_sq rs) <> 0%R ->
  norm_row (map (fun x => np_div x (FReal (sqrt (sum_sq rs)))) (map FReal rs)) = f1.
Proof.
  intros Hl. set (l := sqrt (sum_sq rs)) in *.
  rewrite map_map. cbn [np_div].
  destruct (Req_dec_T l 0) as [E|_]; [contradiction|].
  rewrite <- (map_map (fun x => (x / l)%R) FReal), norm_row_real.
  rewrite sum_sq_scaled by assumption.
  unfold l at 1 2. rewrite sqrt_sqrt by apply sum_sq_nonneg.
  assert (Hs : sum_sq rs <> 0%R).
  { intros E. unfold l in Hl. rewrite E, sqrt_0 in Hl. now apply Hl. }
  replace (sum_sq rs / sum_sq rs)%R with 1%R by (field; exact Hs).
  now rewrite sqrt_1.
Qed.

(** ** Soft constraints: what a returning call has done *)

Lemma zip_with_length {X Y Z : Type} (f : X -> Y -> Z) (l : list X) (l' : list Y) :
  length l = length l' -> length (zip_with f l l') = length l.
Proof.
  revert l'. induction l as [|x l IH]; intros [|y l'] H; try discriminate;
    [reflexivity|].
  cbn [zip_with length]. f_equal. apply IH. now injection H.
Qed.

Lemma zip_with_nth {X Y Z : Type} (f : X -> Y -> Z) (l : list X) (l' : list Y)
  (i : nat) (dx : X) (dy : Y) (dz : Z) :
  i < length l -> i < length l' ->
  nth i (zip_with f l l') dz = f (nth i l dx) (nth i l' dy).
Proof.
  revert l' i. induction l as [|x l IH]; intros [|y l'] [|i] H H';
    cbn [length] in *; try lia; [reflexivity|].
  cbn [zip_with nth]. apply IH; lia.
Qed.

Lemma normalised_A_length (A : list (list npfloat)) :
  length (normalised_A A) = length A.
Proof.
  unfold normalised_A, normalise_rows, zero_nan_rows.
  rewrite zip_with_length; now rewrite !length_map.
Qed.

Lemma normalised_B_length (A : list (list npfloat)) (B : list npfloat) :
  length B = length A -> length (normalised_B A B) = length A.
Proof.
  intros H. unfold normalised_B, normalise_b.
  rewrite zip_with_length; now rewrite ?length_map.
Qed.

(** Row [i] as stored: zeroed if it holds a NaN, divided by its norm if
    the norm is positive, and as it came otherwise. *)
Lemma normalised_A_nth (A : list (list npfloat)) (i : nat) :
  i < length A ->
  nth i (normalised_A A) [] =
  let row := nth i A [] in
  let row0 := if existsb np_isnan row then map (fun _ => f0) row else row in
  if np_gt (norm_row row) f0
  then map (fun x => np_div x (norm_row row)) row0
  else row0.
Proof.
  intros Hi. unfold normalised_A, normalise_rows, zero_nan_rows.
  rewrite zip_with_nth with (dx := []) (dy := FNaN)
    by now rewrite ?length_map.
  rewrite (nth_map_in _ _ []) by assumption.
  rewrite (nth_map_in _ _ []) by assumption.
  reflexivity.
Qed.

Lemma normalised_B_nth (A : list (list npfloat)) (B : list npfloat) (i : nat) :
  i < length A -> length B = length A ->
  nth i (normalised_B A B) FNaN =
  if np_gt (norm_row (nth i A [])) f0
  then np_div (nth i B FNaN) (norm_row (nth i A []))
  else nth i B FNaN.
Proof.
  intros Hi Hlen. unfold normalised_B, normalise_b.
  rewrite zip_with_nth with (dx := FNaN) (dy := FNaN)
    by (rewrite ?length_map; lia).
  now rewrite (nth_map_in _ _ []) by assumption.
Qed.

Lemma normalised_A_row_lengths (A : list (list npfloat)) (i : nat) :
  i < length A -> length (nth i (normalised_A A) []) = length (nth i A []).
Proof.
  intros Hi. rewrite normalised_A_nth by assumption. cbv zeta.
  destruct (np_gt _ _), (existsb _ _); now rewrite ?length_map.
Qed.

(** The shapes that [np_shape] accepts, seen on the flattened block. *)
Lemma all_length_Forall {X : Type} (n : nat) (l : list (list X)) :
  all_length n l = true <-> Forall (fun row => length row = n) l.
Proof.
  unfold all_length. rewrite forallb_forall, Forall_forall.
  split; intros H x Hx; specialize (H x Hx); now apply Nat.eqb_eq.
Qed.

Lemma concat_all_length {X : Type} (n m : nat) (a : list (list (list X))) :
  Forall (fun plane => length plane = n) a ->
  Forall (fun plane => Forall (fun row => length row = m) plane) a ->
  length (concat a) = length a * n
  /\ Forall (fun row => length row = m) (concat a).
Proof.
  induction a as [|plane a IH]; intros Hn Hm; [split; [reflexivity|constructor]|].
  inversion Hn as [|? ? Hp Hn']; inversion Hm as [|? ? Hq Hm']; subst.
  destruct (IH Hn' Hm') as [Hl Hr]. cbn [concat length]. split.
  - rewrite length_app, Hl. lia.
  - apply Forall_app. now split.
Qed.

Lemma flatten_block_shapes (A : ndarray npfloat) (idc : ndarray Z)
  (B : list npfloat) (w : weight) (s : list nat)
  (n_rows : nat) (A2 : list (list npfloat)) (idc2 : list (list Z))
  (B2 : list npfloat) (w2 : weight) :
  np_shape A = Returned s -> np_shape idc = Returned s ->
  flatten_block A idc B w = Returned (n_rows, A2, idc2, B2, w2) ->
  n_rows = length A2 /\ length idc2 = length A2 /\ B2 = B
  /\ exists width, Forall (fun row => length row = width) A2
                   /\ Forall (fun row => length row = width) idc2.
Proof.
  destruct A as [a2|a3], idc as [i2|i3]; cbn [np_shape flatten_block];
    try discriminate.
  - destruct (rectangular2 a2) eqn:Ha; [|discriminate].
    destruct (rectangular2 i2) eqn:Hi; [|discriminate].
    intros [= <-] [= Hlen Hwidth] [= <- <- <- <- <-].
    repeat split; auto. exists (length (hd [] a2)).
    unfold rectangular2 in *.
    rewrite all_length_Forall in Ha. rewrite all_length_Forall in Hi.
    rewrite Hwidth in Hi. now split.
  - destruct (rectangular3 a3) eqn:Ha; [|discriminate].
    destruct (rectangular3 i3) eqn:Hi; [|discriminate].
    intros [= <-] [= H0 H1 H2].
    destruct (Nat.eqb (length B) _); [|discriminate].
    intros [= <- <- <- <- <-].
    unfold rectangular3 in *. apply andb_true_iff in Ha, Hi.
    destruct Ha as [Ha1 Ha2], Hi as [Hi1 Hi2].
    rewrite all_length_Forall in Ha1. rewrite all_length_Forall in Hi1.
    rewrite forallb_forall in Ha2. rewrite forallb_forall in Hi2.
    assert (Ha3 : Forall (fun plane => Forall (fun row => length row
                     = length (hd [] (hd [] a3))) plane) a3).
    { apply Forall_forall. intros p Hp. apply all_length_Forall. auto. }
    assert (Hi3 : Forall (fun plane => Forall (fun row => length row
                     = length (hd [] (hd [] a3))) plane) i3).
    { apply Forall_forall. intros p Hp. apply all_length_Forall.
      rewrite <- H2. auto. }
    rewrite H1 in Hi1.
    destruct (concat_all_length Ha1 Ha3) as [Hla Hra].
    destruct (concat_all_length Hi1 Hi3) as [Hli Hri].
    repeat split; try lia. eauto.
Qed.

(** A call that returns has either refused the block for its shapes or
    stored it, normalised, under the name that the collision loop
    found. *)
Lemma add_constraints_returned (fuel : nat) (A : ndarray npfloat)
  (B : list npfloat) (idc : ndarray Z) (w : weight) (name : string)
  (self self' : DiscreteInterpolator) :
  add_constraints_to_least_squares fuel A B idc w name self = (Returned tt, self') ->
  (exists sa si,
      np_shape A = Returned sa /\ np_shape idc = Returned si /\ sa <> si
      /\ self' = emit (LogError ("Cannot add constraints: A and indexes have different shape : "
                                 ++ name)) self)
  \/ (exists s n_rows A2 idc2 B2 w2 wv name' matrix,
        np_shape A = Returned s /\ np_shape idc = Returned s
        /\ flatten_block A idc B w = Returned (n_rows, A2, idc2, B2, w2)
        /\ length B2 = length A2
        /\ weights_of w2 (length A2) = Some wv /\ length wv = length A2
        /\ unique_name fuel name name (constraints self) = Returned name'
        /\ coo_matrix (coo_triples (normalised_A A2) idc2) n_rows (nx self)
           = Returned matrix
        /\ self' = set_constraints
                     (dict_set name' (mkSoft matrix (normalised_B A2 B2) wv)
                               (constraints self))
                     (if has_nan (normalised_A A2) idc2 (normalised_B A2 B2)
                      then emit (nan_warning name) self else self)).
Proof.
  unfold add_constraints_to_least_squares. run_method.
  destruct (np_shape A) as [sa| |] eqn:HsA; try discriminate.
  destruct (np_shape idc) as [si| |] eqn:HsI; try discriminate.
  destruct (list_eq_dec Nat.eq_dec sa si) as [<-|Hne]; cbn [negb].
  2:{ intros [= <-]. left. exists sa, si. auto. }
  destruct (flatten_block A idc B w) as [[[[[n_rows A2] idc2] B2] w2]| |] eqn:Hflat;
    try discriminate.
  rewrite length_map.
  destruct (Nat.eqb (length B2) (length A2)) eqn:HB; cbn [negb]; [|discriminate].
  apply Nat.eqb_eq in HB.
  fold (normalised_A A2). fold (normalised_B A2 B2).
  rewrite !normalised_A_length.
  fold (has_nan (normalised_A A2) idc2 (normalised_B A2 B2)).
  fold (nan_warning name).
  intros H. right. exists sa, n_rows, A2, idc2, B2, w2.
  destruct w2 as [x|wa|]; cbn [weights_of] in *; [| |discriminate].
  - rewrite length_map, repeat_length, Nat.eqb_refl in H. cbn [negb] in H.
    destruct (has_nan _ _ _);
      cbn [constraints emit] in H;
      destruct (unique_name fuel name name (constraints self)) as [name'| |];
      try discriminate;
      change (nx (emit (nan_warning name) self)) with (nx self) in H;
      destruct (coo_matrix _ _ _) as [matrix| |]; try discriminate;
      injection H as <-;
      (do 3 eexists; repeat split; try reflexivity; try assumption;
       now rewrite length_map, repeat_length).
  - destruct (Nat.eqb (length wa) (length A2)) eqn:Hw; cbn [negb] in H;
      [|discriminate].
    apply Nat.eqb_eq in Hw.
    destruct (has_nan _ _ _);
      cbn [constraints emit] in H;
      destruct (unique_name fuel name name (constraints self)) as [name'| |];
      try discriminate;
      change (nx (emit (nan_warning name) self)) with (nx self) in H;
      destruct (coo_matrix _ _ _) as [matrix| |]; try discriminate;
      injection H as <-;
      (do 3 eexists; repeat split; try reflexivity; assumption).
Qed.

(** ** The stored sparse matrix, row by row *)

Lemma filter_row_triples (k i : Z) (row : list npfloat) (cols : list Z) :
  filter (fun e : Z * Z * npfloat => (fst (fst e) =? i)%Z)
         (zip_with (fun v j => (k, j, v)) row cols)
  = if (k =? i)%Z then zip_with (fun v j => (k, j, v)) row cols else [].
Proof.
  revert cols. induction row as [|v row IH]; intros [|j cols];
    cbn [zip_with filter fst]; try (destruct (k =? i)%Z; reflexivity).
  rewrite IH. destruct (k =? i)%Z; reflexivity.
Qed.

Lemma map_snd_row_triples (k : Z) (row : list npfloat) (cols : list Z) :
  length cols = length row ->
  map snd (zip_with (fun v j => (k, j, v)) row cols) = row
  /\ map (fun e : Z * Z * npfloat => snd (fst e))
         (zip_with (fun v j => (k, j, v)) row cols) = cols.
Proof.
  revert cols. induction row as [|v row IH]; intros [|j cols] H;
    try discriminate; [split; reflexivity|].
  injection H as H. destruct (IH cols H) as [H1 H2].
  cbn [zip_with map snd fst]. now rewrite H1, H2.
Qed.

Lemma filter_coo_triples_from (start : nat) (A : list (list npfloat))
  (idc : list (list Z)) (i : nat) :
  length idc = length A ->
  filter (fun e : Z * Z * npfloat => (fst (fst e) =? Z.of_nat i)%Z)
         (concat (zip_with (fun k rc =>
                              zip_with (fun v j => (Z.of_nat k, j, v)) (fst rc) (snd rc))
                           (seq start (length A)) (combine A idc)))
  = if ((start <=? i) && (i <? start + length A))%nat
    then zip_with (fun v j => (Z.of_nat i, j, v))
                  (nth (i - start) A []) (nth (i - start) idc [])
    else [].
Proof.
  revert start idc. induction A as [|row A IH]; intros start [|cols idc] H;
    try discriminate.
  - cbn [length seq combine zip_with concat filter].
    destruct ((start <=? i) && (i <? start + 0))%nat eqn:E; [|reflexivity].
    apply andb_true_iff in E. destruct E as [H1 H2].
    apply Nat.leb_le in H1. apply Nat.ltb_lt in H2. lia.
  - injection H as H. cbn [length seq combine zip_with concat fst snd].
    rewrite filter_app, filter_row_triples, (IH (S start) idc H).
    destruct (Nat.eq_dec start i) as [->|Hne].
    + rewrite Z.eqb_refl, Nat.sub_diag. cbn [nth].
      assert (H1 : (S i <=? i)%nat = false) by (apply Nat.leb_gt; lia).
      assert (H2 : (i <=? i)%nat = true) by (apply Nat.leb_le; lia).
      assert (H3 : (i <? i + S (length A))%nat = true) by (apply Nat.ltb_lt; lia).
      rewrite H1, H2, H3. cbn [andb]. apply app_nil_r.
    + assert (Hz : (Z.of_nat start =? Z.of_nat i)%Z = false)
        by (apply Z.eqb_neq; lia).
      rewrite Hz. cbn [app].
      destruct (S start <=? i)%nat eqn:H1.
      * apply Nat.leb_le in H1.
        assert (H2 : (start <=? i)%nat = true) by (apply Nat.leb_le; lia).
        rewrite H2. cbn [andb].
        replace (i <? start + S (length A))%nat with (i <? S start + length A)%nat
          by (f_equal; lia).
        destruct (i <? S start + length A)%nat; [|reflexivity].
        replace (i - start) with (S (i - S start)) by lia. reflexivity.
      * apply Nat.leb_gt in H1.
        assert (H2 : (start <=? i)%nat = false) by (apply Nat.leb_gt; lia).
        rewrite H2. reflexivity.
Qed.

(** Row [i] of the matrix built from the coefficient rows [A] and the
    column rows [idc] holds the values of [A[i]] on the columns
    [idc[i]]. *)
Lemma sp_row_coo_triples (A : list (list npfloat)) (idc : list (list Z))
  (m : sparse) (i : nat) :
  sp_entries m = coo_triples A idc ->
  length idc = length A ->
  length (nth i idc []) = length (nth i A []) ->
  i < length A ->
  sp_row m (Z.of_nat i) = nth i A []
  /\ sp_row_cols m (Z.of_nat i) = nth i idc [].
Proof.
  intros Hm Hlen Hrow Hi. unfold sp_row, sp_row_cols, coo_triples in *.
  rewrite Hm, (@filter_coo_triples_from 0 A idc i Hlen).
  assert (H1 : (0 <=? i)%nat = true) by (apply Nat.leb_le; lia).
  assert (H2 : (i <? 0 + length A)%nat = true) by (apply Nat.ltb_lt; lia).
  rewrite H1, H2, Nat.sub_0_r. cbn [andb].
  now apply map_snd_row_triples.
Qed.

Lemma coo_triples_entries (A : list (list npfloat)) (idc : list (list Z)) :
  Forall (fun e : Z * Z * npfloat =>
            index_in (length A) (fst (fst e)) = true
            /\ In (snd (fst e)) (concat idc))
         (coo_triples A idc).
Proof.
  unfold coo_triples.
  assert (H : forall start n rows cols,
             Forall (fun e : Z * Z * npfloat =>
                       (Z.of_nat start <= fst (fst e) < Z.of_nat (start + n))%Z
                       /\ In (snd (fst e)) (concat cols))
                    (concat (zip_with (fun i rc =>
                               zip_with (fun v j => (Z.of_nat i, j, v)) (fst rc) (snd rc))
                             (seq start n) (combine rows cols)))).
  { intros start n. revert start.
    induction n as [|n IH]; intros start rows cols; [constructor|].
    destruct rows as [|row rows], cols as [|col cols]; try constructor.
    cbn [seq combine zip_with concat fst snd]. apply Forall_app. split.
    - clear IH. revert col. induction row as [|v row IHr]; intros [|j col];
        try constructor.
      + cbn [fst snd]. split; [lia|]. apply in_or_app. left. now left.
      + eapply Forall_impl; [|apply IHr]. cbn beta.
        intros e [He Hin]. split; [exact He|].
        apply in_app_or in Hin. apply in_or_app.
        destruct Hin as [Hin|Hin]; [left; now right|now right].
    - eapply Forall_impl; [|apply (IH (S start) rows cols)]. cbn beta.
      intros e [He Hin]. split; [lia|]. apply in_or_app. now right. }
  eapply Forall_impl; [|apply (H 0 (length A) A idc)]. cbn beta.
  intros e [He Hin]. split; [|exact Hin]. apply index_in_iff. lia.
Qed.

(** The outcome of a call on a block of matching shapes, with one
    right-hand side and one weight per row and columns inside the
    system: the outcome of the collision loop decides. *)
Lemma add_constraints_outcome (fuel : nat) (A : ndarray npfloat)
  (B : list npfloat) (idc : ndarray Z) (w : weight) (name : string)
  (self : DiscreteInterpolator) (s : list nat) (n_rows : nat)
  (A2 : list (list npfloat)) (idc2 : list (list Z)) (B2 wv : list npfloat)
  (w2 : weight) :
  np_shape A = Returned s -> np_shape idc = Returned s ->
  flatten_block A idc B w = Returned (n_rows, A2, idc2, B2, w2) ->
  length B2 = length A2 ->
  weights_of w2 (length A2) = Some wv -> length wv = length A2 ->
  Forall (fun j => index_in (nx self) j = true) (concat idc2) ->
  let logged := if has_nan (normalised_A A2) idc2 (normalised_B A2 B2)
                then emit (nan_warning name) self else self in
  add_constraints_to_least_squares fuel A B idc w name self
  = match unique_name fuel name name (constraints self) with
    | Returned name' =>
        (Returned tt,
         set_constraints
           (dict_set name'
              (mkSoft (mkSparse n_rows (nx self)
                                (coo_triples (normalised_A A2) idc2))
                      (normalised_B A2 B2) wv)
              (constraints self))
           logged)
    | Raised e => (Raised e, logged)
    | Diverged => (Diverged, logged)
    end.
Proof.
  intros HsA HsI Hflat HB Hw Hwlen Hcols logged. subst logged.
  destruct (flatten_block_shapes _ _ _ _ HsA HsI Hflat) as (Hn & _ & _ & _).
  assert (Hcoo : coo_matrix (coo_triples (normalised_A A2) idc2) n_rows (nx self)
                 = Returned (mkSparse n_rows (nx self)
                                      (coo_triples (normalised_A A2) idc2))).
  { assert (H := coo_triples_entries (normalised_A A2) idc2).
    rewrite normalised_A_length, <- Hn in H.
    apply coo_matrix_ok.
    - eapply Forall_impl; [|exact H]. now intros e [? _].
    - eapply Forall_impl; [|exact H]. intros e [_ Hin].
      rewrite Forall_forall in Hcols. now apply Hcols. }
  unfold add_constraints_to_least_squares. run_method.
  rewrite HsA, HsI.
  destruct (list_eq_dec Nat.eq_dec s s) as [_|Hne]; [|congruence]. cbn [negb].
  rewrite Hflat, length_map, HB, Nat.eqb_refl. cbn [negb].
  fold (normalised_A A2). fold (normalised_B A2 B2).
  rewrite !normalised_A_length.
  fold (has_nan (normalised_A A2) idc2 (normalised_B A2 B2)).
  fold (nan_warning name).
  destruct w2 as [x|wa|]; cbn [weights_of] in Hw; [| |discriminate];
    injection Hw as <-; rewrite Hwlen, Nat.eqb_refl; cbn [negb];
    destruct (has_nan _ _ _); cbn [constraints emit];
    destruct (unique_name fuel name name (constraints self)); try reflexivity;
    change (nx (emit (nan_warning name) self)) with (nx self);
    rewrite Hcoo; reflexivity.
Qed.

(** The converse of [add_constraints_returned]: such a block is stored
    when the collision loop settles on a name. *)
Lemma add_constraints_stores (fuel : nat) (A : ndarray npfloat)
  (B : list npfloat) (idc : ndarray Z) (w : weight) (name name' : string)
  (self : DiscreteInterpolator) (s : list nat) (n_rows : nat)
  (A2 : list (list npfloat)) (idc2 : list (list Z)) (B2 wv : list npfloat)
  (w2 : weight) :
  np_shape A = Returned s -> np_shape idc = Returned s ->
  flatten_block A idc B w = Returned (n_rows, A2, idc2, B2, w2) ->
  length B2 = length A2 ->
  weights_of w2 (length A2) = Some wv -> length wv = length A2 ->
  unique_name fuel name name (constraints self) = Returned name' ->
  Forall (fun j => index_in (nx self) j = true) (concat idc2) ->
  add_constraints_to_least_squares fuel A B idc w name self
  = (Returned tt,
     set_constraints
       (dict_set name'
          (mkSoft (mkSparse n_rows (nx self) (coo_triples (normalised_A A2) idc2))
                  (normalised_B A2 B2) wv)
          (constraints self))
       (if has_nan (normalised_A A2) idc2 (normalised_B A2 B2)
        then emit (nan_warning name) self else self)).
Proof.
  intros HsA HsI Hflat HB Hw Hwlen Hname Hcols.
  rewrite (@add_constraints_outcome fuel A B idc w name self s n_rows A2 idc2
             B2 wv w2 HsA HsI Hflat HB Hw Hwlen Hcols).
  now rewrite Hname.
Qed.

(** ** Blocks that hold a NaN *)

Lemma dict_mem_set {V : Type} (key : string) (v : V) (d : dict V) :
  dict_mem key (dict_set key v d) = true.
Proof.
  induction d as [|[k v'] d IH]; cbn [dict_set dict_mem].
  - now rewrite String.eqb_refl.
  - destruct (String.eqb k key) eqn:H; cbn [dict_mem]; now rewrite H.
Qed.

(** The name that the collision loop returns is not in the registry. *)
Lemma unique_name_fresh {V : Type} (fuel : nat) (base_name candidate name' : string)
  (registry : dict V) :
  unique_name fuel base_name candidate registry = Returned name' ->
  dict_mem name' registry = false.
Proof.
  revert candidate. induction fuel as [|fuel IH]; intros candidate;
    cbn [unique_name].
  - destruct (dict_mem candidate registry) eqn:Hmem; [discriminate|].
    now intros [= <-].
  - destruct (dict_mem candidate registry) eqn:Hmem; [|now intros [= <-]].
    destruct (next_count candidate); try discriminate. apply IH.
Qed.

(** Whenever the NaN test of a returning call is positive, the warning
    is logged and the block is in the registry all the same, NaN
    included. *)
Lemma add_constraints_nan_block_is_stored (fuel : nat) (A : ndarray npfloat)
  (B : list npfloat) (idc : ndarray Z) (w : weight) (name : string)
  (self self' : DiscreteInterpolator) (s : list nat) (n_rows : nat)
  (A2 : list (list npfloat)) (idc2 : list (list Z)) (B2 : list npfloat)
  (w2 : weight) :
  np_shape A = Returned s -> np_shape idc = Returned s ->
  flatten_block A idc B w = Returned (n_rows, A2, idc2, B2, w2) ->
  has_nan (normalised_A A2) idc2 (normalised_B A2 B2) = true ->
  add_constraints_to_least_squares fuel A B idc w name self = (Returned tt, self') ->
  trace self' = trace self ++ [nan_warning name]
  /\ exists name' blk,
       dict_get name' (constraints self') = Some blk
       /\ dict_mem name' (constraints self) = false
       /\ blk_b blk = normalised_B A2 B2
       /\ sp_entries (blk_matrix blk) = coo_triples (normalised_A A2) idc2.
Proof.
  intros HsA HsI Hflat Hnan Hrun.
  destruct (add_constraints_returned _ _ _ _ _ _ _ Hrun)
    as [(sa & si & HsA' & HsI' & Hne & _)
       |(s' & n' & A' & idc' & B' & w' & wv & name' & matrix
         & _ & _ & Hflat' & HB & _ & _ & Hname & Hcoo & ->)];
    [congruence|].
  rewrite Hflat in Hflat'. injection Hflat' as <- <- <- <- <-.
  rewrite Hnan. split; [reflexivity|].
  exists name', (mkSoft matrix (normalised_B A2 B2) wv).
  cbn [constraints set_constraints emit blk_b blk_matrix].
  split; [apply dict_get_set_same|]. split; [|split; [reflexivity|]].
  - exact (unique_name_fresh _ _ _ _ Hname).
  - now destruct (coo_matrix_shape _ _ _ Hcoo) as (_ & _ & ->).
Qed.

(** C2: a block of one row whose right-hand side is NaN.  The NaN test
    is positive and the warning "not adding constraints" is logged, but
    the call goes on and stores the block under its name, with the NaN
    in ['b']: the registry is not left untouched. *)
Theorem add_constraints_nan_block_not_skipped :
  let self := init (line_support [0; 1]%R) false in
  exists self' blk,
    add_constraints_to_least_squares 1 (Arr2 [[FReal 1]]) [FNaN]
      (Arr2 [[0%Z]]) (WScalar f1) "value" self = (Returned tt, self')
    /\ trace self' = trace self ++ [nan_warning "value"]
    /\ constraints self = []
    /\ constraints self' = [("value", blk)]
    /\ blk_b blk = [FNaN].
Proof.
  intros self.
  assert (Hrun := @add_constraints_stores 1 (Arr2 [[FReal 1]]) [FNaN]
                    (Arr2 [[0%Z]]) (WScalar f1) "value" "value" self
                    [1; 1] 1 [[FReal 1]] [[0%Z]] [FNaN] _ (WScalar f1)
                    eq_refl eq_refl eq_refl eq_refl eq_refl eq_refl eq_refl
                    ltac:(repeat constructor)).
  assert (HB : normalised_B [[FReal 1]] [FNaN] = [FNaN]).
  { unfold normalised_B, normalise_b. cbn [map zip_with].
    now destruct (np_gt _ _). }
  assert (Hnan : has_nan (normalised_A [[FReal 1]]) [[0%Z]]
                         (normalised_B [[FReal 1]] [FNaN]) = true).
  { unfold has_nan. rewrite HB. cbn [existsb np_isnan]. apply orb_true_r. }
  rewrite Hnan, HB in Hrun.
  do 2 eexists. split; [exact Hrun|]. repeat split.
Qed.

(** ** The shape of the assembled system *)

Lemma nx_same_support (self self' : DiscreteInterpolator) :
  support self' = support self -> region_function self' = region_function self ->
  nx self' = nx self.
Proof. unfold nx, region. now intros -> ->. Qed.

(** A returning call keeps every registered block well formed. *)
Lemma add_constraints_block_ok (fuel : nat) (A : ndarray npfloat)
  (B : list npfloat) (idc : ndarray Z) (w : weight) (name : string)
  (self self' : DiscreteInterpolator) :
  add_constraints_to_least_squares fuel A B idc w name self = (Returned tt, self') ->
  Forall (block_ok (nx self)) (dict_values (constraints self)) ->
  Forall (block_ok (nx self')) (dict_values (constraints self'))
  /\ nx self' = nx self.
Proof.
  intros Hrun Hok.
  destruct (add_constraints_returned _ _ _ _ _ _ _ Hrun)
    as [(sa & si & _ & _ & _ & ->)
       |(s & n_rows & A2 & idc2 & B2 & w2 & wv & name' & matrix
         & HsA & HsI & Hflat & HB & _ & Hw & _ & Hcoo & ->)].
  - split; [exact Hok|reflexivity].
  - assert (Hnx : nx (set_constraints
                        (dict_set name' (mkSoft matrix (normalised_B A2 B2) wv)
                                  (constraints self))
                        (if has_nan (normalised_A A2) idc2 (normalised_B A2 B2)
                         then emit (nan_warning name) self else self))
                  = nx self)
      by (destruct (has_nan _ _ _); reflexivity).
    split; [|exact Hnx]. rewrite Hnx.
    cbn [constraints set_constraints].
    destruct (flatten_block_shapes _ _ _ _ HsA HsI Hflat) as (Hn & _).
    destruct (coo_matrix_shape _ _ _ Hcoo) as (Hrows & Hcols & _).
    apply dict_values_set; [|exact Hok].
    unfold block_ok. cbn [blk_matrix blk_b blk_w].
    rewrite normalised_B_length by assumption. repeat split; congruence.
Qed.

Lemma accepted_blocks_ok (self self' : DiscreteInterpolator) (ks : list soft_call) :
  accepted self ks self' ->
  Forall (block_ok (nx self)) (dict_values (constraints self)) ->
  Forall (block_ok (nx self')) (dict_values (constraints self'))
  /\ nx self' = nx self.
Proof.
  induction 1 as [self|self self1 self2 k ks Hrun _ IH]; intros Hok; [now split|].
  unfold run_soft_call in Hrun.
  destruct (@add_constraints_block_ok _ _ _ _ _ _ _ _ Hrun Hok) as [Hok1 Hnx1].
  destruct (IH Hok1) as [Hok2 Hnx2]. split; [exact Hok2|congruence].
Qed.

Lemma list_sum_cons (x : nat) (l : list nat) : list_sum (x :: l) = x + list_sum l.
Proof. reflexivity. Qed.

(** A block without weights has no rows, so leaving it out of the stack
    loses none. *)
Lemma stacked_rows_all (n : nat) (blocks : list soft_block) :
  Forall (block_ok n) blocks ->
  stacked_rows blocks = list_sum (map (fun blk => sp_rows (blk_matrix blk)) blocks).
Proof.
  unfold stacked_rows, contributes.
  induction 1 as [|blk blocks (_ & _ & Hw) _ IH]; [reflexivity|].
  cbn [filter map]; rewrite ?list_sum_cons.
  destruct (Nat.eqb (length (blk_w blk)) 0) eqn:E; cbn [negb map]; rewrite ?list_sum_cons.
  - apply Nat.eqb_eq in E. rewrite IH. lia.
  - now rewrite IH.
Qed.

Lemma weighted_blocks_ok (n : nat) (blocks : list soft_block) :
  Forall (block_ok n) blocks ->
  exists mats bs,
    weighted_blocks blocks = Returned (mats, bs)
    /\ Forall (fun m => sp_cols m = n) mats
    /\ list_sum (map sp_rows mats) = stacked_rows blocks
    /\ list_sum (map (@length npfloat) bs) = stacked_rows blocks
    /\ length mats = length (filter contributes blocks)
    /\ length bs = length mats.
Proof.
  unfold stacked_rows, contributes.
  induction 1 as [|blk blocks (Hcols & Hb & Hw) _ IH].
  - exists [], []. repeat split. constructor.
  - destruct IH as (mats & bs & Heq & Hc & Hr & Hl & Hm & Hbs).
    cbn [weighted_blocks filter].
    destruct (Nat.eqb (length (blk_w blk)) 0); cbn [negb].
    + exists mats, bs. repeat split; assumption.
    + unfold sp_scale_rows, np_mul_vec.
      rewrite Hw, Hb, Nat.eqb_refl, Heq. cbn [obind fst snd].
      do 2 eexists. split; [reflexivity|].
      cbn [map length sp_rows sp_cols]; rewrite ?list_sum_cons.
      rewrite zip_with_length by congruence.
      repeat split; try lia. now constructor.
Qed.

Lemma vstack_from_ok (n : nat) (mats : list sparse) (acc : sparse) :
  sp_cols acc = n -> Forall (fun m => sp_cols m = n) mats ->
  exists A, vstack_from acc mats = Returned A
            /\ sp_rows A = sp_rows acc + list_sum (map sp_rows mats)
            /\ sp_cols A = n.
Proof.
  intros Hacc Hmats. revert acc Hacc.
  induction Hmats as [|m mats Hm _ IH]; intros acc Hacc; cbn [vstack_from].
  - exists acc. cbn. repeat split; [lia|assumption].
  - rewrite Hm, Hacc, Nat.eqb_refl.
    destruct (IH (mkSparse (sp_rows acc + sp_rows m) n
                           (sp_entries acc ++ sp_shift (sp_rows acc) 0 m)) eq_refl)
      as (A & HA & Hr & Hc).
    rewrite HA.
    exists A. cbn [sp_rows map] in *; rewrite ?list_sum_cons in *. repeat split; [lia|assumption].
Qed.

(** The assembled system of a registry of well-formed blocks. *)
Lemma assembled_ok (self : DiscreteInterpolator) :
  Forall (block_ok (nx self)) (dict_values (constraints self)) ->
  (existsb contributes (dict_values (constraints self)) = true ->
   exists A B, assembled self = Returned (A, B))
  /\ (forall A B, assembled self = Returned (A, B) ->
        sp_rows A = stacked_rows (dict_values (constraints self))
        /\ sp_cols A = nx self
        /\ length B = sp_rows A).
Proof.
  intros Hok. unfold assembled.
  destruct (weighted_blocks_ok Hok) as (mats & bs & -> & Hc & Hr & Hl & Hm & Hbs).
  cbn [obind fst snd].
  destruct mats as [|m mats].
  - split.
    + intros Hex. apply existsb_exists in Hex. destruct Hex as (blk & Hin & Hblk).
      assert (Hf : In blk (filter contributes (dict_values (constraints self))))
        by (apply filter_In; now split).
      destruct (filter contributes _); [destruct Hf|discriminate].
    + intros A B. cbn. discriminate.
  - inversion Hc as [|? ? Hcm Hcmats]; subst.
    destruct (@vstack_from_ok (nx self) mats m Hcm Hcmats) as (A & HA & HrA & HcA).
    cbn [sp_vstack]. rewrite HA. cbn [obind].
    destruct bs as [|b bs]; [discriminate|]. cbn [np_hstack obind].
    split; [eauto|].
    intros A' B' [= <- <-]. cbn [map] in Hr; rewrite ?list_sum_cons in Hr.
    repeat split; try lia; try assumption.
    change (b ++ concat bs) with (concat (b :: bs)).
    rewrite length_concat. lia.
Qed.

(** C7: after any sequence of calls of
    [add_constraints_to_least_squares] that returned, started on an
    empty registry, whatever [build_matrix] returns has as many rows as
    the registered blocks with a non-empty weight array have together
    (which is also the row count of all the blocks: a block without
    weights has no rows), exactly [nx] columns, and a right-hand side of
    one entry per row; and [build_matrix] does return as soon as one
    registered block has a non-empty weight array. *)
Theorem build_matrix_shape (self self' : DiscreteInterpolator)
  (calls : list soft_call) :
  constraints self = [] -> accepted self calls self' ->
  let blocks := dict_values (constraints self') in
  stacked_rows blocks = list_sum (map (fun blk => sp_rows (blk_matrix blk)) blocks)
  /\ (forall A B, fst (build_matrix self') = Returned (A, B) ->
        sp_rows A = stacked_rows blocks
        /\ sp_cols A = nx self'
        /\ length B = sp_rows A)
  /\ (existsb contributes blocks = true ->
      exists A B, fst (build_matrix self') = Returned (A, B)).
Proof.
  intros Hempty Hacc blocks.
  assert (Hok0 : Forall (block_ok (nx self)) (dict_values (constraints self)))
    by (rewrite Hempty; constructor).
  destruct (accepted_blocks_ok Hacc Hok0) as [Hok _].
  destruct (assembled_ok self' Hok) as [Hret Hshape].
  rewrite build_matrix_outcome.
  split; [exact (stacked_rows_all Hok)|]. split; assumption.
Qed.

(** One accepted block of two rows on a new interpolator with two
    nodes: the assembled system is 2 x 2 with two right-hand sides. *)
Lemma build_matrix_shape_witness :
  let self := init (line_support [0; 1]%R) false in
  let call := mkSoftCall 1 (Arr2 [[FReal 3; FReal 4]; [f0; f0]])
                [FReal 10; FReal 2] (Arr2 [[0; 1]; [0; 1]]%Z) (WScalar f1) "grad" in
  exists self' A B,
    accepted self [call] self'
    /\ fst (build_matrix self') = Returned (A, B)
    /\ sp_rows A = 2 /\ sp_cols A = 2 /\ length B = 2.
Proof.
  intros self call.
  assert (Hrun := @add_constraints_stores 1 (call_A call) (call_B call)
                    (call_idc call) (call_w call) "grad" "grad" self
                    [2; 2] 2 _ _ _ _ (WScalar f1)
                    eq_refl eq_refl eq_refl eq_refl eq_refl eq_refl eq_refl
                    ltac:(repeat constructor)).
  assert (Hacc := @accepted_cons self _ _ call [] Hrun (accepted_nil _)).
  destruct (@build_matrix_shape self _ [call] eq_refl Hacc) as (_ & Hshape & Hret).
  destruct (Hret ltac:(destruct (has_nan _ _ _); reflexivity)) as (A & B & HAB).
  destruct (Hshape A B HAB) as (Hrows & Hcols & HB).
  eexists. exists A, B. split; [exact Hacc|]. split; [exact HAB|].
  revert Hrows Hcols HB. destruct (has_nan _ _ _); cbn; intros -> -> ->; auto.
Defined.

(** ** Names of the registered blocks *)

(** A colliding candidate that the loop maps to itself is tried for
    ever. *)
Lemma unique_name_fixed_point {V : Type} (base_name candidate : string) (n : Z)
  (registry : dict V) :
  dict_mem candidate registry = true ->
  next_count candidate = Returned n ->
  (base_name ++ "_" ++ py_str_of_int n)%string = candidate ->
  forall fuel, unique_name fuel base_name candidate registry = Diverged.
Proof.
  intros Hmem Hcount Hfix fuel.
  induction fuel as [|fuel IH]; cbn [unique_name]; rewrite Hmem; [reflexivity|].
  now rewrite Hcount, Hfix.
Qed.

Lemma norm_row_one : norm_row [FReal 1] = f1.
Proof.
  change [FReal 1] with (map FReal [1%R]). rewrite norm_row_real.
  unfold sum_sq. cbn [map fold_left]. unfold f1. f_equal.
  replace (0 + 1 * 1)%R with 1%R by lra. apply sqrt_1.
Qed.

Lemma unit_block_has_no_nan :
  has_nan (normalised_A [[FReal 1]]) [[0%Z]] (normalised_B [[FReal 1]] [FReal 2])
  = false.
Proof.
  unfold has_nan, normalised_A, normalised_B, normalise_rows, normalise_b,
    zero_nan_rows.
  cbn [map zip_with existsb np_isnan concat app np_isnan_int orb].
  rewrite norm_row_one. unfold f1, f0, np_gt, np_div.
  decide_reals. reflexivity.
Qed.

(** The calls of [add_named]: the registry decides alone. *)
Lemma add_named_outcome (fuel : nat) (name : string) (self : DiscreteInterpolator) :
  index_in (nx self) 0 = true ->
  exists blk,
    add_named fuel name self
    = match unique_name fuel name name (constraints self) with
      | Returned name' =>
          (Returned tt,
           set_constraints (dict_set name' blk (constraints self)) self)
      | Raised e => (Raised e, self)
      | Diverged => (Diverged, self)
      end.
Proof.
  intros Hnx. eexists. unfold add_named.
  rewrite (@add_constraints_outcome fuel (Arr2 [[FReal 1]]) [FReal 2]
             (Arr2 [[0%Z]]) (WScalar f1) name self [1; 1] 1
             [[FReal 1]] [[0%Z]] [FReal 2] _ (WScalar f1)
             eq_refl eq_refl eq_refl eq_refl eq_refl eq_refl
             ltac:(repeat constructor; exact Hnx)).
  rewrite unit_block_has_no_nan. reflexivity.
Qed.

Example split_underscore_fields :
  split_underscore "x_5_6" = ["x"; "5"; "6"]
  /\ split_underscore "grad" = ["grad"]
  /\ split_underscore "a_" = ["a"; ""].
Proof. repeat split. Qed.

Example py_int_literals :
  py_int "12" = Some 12%Z /\ py_int " +7 " = Some 7%Z /\ py_int "-3" = Some (-3)%Z
  /\ py_int "b" = None /\ py_int "" = None /\ py_int "1 2" = None.
Proof. repeat split. Qed.

Example next_count_reads_second_field :
  next_count "grad" = Returned 0%Z
  /\ next_count "grad_0" = Returned 1%Z
  /\ next_count "x_5_6" = Returned 6%Z.
Proof. repeat split. Qed.

(** Twelve blocks under one name without underscore: the suffixes count
    up from 0, past one digit. *)
Lemma register_names_counts_up :
  register_names 12 "grad" 12 []
  = Some ["grad"; "grad_0"; "grad_1"; "grad_2"; "grad_3"; "grad_4"; "grad_5";
          "grad_6"; "grad_7"; "grad_8"; "grad_9"; "grad_10"].
Proof. vm_compute. reflexivity. Qed.

(** Runs the collision loop that stands in the hypothesis [H]. *)
Ltac settle_name H :=
  match type of H with
  | context [unique_name ?fuel ?base ?candidate ?registry] =>
      let name := eval cbv in (unique_name fuel base candidate registry) in
      change (unique_name fuel base candidate registry) with name in H;
      cbv beta iota in H
  end.

(** C8: three blocks named ["grad"] are stored as ["grad"],
    ["grad_0"], ["grad_1"].  But the number is read
    from the field after the first underscore of the colliding name, not
    from its suffix: after two blocks named ["x_5"], stored as ["x_5"]
    and ["x_5_6"], a third call with that name tries ["x_5_6"] again and
    again (the loop never ends, whatever the fuel), where the stated
    policy gives ["x_5_7"]; and a second block named ["a_b"] raises
    [ValueError] out of [int("b")]. *)
Theorem add_constraints_name_collision :
  let self := init (line_support [0; 1]%R) false in
  (exists s1 s2 s3,
      add_named 3 "grad" self = (Returned tt, s1)
      /\ add_named 3 "grad" s1 = (Returned tt, s2)
      /\ add_named 3 "grad" s2 = (Returned tt, s3)
      /\ dict_keys (constraints s3) = ["grad"; "grad_0"; "grad_1"])
  /\ (exists s1 s2,
         add_named 3 "x_5" self = (Returned tt, s1)
         /\ add_named 3 "x_5" s1 = (Returned tt, s2)
         /\ dict_keys (constraints s2) = ["x_5"; "x_5_6"]
         /\ forall fuel, add_named fuel "x_5" s2 = (Diverged, s2))
  /\ (exists s1,
         add_named 3 "a_b" self = (Returned tt, s1)
         /\ forall fuel,
             add_named (S fuel) "a_b" s1
             = (Raised (ValueError "invalid literal for int() with base 10"), s1)).
Proof.
  intros self. split; [|split].
  - destruct (add_named_outcome 3 "grad" self eq_refl) as [b1 H1].
    settle_name H1.
    match type of H1 with _ = (_, ?s) => set (s1 := s) in * end.
    destruct (add_named_outcome 3 "grad" s1 eq_refl) as [b2 H2].
    settle_name H2.
    match type of H2 with _ = (_, ?s) => set (s2 := s) in * end.
    destruct (add_named_outcome 3 "grad" s2 eq_refl) as [b3 H3].
    settle_name H3.
    exists s1, s2. eexists. repeat split; eassumption || reflexivity.
  - destruct (add_named_outcome 3 "x_5" self eq_refl) as [b1 H1].
    settle_name H1.
    match type of H1 with _ = (_, ?s) => set (s1 := s) in * end.
    destruct (add_named_outcome 3 "x_5" s1 eq_refl) as [b2 H2].
    settle_name H2.
    match type of H2 with _ = (_, ?s) => set (s2 := s) in * end.
    exists s1, s2. repeat split; try eassumption.
    intros fuel. destruct (add_named_outcome fuel "x_5" s2 eq_refl) as [b3 ->].
    destruct fuel as [|fuel]; [reflexivity|].
    change (unique_name (S fuel) "x_5" "x_5" (constraints s2))
      with (unique_name fuel "x_5" "x_5_6" (constraints s2)).
    now rewrite (@unique_name_fixed_point _ "x_5" "x_5_6" 6%Z
                   (constraints s2) eq_refl eq_refl eq_refl fuel).
  - destruct (add_named_outcome 3 "a_b" self eq_refl) as [b1 H1].
    settle_name H1.
    match type of H1 with _ = (_, ?s) => set (s1 := s) in * end.
    exists s1. split; [exact H1|].
    intros fuel. destruct (add_named_outcome (S fuel) "a_b" s1 eq_refl) as [b2 ->].
    reflexivity.
Qed.

(** ** Dense rows of a stored block *)

Lemma sp_get_as_row_filter (m : sparse) (i j : Z) :
  sp_get m i j
  = np_sum (map snd (filter (fun e : Z * Z * npfloat => (snd (fst e) =? j)%Z)
                            (filter (fun e => (fst (fst e) =? i)%Z) (sp_entries m)))).
Proof.
  unfold sp_get. do 2 f_equal.
  induction (sp_entries m) as [|e es IH]; [reflexivity|].
  cbn [filter]. destruct (fst (fst e) =? i)%Z; cbn [andb filter];
    [destruct (snd (fst e) =? j)%Z|]; now rewrite IH.
Qed.

Lemma col_sum_filter (k j : Z) (vs : list R) (cs : list Z) :
  np_sum (map snd (filter (fun e : Z * Z * npfloat => (snd (fst e) =? j)%Z)
                          (zip_with (fun v c => (k, c, v)) (map FReal vs) cs)))
  = FReal (col_sum vs cs j).
Proof.
  unfold np_sum, f0.
  assert (H : forall a,
             fold_left np_add
               (map snd (filter (fun e : Z * Z * npfloat => (snd (fst e) =? j)%Z)
                                (zip_with (fun v c => (k, c, v)) (map FReal vs) cs)))
               (FReal a)
             = FReal (a + col_sum vs cs j)).
  { revert cs. induction vs as [|v vs IH]; intros [|c cs] a;
      cbn [map zip_with filter fold_left col_sum fst snd];
      try (f_equal; lra).
    destruct (c =? j)%Z; cbn [map fold_left snd np_add]; rewrite IH;
      f_equal; lra. }
  rewrite H. f_equal. lra.
Qed.

(** Changing one term of a sum of squares from 0 to [v]. *)
Lemma sum_sq_update (g g' : nat -> R) (c : nat) (v : R) (start len : nat) :
  g c = 0%R -> g' c = v -> (forall j, j <> c -> g' j = g j) ->
  sum_sq (map g' (seq start len))
  = (sum_sq (map g (seq start len))
     + (if (start <=? c)%nat && (c <? start + len)%nat then v * v else 0))%R.
Proof.
  intros Hg Hg' Hsame. revert start.
  induction len as [|len IH]; intros start.
  - cbn [seq map]. unfold sum_sq. cbn [map fold_left].
    destruct (start <=? c)%nat eqn:H1; destruct (c <? start + 0)%nat eqn:H2;
      cbn [andb]; try lra.
    apply Nat.leb_le in H1. apply Nat.ltb_lt in H2. lia.
  - cbn [seq map]. rewrite !sum_sq_cons, IH.
    destruct (Nat.eq_dec start c) as [->|Hne].
    + rewrite Hg, Hg'.
      assert (H1 : (S c <=? c)%nat = false) by (apply Nat.leb_gt; lia).
      assert (H2 : (c <=? c)%nat = true) by (apply Nat.leb_le; lia).
      assert (H3 : (c <? c + S len)%nat = true) by (apply Nat.ltb_lt; lia).
      rewrite H1, H2, H3. cbn [andb]. lra.
    + rewrite (Hsame start Hne).
      destruct (S start <=? c)%nat eqn:H1.
      * apply Nat.leb_le in H1.
        assert (H2 : (start <=? c)%nat = true) by (apply Nat.leb_le; lia).
        rewrite H2. cbn [andb].
        replace (c <? start + S len)%nat with (c <? S start + len)%nat
          by (f_equal; lia).
        lra.
      * apply Nat.leb_gt in H1.
        assert (H2 : (start <=? c)%nat = false) by (apply Nat.leb_gt; lia).
        rewrite H2. cbn [andb]. lra.
Qed.

Lemma col_sum_absent (vs : list R) (cs : list Z) (j : Z) :
  ~ In j cs -> col_sum vs cs j = 0%R.
Proof.
  revert cs. induction vs as [|v vs IH]; intros [|c cs] Hin; try reflexivity.
  cbn [col_sum]. destruct (c =? j)%Z eqn:E.
  - apply Z.eqb_eq in E. subst c. destruct Hin. now left.
  - rewrite IH; [lra|]. intros H. apply Hin. now right.
Qed.

(** Values on pairwise distinct columns: the dense row has the same sum
    of squares as the values. *)
Lemma sum_sq_dense (n : nat) (vs : list R) (cs : list Z) :
  length cs = length vs -> NoDup cs ->
  Forall (fun c => index_in n c = true) cs ->
  sum_sq (map (fun j => col_sum vs cs (Z.of_nat j)) (seq 0 n)) = sum_sq vs.
Proof.
  revert cs. induction vs as [|v vs IH]; intros [|c cs] Hlen Hnd Hin;
    try discriminate.
  - cbn [col_sum]. clear. generalize 0. induction n as [|n IH]; intros start;
      [reflexivity|].
    cbn [seq map]. rewrite sum_sq_cons, IH. unfold sum_sq. cbn. lra.
  - injection Hlen as Hlen. inversion Hnd as [|? ? Hc Hnd']; subst.
    inversion Hin as [|? ? Hcn Hin']; subst.
    apply index_in_iff in Hcn.
    rewrite (@sum_sq_update (fun j => col_sum vs cs (Z.of_nat j))
               (fun j => col_sum (v :: vs) (c :: cs) (Z.of_nat j))
               (Z.to_nat c) v 0 n).
    + rewrite (IH cs Hlen Hnd' Hin'), sum_sq_cons.
      assert (H1 : (0 <=? Z.to_nat c)%nat = true) by (apply Nat.leb_le; lia).
      assert (H2 : (Z.to_nat c <? 0 + n)%nat = true) by (apply Nat.ltb_lt; lia).
      rewrite H1, H2. cbn [andb]. lra.
    + apply col_sum_absent. now rewrite Z2Nat.id by lia.
    + cbn [col_sum]. rewrite Z2Nat.id by lia. rewrite Z.eqb_refl.
      rewrite col_sum_absent by assumption. lra.
    + intros j Hj. cbn [col_sum].
      assert (E : (c =? Z.of_nat j)%Z = false) by (apply Z.eqb_neq; lia).
      rewrite E. lra.
Qed.

Lemma col_sum_zeros (vs : list R) (cs : list Z) (j : Z) :
  Forall (fun v => v = 0%R) vs -> col_sum vs cs j = 0%R.
Proof.
  intros H. revert cs. induction H as [|v vs -> _ IH]; intros [|c cs];
    try reflexivity.
  cbn [col_sum]. rewrite IH. destruct (c =? j)%Z; lra.
Qed.

(** The dense row of a matrix whose stored row [i] holds the numbers
    [vs] on the columns [cs]. *)
Lemma sp_dense_row_real (m : sparse) (i : Z) (vs : list R) (cs : list Z) :
  filter (fun e : Z * Z * npfloat => (fst (fst e) =? i)%Z) (sp_entries m)
  = zip_with (fun v c => (i, c, v)) (map FReal vs) cs ->
  sp_dense_row m i
  = map FReal (map (fun j => col_sum vs cs (Z.of_nat j)) (seq 0 (sp_cols m))).
Proof.
  intros Hrow. unfold sp_dense_row. rewrite map_map. apply map_ext.
  intros j. now rewrite sp_get_as_row_filter, Hrow, col_sum_filter.
Qed.

Lemma coo_matrix_columns (entries : list (Z * Z * npfloat)) (m n : nat) (A : sparse) :
  coo_matrix entries m n = Returned A ->
  Forall (fun e => index_in n (snd (fst e)) = true) entries.
Proof.
  unfold coo_matrix. destruct (forallb _ _); [|discriminate].
  destruct (forallb _ entries) eqn:H; [|discriminate]. intros _.
  apply Forall_forall. now apply forallb_forall.
Qed.

(** C6 does not hold as stated: a row of norm 5 whose two coefficients
    sit on the same column.  The coefficients are divided by 5, but in
    the stored matrix they add up to 7/5 on that column, so the stored
    row does not have norm 1. *)
Lemma add_constraints_repeated_column_norm :
  let self := init (line_support [0; 1]%R) false in
  exists self' blk,
    add_constraints_to_least_squares 1 (Arr2 [[FReal 3; FReal 4]]) [FReal 10]
      (Arr2 [[0; 0]]%Z) (WScalar f1) "grad" self = (Returned tt, self')
    /\ dict_get "grad" (constraints self') = Some blk
    /\ norm_row [FReal 3; FReal 4] = FReal 5
    /\ sp_row (blk_matrix blk) 0 = [FReal (3 / 5); FReal (4 / 5)]
    /\ sp_dense_row (blk_matrix blk) 0 = [FReal (7 / 5); FReal 0]
    /\ norm_row (sp_dense_row (blk_matrix blk) 0) <> f1.
Proof.
  intros self.
  assert (Hrun := @add_constraints_stores 1 (Arr2 [[FReal 3; FReal 4]]) [FReal 10]
                    (Arr2 [[0; 0]]%Z) (WScalar f1) "grad" "grad" self
                    [1; 2] 1 [[FReal 3; FReal 4]] [[0; 0]]%Z [FReal 10]
                    _ (WScalar f1)
                    eq_refl eq_refl eq_refl eq_refl eq_refl eq_refl eq_refl
                    ltac:(repeat constructor)).
  assert (Hnorm : norm_row [FReal 3; FReal 4] = FReal 5).
  { change [FReal 3; FReal 4] with (map FReal [3; 4]%R). rewrite norm_row_real.
    f_equal. unfold sum_sq. cbn [map fold_left].
    replace (0 + 3 * 3 + 4 * 4)%R with (5 * 5)%R by lra.
    apply sqrt_square. lra. }
  assert (HA : normalised_A [[FReal 3; FReal 4]] = [[FReal (3 / 5); FReal (4 / 5)]]).
  { unfold normalised_A, normalise_rows, zero_nan_rows.
    cbn [map zip_with existsb np_isnan orb]. rewrite Hnorm.
    unfold f0, np_gt, np_div. decide_reals. reflexivity. }
  rewrite HA in Hrun.
  do 2 eexists. split; [exact Hrun|].
  split; [reflexivity|]. split; [exact Hnorm|]. split; [reflexivity|].
  assert (Hdense : sp_dense_row
                     (mkSparse 1 (nx self)
                        (coo_triples [[FReal (3 / 5); FReal (4 / 5)]] [[0; 0]]%Z)) 0
                   = [FReal (7 / 5); FReal 0]).
  { unfold sp_dense_row, sp_get. cbn. unfold f0. cbn.
    f_equal. f_equal. lra. }
  cbn [blk_matrix]. rewrite Hdense. split; [reflexivity|].
  change [FReal (7 / 5); FReal 0] with (map FReal [7 / 5; 0]%R).
  rewrite norm_row_real. unfold f1. intros [= H].
  assert (Hs : (sum_sq [7 / 5; 0] = 1)%R).
  { rewrite <- (sqrt_sqrt (sum_sq [7 / 5; 0]%R)) by apply sum_sq_nonneg.
    rewrite H. lra. }
  unfold sum_sq in Hs. cbn [map fold_left] in Hs. lra.
Qed.

Lemma np_div_real_row (l : R) (rs : list R) :
  l <> 0%R ->
  map (fun x => np_div x (FReal l)) (map FReal rs)
  = map FReal (map (fun x => (x / l)%R) rs).
Proof.
  intros Hl. rewrite !map_map. apply map_ext. intros x. cbn [np_div].
  destruct (Req_dec_T l 0); [contradiction|reflexivity].
Qed.

(** The normalisation in the exact arithmetic of [npfloat], without
    rounding, overflow or underflow: the coefficients of a row whose
    Euclidean norm is a non-zero number are stored divided by that norm,
    so the stored coefficients of the row have norm 1, and the row's
    right-hand side is divided by the same number; the row of the stored
    matrix itself has norm 1 when the row's column indices are pairwise
    distinct (coefficients on a repeated column add up).  A row of norm
    zero is stored as it is, a zero row, with its right-hand side
    untouched. *)
Lemma add_constraints_unit_norm_exact (fuel : nat) (A : ndarray npfloat)
  (B : list npfloat) (idc : ndarray Z) (w : weight) (name : string)
  (self self' : DiscreteInterpolator) (s : list nat) (n_rows : nat)
  (A2 : list (list npfloat)) (idc2 : list (list Z)) (B2 : list npfloat)
  (w2 : weight) :
  np_shape A = Returned s -> np_shape idc = Returned s ->
  flatten_block A idc B w = Returned (n_rows, A2, idc2, B2, w2) ->
  add_constraints_to_least_squares fuel A B idc w name self = (Returned tt, self') ->
  exists name' blk,
    unique_name fuel name name (constraints self) = Returned name'
    /\ dict_get name' (constraints self') = Some blk
    /\ sp_rows (blk_matrix blk) = length A2
    /\ length (blk_b blk) = length A2
    /\ forall i, i < length A2 ->
         let row := nth i A2 [] in
         (forall l, norm_row row = FReal l -> l <> 0%R ->
            sp_row (blk_matrix blk) (Z.of_nat i)
            = map (fun x => np_div x (FReal l)) row
            /\ norm_row (sp_row (blk_matrix blk) (Z.of_nat i)) = f1
            /\ (NoDup (nth i idc2 []) ->
                norm_row (sp_dense_row (blk_matrix blk) (Z.of_nat i)) = f1)
            /\ nth i (blk_b blk) FNaN = np_div (nth i B2 FNaN) (FReal l))
         /\ (norm_row row = f0 ->
            sp_row (blk_matrix blk) (Z.of_nat i) = row
            /\ Forall (fun x => x = f0) row
            /\ Forall (fun x => x = f0)
                      (sp_dense_row (blk_matrix blk) (Z.of_nat i))
            /\ nth i (blk_b blk) FNaN = nth i B2 FNaN).
Proof.
  intros HsA HsI Hflat Hrun.
  destruct (add_constraints_returned _ _ _ _ _ _ _ Hrun)
    as [(sa & si & HsA' & HsI' & Hne & _)
       |(s' & n' & A' & idc' & B' & w' & wv & name' & matrix
         & _ & _ & Hflat' & HB & _ & _ & Hname & Hcoo & ->)];
    [congruence|].
  rewrite Hflat in Hflat'. injection Hflat' as <- <- <- <- <-.
  destruct (flatten_block_shapes _ _ _ _ HsA HsI Hflat)
    as (Hn & Hlen & _ & width & HwA & HwI).
  destruct (coo_matrix_shape _ _ _ Hcoo) as (Hrows & Hcolumns & Hentries).
  assert (Hinside := coo_matrix_columns _ _ _ Hcoo).
  exists name', (mkSoft matrix (normalised_B A2 B2) wv).
  split; [exact Hname|].
  split; [cbn [constraints set_constraints]; apply dict_get_set_same|].
  cbn [blk_matrix blk_b].
  split; [congruence|]. split; [now apply normalised_B_length|].
  intros i Hi. set (row := nth i A2 []).
  assert (Hwidths : length (nth i idc2 []) = length (nth i (normalised_A A2) [])).
  { rewrite normalised_A_row_lengths by assumption.
    rewrite Forall_forall in HwA, HwI.
    rewrite (HwA (nth i A2 [])) by (apply nth_In; lia).
    apply HwI. apply nth_In. lia. }
  destruct (@sp_row_coo_triples (normalised_A A2) idc2 matrix i)
    as [Hrow Hcols]; trivial;
    try (now rewrite normalised_A_length).
  assert (Hfilter :
    filter (fun e : Z * Z * npfloat => (fst (fst e) =? Z.of_nat i)%Z)
           (sp_entries matrix)
    = zip_with (fun v j => (Z.of_nat i, j, v))
               (nth i (normalised_A A2) []) (nth i idc2 [])).
  { rewrite Hentries. unfold coo_triples.
    rewrite (@filter_coo_triples_from 0 (normalised_A A2) idc2 i)
      by now rewrite normalised_A_length.
    assert (H1 : (0 <=? i)%nat = true) by (apply Nat.leb_le; lia).
    assert (H2 : (i <? 0 + length (normalised_A A2))%nat = true)
      by (apply Nat.ltb_lt; rewrite normalised_A_length; lia).
    now rewrite H1, H2, Nat.sub_0_r. }
  assert (Hrange : Forall (fun j => index_in (sp_cols matrix) j = true)
                          (nth i idc2 [])).
  { rewrite <- Hcols, Hcolumns. unfold sp_row_cols. apply Forall_map.
    rewrite Hentries. rewrite Forall_forall in *.
    intros e He. apply Hinside. now apply filter_In in He. }
  rewrite Hrow in *. clear Hrow.
  revert Hfilter Hwidths.
  rewrite normalised_A_nth, normalised_B_nth by assumption.
  fold row. cbv zeta. intros Hfilter Hwidths. split.
  - intros l Hl Hl0.
    destruct (norm_row_is_real _ Hl) as (rs & Hrs & Hsqrt).
    assert (Hpos : (0 < l)%R)
      by (assert (H := sqrt_pos (sum_sq rs)); rewrite <- Hsqrt in H; lra).
    assert (Hgt : np_gt (FReal l) f0 = true) by (apply np_gt_real; exact Hpos).
    revert Hfilter Hwidths.
    rewrite Hl, !Hgt, Hrs, real_row_no_nan. intros Hfilter Hwidths.
    split; [reflexivity|]. split; [subst l; now apply norm_row_scaled|].
    split; [|reflexivity].
    intros Hnodup. rewrite np_div_real_row in Hfilter, Hwidths by assumption.
    rewrite (sp_dense_row_real _ _ _ _ Hfilter), norm_row_real.
    rewrite !length_map in Hwidths.
    rewrite sum_sq_dense
      by (rewrite ?length_map; assumption).
    rewrite sum_sq_scaled by assumption.
    assert (Hs : sum_sq rs <> 0%R).
    { intros E. rewrite E, sqrt_0 in Hsqrt. now apply Hl0. }
    rewrite Hsqrt at 1 2. rewrite sqrt_sqrt by apply sum_sq_nonneg.
    replace (sum_sq rs / sum_sq rs)%R with 1%R by (field; exact Hs).
    now rewrite sqrt_1.
  - intros Hzero. unfold f0 in Hzero.
    destruct (norm_row_is_real _ Hzero) as (rs & Hrs & Hsqrt).
    assert (Hgt : np_gt (FReal 0) f0 = false) by (apply np_gt_real_false; lra).
    revert Hfilter Hwidths.
    rewrite Hzero, !Hgt, Hrs, real_row_no_nan. intros Hfilter Hwidths.
    symmetry in Hsqrt. apply sqrt_eq_0 in Hsqrt; [|apply sum_sq_nonneg].
    assert (Hzeros := sum_sq_zero _ Hsqrt).
    split; [reflexivity|]. split; [|split; [|reflexivity]].
    + apply Forall_map. eapply Forall_impl; [|exact Hzeros].
      intros x ->. reflexivity.
    + rewrite (sp_dense_row_real _ _ _ _ Hfilter).
      apply Forall_map, Forall_map, Forall_forall. intros j _.
      unfold f0. f_equal. now apply col_sum_zeros.
Qed.

(** On a new interpolator no block is registered: the default call
    raises out of the assembly, with [c] all NaN and the flag as it
    was. *)
Lemma solve_system_default_solver_witness :
  let self := init (line_support [0; 1]%R) false in
  let run := solve_system (zero_backend 0) (zero_backend 1) SolverNone tt self in
  fst run = Raised (ValueError "blocks must be 2-D")
  /\ c (snd run) = [FNaN; FNaN]
  /\ up_to_date (snd run) = false.
Proof.
  intros self run.
  destruct (solve_system_default_solver (zero_backend 0) (zero_backend 1) tt self)
    as (_ & Hraise & Hc & Hutd & _).
  split; [exact (Hraise eq_refl)|]. split; assumption.
Defined.

(** ** The collision policy on names without underscore *)

Lemma string_of_uint_all_digits (d : Decimal.uint) :
  all_digits (NilEmpty.string_of_uint d) = true.
Proof.
  unfold all_digits. induction d; cbn [NilEmpty.string_of_uint
    list_ascii_of_string forallb]; rewrite ?IHd; reflexivity.
Qed.

Lemma parse_digits_acc (d : Decimal.uint) (p : positive) :
  parse_digits (Z.pos p) (NilEmpty.string_of_uint d)
  = Some (Z.pos (Pos.of_uint_acc d p)).
Proof.
  revert p. induction d; intros p;
    cbn [NilEmpty.string_of_uint parse_digits Pos.of_uint_acc];
    [reflexivity|..];
    match goal with
    | |- context [digit_of ?ch] =>
        let v := eval cbv in (digit_of ch) in change (digit_of ch) with v
    end;
    cbv beta iota;
    match goal with
    | |- parse_digits ?a _ = Some (Z.pos (Pos.of_uint_acc _ ?q)) =>
        replace a with (Z.pos q) by lia
    end;
    apply IHd.
Qed.

Lemma parse_digits_value (d : Decimal.uint) :
  parse_digits 0 (NilEmpty.string_of_uint d) = Some (Z.of_uint d).
Proof.
  unfold Z.of_uint.
  induction d; cbn [NilEmpty.string_of_uint parse_digits Pos.of_uint Z.of_N];
    [reflexivity|..];
    match goal with
    | |- context [digit_of ?ch] =>
        let v := eval cbv in (digit_of ch) in change (digit_of ch) with v
    end;
    cbv beta iota;
    [exact IHd|..];
    match goal with
    | |- parse_digits ?a _ = Some (Z.pos (Pos.of_uint_acc _ ?q)) =>
        change a with (Z.pos q)
    end;
    apply parse_digits_acc.
Qed.

Lemma digit_is_not_space (ch : ascii) : is_digit ch = true -> is_space ch = false.
Proof.
  unfold is_digit, digit_of, is_space.
  destruct ((48 <=? nat_of_ascii ch)%nat && (nat_of_ascii ch <=? 57)%nat) eqn:E;
    [|discriminate].
  intros _. apply andb_true_iff in E. destruct E as [H1 H2].
  apply Nat.leb_le in H1. apply Nat.leb_le in H2.
  apply orb_false_iff. split; apply andb_false_iff.
  - right. apply Nat.leb_gt. lia.
  - right. apply Nat.leb_gt. lia.
Qed.

Lemma lstrip_digits (s : string) : all_digits s = true -> lstrip s = s.
Proof.
  unfold all_digits. destruct s as [|ch s]; [reflexivity|].
  cbn [list_ascii_of_string forallb lstrip]. intros [H _]%andb_true_iff.
  now rewrite (digit_is_not_space _ H).
Qed.

Lemma string_rev_digits (s : string) :
  all_digits s = true -> all_digits (string_rev s) = true.
Proof.
  unfold all_digits, string_rev. rewrite list_ascii_of_string_of_list_ascii.
  rewrite !forallb_forall. intros H ch Hin. apply H. now apply in_rev.
Qed.

Lemma string_rev_involutive (s : string) : string_rev (string_rev s) = s.
Proof.
  unfold string_rev.
  now rewrite list_ascii_of_string_of_list_ascii, rev_involutive,
    string_of_list_ascii_of_string.
Qed.

Lemma strip_digits (s : string) : all_digits s = true -> strip s = s.
Proof.
  intros H. unfold strip.
  rewrite (lstrip_digits _ H), (lstrip_digits _ (string_rev_digits _ H)).
  apply string_rev_involutive.
Qed.

(** Reading back the decimal form of a natural number. *)
Lemma py_int_of_str (k : Z) : (0 <= k)%Z -> py_int (py_str_of_int k) = Some k.
Proof.
  intros Hk. unfold py_str_of_int.
  assert (Hback := DecimalZ.of_to k).
  destruct (Z.to_int k) as [d|d] eqn:Hd.
  - cbn [NilEmpty.string_of_int Z.of_int] in *.
    unfold py_int. rewrite (strip_digits _ (string_of_uint_all_digits d)).
    assert (Hvalue := parse_digits_value d). rewrite Hback in Hvalue.
    assert (Hdigits := string_of_uint_all_digits d).
    destruct (NilEmpty.string_of_uint d) as [|ch s] eqn:Hs.
    + destruct d; try discriminate Hs.
      destruct k; cbn in Hd, Hback; discriminate.
    + unfold all_digits in Hdigits. cbn [list_ascii_of_string forallb] in Hdigits.
      apply andb_true_iff in Hdigits. destruct Hdigits as [Hch _].
      assert (Hplus : ch <> "+"%char) by (intros ->; discriminate).
      assert (Hminus : ch <> "-"%char) by (intros ->; discriminate).
      unfold parse_nat in *.
      destruct ch as [[] [] [] [] [] [] [] []]; try exact Hvalue;
        congruence.
  - destruct k; cbn in Hd; try discriminate. lia.
Qed.

Lemma has_underscore_suffixed (base_name : string) (k : Z) :
  has_underscore (suffixed base_name k) = true.
Proof.
  unfold suffixed. induction base_name as [|ch s IH]; [reflexivity|].
  cbn [append has_underscore]. now destruct (Ascii.eqb ch underscore).
Qed.

Lemma digits_have_no_underscore (s : string) :
  all_digits s = true -> has_underscore s = false.
Proof.
  unfold all_digits. induction s as [|ch s IH]; [reflexivity|].
  cbn [list_ascii_of_string forallb has_underscore].
  intros [Hch Hs]%andb_true_iff.
  destruct (Ascii.eqb ch underscore) eqn:E; [|auto].
  apply Ascii.eqb_eq in E. subst ch. discriminate.
Qed.

Lemma split_underscore_plain (s : string) :
  has_underscore s = false -> split_underscore s = [s].
Proof.
  induction s as [|ch s IH]; [reflexivity|].
  cbn [has_underscore split_underscore].
  destruct (Ascii.eqb ch underscore); [discriminate|].
  intros H. now rewrite (IH H).
Qed.

Lemma split_underscore_suffixed (base_name : string) (k : Z) :
  has_underscore base_name = false -> (0 <= k)%Z ->
  split_underscore (suffixed base_name k) = [base_name; py_str_of_int k].
Proof.
  intros Hbase Hk. unfold suffixed.
  change ("_" ++ py_str_of_int k)%string with (String "_" (py_str_of_int k)).
  induction base_name as [|ch s IH].
  - cbn [append split_underscore]. change "_"%char with underscore.
    rewrite Ascii.eqb_refl.
    rewrite split_underscore_plain; [reflexivity|].
    apply digits_have_no_underscore. unfold py_str_of_int.
    destruct k; cbn [Z.to_int NilEmpty.string_of_int];
      try apply string_of_uint_all_digits. lia.
  - cbn [has_underscore] in Hbase. cbn [append split_underscore].
    destruct (Ascii.eqb ch underscore); [discriminate|].
    now rewrite (IH Hbase).
Qed.

(** After a collision on a suffixed name the next suffix is tried. *)
Lemma next_count_suffixed (base_name : string) (k : Z) :
  has_underscore base_name = false -> (0 <= k)%Z ->
  next_count (suffixed base_name k) = Returned (k + 1)%Z.
Proof.
  intros Hbase Hk. unfold next_count.
  rewrite has_underscore_suffixed, split_underscore_suffixed by assumption.
  cbn [nth]. now rewrite py_int_of_str.
Qed.

Lemma next_count_plain (base_name : string) :
  has_underscore base_name = false -> next_count base_name = Returned 0%Z.
Proof. intros H. unfold next_count. now rewrite H. Qed.

Lemma suffixed_injective (base_name : string) (j k : Z) :
  has_underscore base_name = false -> (0 <= j)%Z -> (0 <= k)%Z ->
  suffixed base_name j = suffixed base_name k -> j = k.
Proof.
  intros Hbase Hj Hk Heq.
  assert (H : next_count (suffixed base_name j) = next_count (suffixed base_name k))
    by now rewrite Heq.
  rewrite !next_count_suffixed in H by assumption. injection H. lia.
Qed.

Lemma suffixed_not_plain (base_name : string) (k : Z) :
  has_underscore base_name = false -> suffixed base_name k <> base_name.
Proof.
  intros Hbase Heq. assert (H := has_underscore_suffixed base_name k).
  rewrite Heq in H. congruence.
Qed.

(** From the suffix [j] the loop walks up to the first free suffix. *)
Lemma unique_name_from_suffix {V : Type} (base_name : string) (registry : dict V)
  (n : nat) (j : Z) (fuel : nat) :
  has_underscore base_name = false -> (0 <= j)%Z ->
  (forall i, (j <= i < j + Z.of_nat n)%Z ->
             dict_mem (suffixed base_name i) registry = true) ->
  dict_mem (suffixed base_name (j + Z.of_nat n)) registry = false ->
  n <= fuel ->
  unique_name fuel base_name (suffixed base_name j) registry
  = Returned (suffixed base_name (j + Z.of_nat n)).
Proof.
  intros Hbase. revert j fuel.
  induction n as [|n IH]; intros j fuel Hj Htaken Hfree Hfuel.
  - replace (j + Z.of_nat 0)%Z with j in * by lia.
    destruct fuel; cbn [unique_name]; now rewrite Hfree.
  - destruct fuel as [|fuel]; [lia|]. cbn [unique_name].
    rewrite (Htaken j) by lia.
    rewrite next_count_suffixed by assumption.
    fold (suffixed base_name (j + 1)).
    replace (j + Z.of_nat (S n))%Z with (j + 1 + Z.of_nat n)%Z in * by lia.
    apply IH; try lia; try assumption.
    intros i Hi. apply Htaken. lia.
Qed.

(** On a name without underscore that is taken together with its
    suffixes 0 to [n - 1], the loop settles on the suffix [n]. *)
Lemma unique_name_counts {V : Type} (base_name : string) (registry : dict V)
  (n fuel : nat) :
  has_underscore base_name = false ->
  dict_mem base_name registry = true ->
  (forall i, (0 <= i < Z.of_nat n)%Z ->
             dict_mem (suffixed base_name i) registry = true) ->
  dict_mem (suffixed base_name (Z.of_nat n)) registry = false ->
  n < fuel ->
  unique_name fuel base_name base_name registry
  = Returned (suffixed base_name (Z.of_nat n)).
Proof.
  intros Hbase Hmem Htaken Hfree Hfuel.
  destruct fuel as [|fuel]; [lia|]. cbn [unique_name].
  rewrite Hmem, next_count_plain by assumption.
  fold (suffixed base_name 0).
  apply (@unique_name_from_suffix V base_name registry n 0%Z fuel); trivial;
    try lia.
Qed.

Lemma dict_mem_In {V : Type} (key : string) (d : dict V) :
  dict_mem key d = true <-> In key (dict_keys d).
Proof.
  unfold dict_keys. induction d as [|[k v] d IH]; cbn [dict_mem map In fst].
  - split; [discriminate|tauto].
  - destruct (String.eqb k key) eqn:E.
    + apply String.eqb_eq in E. tauto.
    + apply String.eqb_neq in E. rewrite IH. tauto.
Qed.

Lemma dict_keys_set_new {V : Type} (key : string) (v : V) (d : dict V) :
  dict_mem key d = false -> dict_keys (dict_set key v d) = dict_keys d ++ [key].
Proof.
  unfold dict_keys. induction d as [|[k v'] d IH]; cbn [dict_mem dict_set map fst];
    [reflexivity|].
  destruct (String.eqb k key); [discriminate|].
  intros H. cbn [map fst app]. now rewrite IH.
Qed.

(** The policy on a name without underscore: registered once and then
    [n] more times on an empty registry, it is stored under itself and
    under the suffixes 0 to [n - 1], in that order. *)
Lemma add_named_repeat_keys (fuel : nat) (name : string) (n : nat)
  (self : DiscreteInterpolator) :
  has_underscore name = false ->
  index_in (nx self) 0 = true ->
  constraints self = [] ->
  n <= fuel ->
  dict_keys (constraints (add_named_repeat fuel name (S n) self))
  = name :: map (fun i => suffixed name (Z.of_nat i)) (seq 0 n).
Proof.
  intros Hname Hnx Hempty Hfuel.
  assert (Hgen : forall k m st,
             index_in (nx st) 0 = true ->
             dict_keys (constraints st)
             = name :: map (fun i => suffixed name (Z.of_nat i)) (seq 0 m) ->
             m + k <= fuel ->
             dict_keys (constraints (add_named_repeat fuel name k st))
             = name :: map (fun i => suffixed name (Z.of_nat i)) (seq 0 (m + k))).
  { induction k as [|k IH]; intros m st Hst Hkeys Hle.
    - now rewrite Nat.add_0_r.
    - cbn [add_named_repeat].
      destruct (add_named_outcome fuel name st Hst) as [blk ->].
      assert (Hloop : unique_name fuel name name (constraints st)
                      = Returned (suffixed name (Z.of_nat m))).
      { apply unique_name_counts; trivial; try lia.
        - apply dict_mem_In. rewrite Hkeys. now left.
        - intros i Hi. apply dict_mem_In. rewrite Hkeys. right.
          apply in_map_iff. exists (Z.to_nat i).
          split; [now rewrite Z2Nat.id by lia|]. apply in_seq. lia.
        - destruct (dict_mem (suffixed name (Z.of_nat m)) (constraints st)) eqn:E;
            [|reflexivity].
          apply dict_mem_In in E. rewrite Hkeys in E. destruct E as [E|E].
          + symmetry in E. now apply suffixed_not_plain in E.
          + apply in_map_iff in E. destruct E as (i & E & Hi).
            apply in_seq in Hi. apply suffixed_injective in E; trivial; lia. }
      rewrite Hloop. cbn [snd].
      replace (m + S k) with (S m + k) by lia. apply IH.
      + exact Hst.
      + cbn [constraints set_constraints].
        rewrite dict_keys_set_new by exact (unique_name_fresh _ _ _ _ Hloop).
        rewrite Hkeys, seq_S, map_app. reflexivity.
      + lia. }
  cbn [add_named_repeat].
  destruct (add_named_outcome fuel name self Hnx) as [blk ->].
  rewrite Hempty. destruct fuel; cbn [unique_name dict_mem snd];
    apply (Hgen n 0); trivial; lia.
Qed.

(** ** The constructor *)

Lemma mask_select_all_on {X : Type} (a : list X) :
  mask_select (repeat true (length a)) a = a.
Proof. induction a as [|x a IH]; cbn; [reflexivity|now rewrite IH]. Qed.

Lemma mask_assign_all_on {X : Type} (a vals : list X) :
  length vals = length a ->
  mask_assign a (repeat true (length a)) vals = vals.
Proof.
  revert vals. induction a as [|x a IH]; intros [|v vals] H; cbn in *;
    try discriminate; try reflexivity.
  now rewrite IH by lia.
Qed.

Lemma region_all_active (self : DiscreteInterpolator) :
  (forall p, region_function self p = true) ->
  region self = repeat true (n_nodes (support self)).
Proof.
  intros H. unfold region, n_nodes.
  induction (nodes (support self)) as [|p l IH]; cbn; [reflexivity|].
  now rewrite H, IH.
Qed.

Lemma all_active_renumbering (self : DiscreteInterpolator) :
  (forall p, region_function self p = true) ->
  nx self = n_nodes (support self)
  /\ region_map self = np_arange 0 (n_nodes (support self))
  /\ gi self = np_arange 0 (n_nodes (support self)).
Proof.
  intros H. assert (Hr := region_all_active self H).
  assert (Hnx : nx self = n_nodes (support self)).
  { unfold nx. rewrite Hr. unfold n_nodes. now rewrite mask_select_all_on. }
  split; [exact Hnx|]. split.
  - unfold region_map. rewrite Hr.
    set (n := n_nodes (support self)).
    assert (Hsel : mask_select (repeat true n) (repeat 0%Z n) = repeat 0%Z n).
    { rewrite <- (repeat_length 0%Z n) at 1. apply mask_select_all_on. }
    rewrite Hsel, repeat_length.
    rewrite <- (repeat_length 0%Z n) at 2. apply mask_assign_all_on.
    now rewrite np_arange_length, repeat_length.
  - unfold gi. rewrite Hr, Hnx.
    set (n := n_nodes (support self)).
    assert (Hlen : length (map (fun _ : Z => (-1)%Z) (repeat 0%Z n)) = n)
      by now rewrite length_map, repeat_length.
    rewrite <- Hlen at 2. apply mask_assign_all_on.
    now rewrite np_arange_length, Hlen.
Qed.

(** X1: the constructor ignores its argument [c]: for [None] and for a
    sequence of any length the new object is the same, with [c] all
    zeros of length [n_nodes] (a plain number raises [IndexError]); every
    node of a new object is active, so [nx] is [n_nodes] and the region
    maps are the identity; the registries are empty and the solver
    attribute is ["cg"]. *)
Theorem init_ignores_c (s : Support) (c0 : c_arg) (utd : bool) :
  init_with_c s c0 utd
  = match c0 with
    | CScalar _ => Raised (IndexError "tuple index out of range")
    | _ => Returned (init s utd)
    end
  /\ c (init s utd) = repeat f0 (n_nodes s)
  /\ region (init s utd) = repeat true (n_nodes s)
  /\ nx (init s utd) = n_nodes s
  /\ region_map (init s utd) = np_arange 0 (n_nodes s)
  /\ gi (init s utd) = np_arange 0 (n_nodes s)
  /\ constraints (init s utd) = []
  /\ equal_constraints (init s utd) = []
  /\ eq_const_c (init s utd) = 0
  /\ solver (init s utd) = SolverStr "cg"
  /\ up_to_date (init s utd) = utd.
Proof.
  split.
  - destruct c0 as [|x|v]; try reflexivity.
    unfold init_with_c, c_shape0, obind.
    destruct (Nat.eqb (length v) (n_nodes s)); reflexivity.
  - assert (H : forall p, region_function (init s utd) p = true) by reflexivity.
    destruct (all_active_renumbering (init s utd) H) as (Hnx & Hmap & Hgi).
    split; [reflexivity|]. split; [exact (region_all_active _ H)|].
    split; [exact Hnx|]. split; [exact Hmap|]. split; [exact Hgi|].
    repeat split.
Qed.

(** ** What no method changes *)

Lemma keeps_ret {A : Type} (a : A) : keeps_region (ret a).
Proof. intros self. repeat split. Qed.

Lemma keeps_raise {A : Type} (e : exn) : keeps_region (@raise A e).
Proof. intros self. repeat split. Qed.

Lemma keeps_lift {A : Type} (o : outcome A) : keeps_region (lift o).
Proof. intros self. repeat split. Qed.

Lemma keeps_get : keeps_region get.
Proof. intros self. repeat split. Qed.

Lemma keeps_log (e : event) : keeps_region (log e).
Proof. intros self. repeat split. Qed.

Lemma keeps_modify (f : DiscreteInterpolator -> DiscreteInterpolator) :
  (forall self, support (f self) = support self
                /\ region_function (f self) = region_function self
                /\ solver (f self) = solver self) ->
  keeps_region (modify f).
Proof. intros H self. apply H. Qed.

Lemma keeps_bind {A B : Type} (m : M A) (k : A -> M B) :
  keeps_region m -> (forall a, keeps_region (k a)) -> keeps_region (bind m k).
Proof.
  intros Hm Hk self. unfold bind.
  destruct (Hm self) as (H1 & H2 & H3).
  destruct (m self) as [[a| |] self1]; cbn [snd] in *.
  - destruct (Hk a self1) as (K1 & K2 & K3).
    rewrite K1, K2, K3. auto.
  - auto.
  - auto.
Qed.

Ltac keeps_step :=
  first
    [ apply keeps_ret | apply keeps_raise | apply keeps_lift | apply keeps_get
    | apply keeps_log
    | apply keeps_modify; intros; repeat split; reflexivity
    | apply keeps_bind; [|intros]
    | match goal with
      | |- keeps_region (if ?b then _ else _) => destruct b
      | |- keeps_region (match ?x with _ => _ end) => destruct x
      end ].

Ltac keeps := repeat keeps_step.

Lemma keeps_set_region (f : point -> bool) : keeps_region (set_region f).
Proof. unfold set_region. keeps. Qed.

Lemma keeps_set_interpolation_weights (weights : dict npfloat) :
  keeps_region (set_interpolation_weights weights).
Proof.
  induction weights as [|[key v] weights IH]; cbn [set_interpolation_weights].
  - keeps.
  - apply keeps_bind; [keeps|intros]. apply keeps_bind; [keeps|intros]. exact IH.
Qed.

Lemma keeps_reset : keeps_region reset.
Proof. unfold reset. keeps. Qed.

Lemma keeps_add_constraints (fuel : nat) (A : ndarray npfloat) (B : list npfloat)
  (idc : ndarray Z) (w : weight) (name : string) :
  keeps_region (add_constraints_to_least_squares fuel A B idc w name).
Proof. unfold add_constraints_to_least_squares. keeps. Qed.

Lemma keeps_add_equality_constraints (node_idx : list Z) (values : list npfloat)
  (name : string) :
  keeps_region (add_equality_constraints node_idx values name).
Proof. unfold add_equality_constraints. keeps. Qed.

Lemma keeps_build_matrix : keeps_region build_matrix.
Proof. unfold build_matrix. keeps. Qed.

Lemma keeps_add_equality_block (A : sparse) (B : list npfloat) :
  keeps_region (add_equality_block A B).
Proof. unfold add_equality_block. keeps. Qed.

Section KeepsSolver.

Variable kwargs : Type.
Variable no_kwargs : kwargs.
Variable sla_cg : sparse -> list npfloat -> kwargs -> list npfloat * Z.
Variable sla_lsmr : sparse -> list npfloat -> kwargs -> list npfloat * Z.
Variable setup_hook : DiscreteInterpolator -> DiscreteInterpolator.

Lemma keeps_solve_system (solver : solver_arg) (kw : kwargs) :
  keeps_region (solve_system sla_cg sla_lsmr solver kw).
Proof.
  unfold solve_system.
  apply keeps_bind; [keeps|intros]. apply keeps_bind; [keeps|intros].
  apply keeps_bind; [keeps|intros]. apply keeps_bind; [keeps|intros].
  apply keeps_bind; [apply keeps_build_matrix|intros].
  unfold dispatch_solver, solve_custom, known_solver, solve_cg, solve_lsmr.
  keeps.
Qed.

Lemma keeps_update : keeps_region (update no_kwargs sla_cg sla_lsmr setup_hook).
Proof.
  unfold update. apply keeps_bind; [keeps|intros self0].
  assert (Hsetup : keeps_region (setup_interpolator setup_hook)).
  { unfold setup_interpolator. keeps. }
  assert (Hrun : keeps_region
            (if negb (up_to_date self0) then
               bind (setup_interpolator setup_hook) (fun _ =>
               bind get (fun self =>
               bind (solve_system sla_cg sla_lsmr (solver self) no_kwargs) (fun r =>
               ret (Some r))))
             else ret None)).
  { destruct (negb (up_to_date self0)); [|keeps].
    apply keeps_bind; [exact Hsetup|intros].
    apply keeps_bind; [keeps|intros].
    apply keeps_bind; [apply keeps_solve_system|intros]. keeps. }
  destruct (solver self0); try exact Hrun. keeps.
Qed.

Lemma keeps_after_call (self : DiscreteInterpolator) (k : lazy_call) :
  support (after_call no_kwargs sla_cg sla_lsmr setup_hook self k) = support self
  /\ region_function (after_call no_kwargs sla_cg sla_lsmr setup_hook self k)
     = region_function self
  /\ solver (after_call no_kwargs sla_cg sla_lsmr setup_hook self k) = solver self.
Proof.
  destruct k as [|l|l]; cbn [after_call].
  - apply keeps_update.
  - assert (H : keeps_region (evaluate_value no_kwargs sla_cg sla_lsmr setup_hook l)).
    { unfold evaluate_value. apply keeps_bind; [apply keeps_update|intros]. keeps. }
    apply H.
  - assert (H : keeps_region (evaluate_gradient no_kwargs sla_cg sla_lsmr setup_hook l)).
    { unfold evaluate_gradient. apply keeps_bind; [apply keeps_update|intros]. keeps. }
    apply H.
Qed.

Lemma keeps_after_method (self : DiscreteInterpolator) (k : method_call kwargs) :
  support (after_method no_kwargs sla_cg sla_lsmr setup_hook self k) = support self
  /\ region_function (after_method no_kwargs sla_cg sla_lsmr setup_hook self k)
     = region_function self
  /\ solver (after_method no_kwargs sla_cg sla_lsmr setup_hook self k) = solver self.
Proof.
  destruct k; cbn [after_method].
  - apply keeps_set_region.
  - apply keeps_set_interpolation_weights.
  - apply keeps_reset.
  - apply keeps_add_constraints.
  - apply keeps_add_equality_constraints.
  - apply keeps_build_matrix.
  - apply keeps_add_equality_block.
  - apply keeps_solve_system.
  - apply keeps_after_call.
Qed.

Lemma keeps_after_methods (ks : list (method_call kwargs)) (self : DiscreteInterpolator) :
  support (after_methods no_kwargs sla_cg sla_lsmr setup_hook self ks) = support self
  /\ region_function (after_methods no_kwargs sla_cg sla_lsmr setup_hook self ks)
     = region_function self
  /\ solver (after_methods no_kwargs sla_cg sla_lsmr setup_hook self ks) = solver self.
Proof.
  revert self. induction ks as [|k ks IH]; intros self; cbn [after_methods fold_left].
  - auto.
  - destruct (IH (after_method no_kwargs sla_cg sla_lsmr setup_hook self k))
      as (H1 & H2 & H3).
    destruct (keeps_after_method self k) as (K1 & K2 & K3).
    unfold after_methods in *. rewrite H1, H2, H3. auto.
Qed.

End KeepsSolver.

Lemma renumbering_same_support (self self' : DiscreteInterpolator) :
  support self' = support self -> region_function self' = region_function self ->
  region self' = region self /\ nx self' = nx self
  /\ region_map self' = region_map self /\ gi self' = gi self.
Proof.
  intros Hs Hf. unfold gi, region_map, nx, region. now rewrite Hs, Hf.
Qed.

(** X2: no method of the class changes the support, the region function
    or the solver attribute, whatever it gives back ([set_region]
    included, whose assignment is commented out): after any sequence of
    calls the region mask, [nx] and the region maps are what they were,
    and on an object made by the constructor [nx] stays [n_nodes] and
    the solver attribute stays ["cg"]. *)
Theorem methods_never_change_region
  (kwargs : Type) (no_kwargs : kwargs)
  (sla_cg sla_lsmr : sparse -> list npfloat -> kwargs -> list npfloat * Z)
  (setup_hook : DiscreteInterpolator -> DiscreteInterpolator)
  (self : DiscreteInterpolator) (calls : list (method_call kwargs)) :
  let after := after_methods no_kwargs sla_cg sla_lsmr setup_hook in
  support (after self calls) = support self
  /\ region_function (after self calls) = region_function self
  /\ solver (after self calls) = solver self
  /\ region (after self calls) = region self
  /\ nx (after self calls) = nx self
  /\ region_map (after self calls) = region_map self
  /\ gi (after self calls) = gi self
  /\ (forall region,
        nx (snd (set_region region self)) = nx self
        /\ region_function (snd (set_region region self)) = region_function self)
  /\ (forall s utd,
        nx (after (init s utd) calls) = n_nodes s
        /\ solver (after (init s utd) calls) = SolverStr "cg").
Proof.
  intros after.
  destruct (keeps_after_methods no_kwargs sla_cg sla_lsmr setup_hook calls self)
    as (H1 & H2 & H3).
  destruct (renumbering_same_support _ _ H1 H2) as (R1 & R2 & R3 & R4).
  repeat (split; [assumption|]). split.
  - intros f. destruct (keeps_set_region f self) as (K1 & K2 & _).
    split; [|exact K2]. now apply renumbering_same_support.
  - intros s utd.
    destruct (keeps_after_methods no_kwargs sla_cg sla_lsmr setup_hook calls (init s utd))
      as (K1 & K2 & K3).
    destruct (renumbering_same_support _ _ K1 K2) as (_ & Q & _).
    split; [|exact K3]. unfold after. rewrite Q.
    apply (all_active_renumbering (init s utd)). reflexivity.
Qed.

(** ** Interpolation weights and reset *)

Lemma dict_get_absent {V : Type} (key : string) (d : dict V) :
  ~ In key (dict_keys d) -> dict_get key d = None.
Proof.
  unfold dict_keys. induction d as [|[k v] d IH]; cbn; [reflexivity|].
  intros H. destruct (String.eqb k key) eqn:E.
  - apply String.eqb_eq in E. tauto.
  - apply IH. tauto.
Qed.

(** X3: [set_interpolation_weights] stores every entry of its argument
    and keeps the entries under other keys; it marks the object stale,
    except for an empty argument, which leaves the object as it is; the
    solution, the registries and the log are not touched. *)
Theorem set_interpolation_weights_lookup (weights : dict npfloat)
  (self : DiscreteInterpolator) :
  NoDup (dict_keys weights) ->
  exists self',
    set_interpolation_weights weights self = (Returned tt, self')
    /\ (forall key,
          dict_get key (interpolation_weights self')
          = match dict_get key weights with
            | Some v => Some v
            | None => dict_get key (interpolation_weights self)
            end)
    /\ up_to_date self' = (if Nat.eqb (length weights) 0 then up_to_date self
                           else false)
    /\ (weights = [] -> self' = self)
    /\ c self' = c self
    /\ constraints self' = constraints self
    /\ equal_constraints self' = equal_constraints self
    /\ trace self' = trace self.
Proof.
  revert self. induction weights as [|[k v] weights IH]; intros self Hnd.
  - exists self. cbn. repeat split.
  - inversion Hnd as [|k' l Hnotin Hnd']; subst.
    destruct (IH (set_interpolation_weight k v (set_up_to_date false self)) Hnd')
      as (self' & Hrun & Hget & Hutd & _ & Hc & Hcs & Heq & Htr).
    exists self'. split; [exact Hrun|]. split.
    + intros key. rewrite Hget. cbn [dict_get].
      destruct (String.eqb k key) eqn:E.
      * apply String.eqb_eq in E. subst key.
        rewrite (dict_get_absent _ _ Hnotin).
        cbn [interpolation_weights set_interpolation_weight].
        apply dict_get_set_same.
      * apply String.eqb_neq in E.
        destruct (dict_get key weights); [reflexivity|].
        cbn [interpolation_weights set_interpolation_weight set_up_to_date].
        apply dict_get_set_other. congruence.
    + split.
      * rewrite Hutd. cbn [length Nat.eqb]. now destruct (Nat.eqb (length weights) 0).
      * split; [discriminate|]. rewrite Hc, Hcs, Heq, Htr. repeat split.
Qed.

Lemma set_interpolation_weights_lookup_witness :
  exists self',
    set_interpolation_weights [("gpw", FReal 2); ("cpw", f1)]
      (init (line_support [0; 1]%R) true) = (Returned tt, self')
    /\ dict_get "cpw" (interpolation_weights self') = Some f1
    /\ up_to_date self' = false.
Proof.
  assert (Hnd : NoDup (dict_keys [("gpw", FReal 2); ("cpw", f1)])).
  { repeat constructor; cbn; intuition discriminate. }
  destruct (@set_interpolation_weights_lookup _
              (init (line_support [0; 1]%R) true) Hnd)
    as (self' & Hrun & Hget & Hutd & _).
  exists self'. split; [exact Hrun|]. split; [|exact Hutd].
  rewrite Hget. reflexivity.
Defined.

(** X4: [reset] empties the soft-constraint registry and the counter
    [c_] and nothing else: the equality constraints, their row counter,
    the weights, the solution [c] and the flag [up_to_date] stay, so an
    up-to-date object is not solved again after a reset and keeps
    answering from the solution of the constraints that were removed. *)
Theorem reset_keeps_solution
  (kwargs : Type) (no_kwargs : kwargs)
  (sla_cg sla_lsmr : sparse -> list npfloat -> kwargs -> list npfloat * Z)
  (setup_hook : DiscreteInterpolator -> DiscreteInterpolator)
  (self : DiscreteInterpolator) :
  let self' := snd (reset self) in
  fst (reset self) = Returned tt
  /\ constraints self' = []
  /\ c_ self' = 0%Z
  /\ c self' = c self
  /\ up_to_date self' = up_to_date self
  /\ equal_constraints self' = equal_constraints self
  /\ eq_const_c self' = eq_const_c self
  /\ interpolation_weights self' = interpolation_weights self
  /\ (up_to_date self = true -> solver self <> SolverNone ->
      update no_kwargs sla_cg sla_lsmr setup_hook self' = (Returned None, self')
      /\ forall locations,
           locations <> [] ->
           length (support_evaluate_value (support self) locations (c self))
           = length locations ->
           evaluate_value no_kwargs sla_cg sla_lsmr setup_hook locations self'
           = (Returned (support_evaluate_value (support self) locations (c self)),
              self')).
Proof.
  intros self'. repeat (split; [reflexivity|]).
  intros Hutd Hsolver. split.
  - now apply update_up_to_date.
  - intros locations Hne Hlen.
    now apply (@evaluate_value_queries_every_point kwargs no_kwargs sla_cg sla_lsmr
                 setup_hook self' locations).
Qed.

Lemma reset_keeps_solution_witness :
  let self := set_up_to_date true one_block_interpolator in
  constraints (snd (reset self)) = []
  /\ update tt (zero_backend 0) (zero_backend 1) (fun s => s) (snd (reset self))
     = (Returned None, snd (reset self)).
Proof.
  intros self.
  destruct (@reset_keeps_solution unit tt (zero_backend 0) (zero_backend 1)
              (fun s => s) self)
    as (_ & Hc & _ & _ & _ & _ & _ & _ & Hup).
  split; [exact Hc|]. apply Hup; [reflexivity|discriminate].
Defined.

Lemma solve_system_assembly_raises
  (kwargs : Type) (sla_cg sla_lsmr : sparse -> list npfloat -> kwargs -> list npfloat * Z)
  (solver : solver_arg) (kw : kwargs) (self : DiscreteInterpolator) (e : exn) :
  assembled self = Raised e ->
  fst (solve_system sla_cg sla_lsmr solver kw self) = Raised e
  /\ same_attributes (reset_c self) (snd (solve_system sla_cg sla_lsmr solver kw self)).
Proof.
  intros He. rewrite solve_system_unfold. unfold bind.
  assert (Ho := build_matrix_outcome (reset_c self)).
  assert (Hs := build_matrix_state (reset_c self)).
  rewrite assembled_reset_c, He in Ho.
  destruct (build_matrix (reset_c self)) as [o s1]. cbn [fst snd] in *.
  subst o. cbn [fst snd]. split; [reflexivity|exact Hs].
Qed.

(** X5: after [reset], [solve_system] raises [ValueError] for every
    solver argument (a callable, ["cg"], ["lsmr"] or none): the matrix
    assembly has no block to stack.  The call has already overwritten
    the solution with NaN; it runs no backend and leaves [up_to_date]
    as it was. *)
Theorem solve_system_after_reset
  (kwargs : Type) (sla_cg sla_lsmr : sparse -> list npfloat -> kwargs -> list npfloat * Z)
  (solver : solver_arg) (kw : kwargs) (self : DiscreteInterpolator) :
  let run := solve_system sla_cg sla_lsmr solver kw (snd (reset self)) in
  fst run = Raised (ValueError "blocks must be 2-D")
  /\ c (snd run) = repeat FNaN (n_nodes (support self))
  /\ up_to_date (snd run) = up_to_date self
  /\ solves (trace (snd run)) = solves (trace self).
Proof.
  intros run.
  assert (He : assembled (snd (reset self)) = Raised (ValueError "blocks must be 2-D"))
    by reflexivity.
  destruct (solve_system_assembly_raises sla_cg sla_lsmr solver kw _ He)
    as (Ho & _ & _ & Hc & Hu & _ & _ & _ & _ & _ & Hs).
  split; [exact Ho|]. split; [exact Hc|]. split; [exact Hu|].
  unfold run. rewrite Hs.
  change (solves (trace self ++ [LogDebug "Resetting interpolation constraints"])
          = solves (trace self)).
  rewrite solves_app. cbn. lia.
Qed.

(** ** Soft constraints: the calls that are refused *)

(** X6: when the coefficient array and the index array have different
    shapes, [add_constraints_to_least_squares] logs an error and returns
    without raising; nothing is registered and no other attribute
    changes. *)
Theorem add_constraints_shape_mismatch (fuel : nat) (A : ndarray npfloat)
  (B : list npfloat) (idc : ndarray Z) (w : weight) (name : string)
  (self : DiscreteInterpolator) (sa si : list nat) :
  np_shape A = Returned sa -> np_shape idc = Returned si -> sa <> si ->
  add_constraints_to_least_squares fuel A B idc w name self
  = (Returned tt,
     emit (LogError ("Cannot add constraints: A and indexes have different shape : "
                     ++ name)) self)
  /\ constraints (snd (add_constraints_to_least_squares fuel A B idc w name self))
     = constraints self.
Proof.
  intros HsA HsI Hne.
  assert (H : add_constraints_to_least_squares fuel A B idc w name self
              = (Returned tt,
                 emit (LogError ("Cannot add constraints: A and indexes have different shape : "
                                 ++ name)) self)).
  { unfold add_constraints_to_least_squares. run_method. rewrite HsA, HsI.
    destruct (list_eq_dec Nat.eq_dec sa si) as [Heq|_]; [contradiction|].
    reflexivity. }
  split; [exact H|]. now rewrite H.
Qed.

Lemma add_constraints_shape_mismatch_witness :
  constraints
    (snd (add_constraints_to_least_squares 1 (Arr2 [[f1; f1]]) [f1] (Arr2 [[0%Z]])
            (WScalar f1) "value" (init (line_support [0; 1]%R) false)))
  = [].
Proof.
  apply (@add_constraints_shape_mismatch 1 (Arr2 [[f1; f1]]) [f1] (Arr2 [[0%Z]])
           (WScalar f1) "value" (init (line_support [0; 1]%R) false) [1; 2] [1; 1]).
  - reflexivity.
  - reflexivity.
  - discriminate.
Defined.

(** X7: a weight argument that is neither a number nor an array raises
    [BaseException], and so does a weight array whose length is not the
    number of rows of the (flattened) block; in both cases the object is
    left exactly as it was. *)
Theorem add_constraints_refuses_weights (fuel : nat) (A : ndarray npfloat)
  (B : list npfloat) (idc : ndarray Z) (w : weight) (name : string)
  (self : DiscreteInterpolator) (s : list nat) (n_rows : nat)
  (A2 : list (list npfloat)) (idc2 : list (list Z)) (B2 : list npfloat)
  (w2 : weight) :
  np_shape A = Returned s -> np_shape idc = Returned s ->
  flatten_block A idc B w = Returned (n_rows, A2, idc2, B2, w2) ->
  length B2 = length A2 ->
  (w2 = WOther ->
   add_constraints_to_least_squares fuel A B idc w name self
   = (Raised (BaseException "w must be a numpy array"), self))
  /\ (forall wa, w2 = WArray wa -> length wa <> length A2 ->
      add_constraints_to_least_squares fuel A B idc w name self
      = (Raised (BaseException "Weight array does not match number of constraints"),
         self)).
Proof.
  intros HsA HsI Hflat HB. split.
  - intros ->. unfold add_constraints_to_least_squares. run_method.
    rewrite HsA, HsI.
    destruct (list_eq_dec Nat.eq_dec s s) as [_|Hne]; [|congruence]. cbn [negb].
    rewrite Hflat, length_map, HB, Nat.eqb_refl. reflexivity.
  - intros wa -> Hlen. unfold add_constraints_to_least_squares. run_method.
    rewrite HsA, HsI.
    destruct (list_eq_dec Nat.eq_dec s s) as [_|Hne]; [|congruence]. cbn [negb].
    rewrite Hflat, length_map, HB, Nat.eqb_refl. cbn [negb].
    fold (normalised_A A2). rewrite normalised_A_length.
    apply Nat.eqb_neq in Hlen. rewrite Hlen. reflexivity.
Qed.

Lemma add_constraints_refuses_weights_witness :
  add_constraints_to_least_squares 1 (Arr2 [[f1]; [f1]]) [f1; f1]
    (Arr2 [[0%Z]; [1%Z]]) (WArray [f1]) "value" (init (line_support [0; 1]%R) false)
  = (Raised (BaseException "Weight array does not match number of constraints"),
     init (line_support [0; 1]%R) false).
Proof.
  destruct (@add_constraints_refuses_weights 1 (Arr2 [[f1]; [f1]]) [f1; f1]
              (Arr2 [[0%Z]; [1%Z]]) (WArray [f1]) "value"
              (init (line_support [0; 1]%R) false) [2; 1] 2 [[f1]; [f1]]
              [[0%Z]; [1%Z]] [f1; f1] (WArray [f1])
              eq_refl eq_refl eq_refl eq_refl) as [_ H].
  apply (H [f1]); [reflexivity|]. cbn. lia.
Defined.

Lemma coo_triples_columns_from (start : nat) (A : list (list npfloat))
  (idc : list (list Z)) (width : nat) :
  length idc = length A ->
  Forall (fun row => length row = width) A ->
  Forall (fun row => length row = width) idc ->
  map (fun e : Z * Z * npfloat => snd (fst e))
      (concat (zip_with (fun k rc =>
                           zip_with (fun v j => (Z.of_nat k, j, v)) (fst rc) (snd rc))
                        (seq start (length A)) (combine A idc)))
  = concat idc.
Proof.
  revert start idc. induction A as [|row A IH]; intros start [|cols idc] Hlen HA HI;
    try discriminate; [reflexivity|].
  injection Hlen as Hlen. inversion HA; subst. inversion HI; subst.
  cbn [length seq combine zip_with concat fst snd].
  rewrite map_app, (IH (S start) idc Hlen) by assumption.
  f_equal. apply map_snd_row_triples. congruence.
Qed.

Lemma normalised_A_widths (A : list (list npfloat)) (width : nat) :
  Forall (fun row => length row = width) A ->
  Forall (fun row => length row = width) (normalised_A A).
Proof.
  intros H. apply Forall_forall. intros row Hin.
  destruct (In_nth _ _ [] Hin) as (i & Hi & <-).
  rewrite normalised_A_length in Hi.
  rewrite normalised_A_row_lengths by exact Hi.
  rewrite Forall_forall in H. apply H. now apply nth_In.
Qed.

Lemma forallb_Exists_false {X : Type} (f : X -> bool) (l : list X) :
  Exists (fun x => f x = false) l -> forallb f l = false.
Proof.
  intros H. destruct (forallb f l) eqn:E; [|reflexivity].
  rewrite forallb_forall in E. apply Exists_exists in H.
  destruct H as (x & Hin & Hx). rewrite (E x Hin) in Hx. discriminate.
Qed.

(** X8: a block of matching shapes one of whose column indices lies
    outside [0, nx) is refused by the sparse-matrix constructor: the call
    raises [ValueError] and registers nothing (the NaN warning, if any,
    has been logged by then). *)
Theorem add_constraints_column_out_of_range (fuel : nat) (A : ndarray npfloat)
  (B : list npfloat) (idc : ndarray Z) (w : weight) (name name' : string)
  (self : DiscreteInterpolator) (s : list nat) (n_rows : nat)
  (A2 : list (list npfloat)) (idc2 : list (list Z)) (B2 wv : list npfloat)
  (w2 : weight) :
  np_shape A = Returned s -> np_shape idc = Returned s ->
  flatten_block A idc B w = Returned (n_rows, A2, idc2, B2, w2) ->
  length B2 = length A2 ->
  weights_of w2 (length A2) = Some wv -> length wv = length A2 ->
  unique_name fuel name name (constraints self) = Returned name' ->
  Exists (fun j => index_in (nx self) j = false) (concat idc2) ->
  exists msg self',
    add_constraints_to_least_squares fuel A B idc w name self
    = (Raised (ValueError msg), self')
    /\ constraints self' = constraints self
    /\ c self' = c self
    /\ up_to_date self' = up_to_date self.
Proof.
  intros HsA HsI Hflat HB Hw Hwlen Hname Hcols.
  destruct (flatten_block_shapes _ _ _ _ HsA HsI Hflat)
    as (Hn & HlenI & _ & width & HwA & HwI).
  assert (Hcoo : coo_matrix (coo_triples (normalised_A A2) idc2) n_rows (nx self)
                 = Raised (ValueError "column index exceeds matrix dimensions")).
  { unfold coo_matrix.
    assert (Hrows : forallb (fun e : Z * Z * npfloat => index_in n_rows (fst (fst e)))
                            (coo_triples (normalised_A A2) idc2) = true).
    { apply forallb_forall. intros e Hin.
      assert (H := coo_triples_entries (normalised_A A2) idc2).
      rewrite normalised_A_length, <- Hn in H.
      rewrite Forall_forall in H. now apply H. }
    rewrite Hrows.
    assert (Hc : forallb (fun e : Z * Z * npfloat => index_in (nx self) (snd (fst e)))
                         (coo_triples (normalised_A A2) idc2) = false).
    { apply forallb_Exists_false.
      apply Exists_exists in Hcols. destruct Hcols as (j & Hin & Hj).
      assert (Hmap : map (fun e : Z * Z * npfloat => snd (fst e))
                         (coo_triples (normalised_A A2) idc2) = concat idc2).
      { unfold coo_triples.
        apply (@coo_triples_columns_from 0 (normalised_A A2) idc2 width).
        - now rewrite normalised_A_length.
        - now apply normalised_A_widths.
        - exact HwI. }
      rewrite <- Hmap in Hin. apply in_map_iff in Hin.
      destruct Hin as (e & He & Hin).
      apply Exists_exists. exists e. split; [exact Hin|]. now rewrite He. }
    now rewrite Hc. }
  unfold add_constraints_to_least_squares. run_method.
  rewrite HsA, HsI.
  destruct (list_eq_dec Nat.eq_dec s s) as [_|Hne]; [|congruence]. cbn [negb].
  rewrite Hflat, length_map, HB, Nat.eqb_refl. cbn [negb].
  fold (normalised_A A2). fold (normalised_B A2 B2).
  rewrite !normalised_A_length.
  fold (has_nan (normalised_A A2) idc2 (normalised_B A2 B2)).
  fold (nan_warning name).
  destruct w2 as [x|wa|]; cbn [weights_of] in Hw; [| |discriminate];
    injection Hw as <-; rewrite Hwlen, Nat.eqb_refl; cbn [negb];
    destruct (has_nan _ _ _); cbn [constraints emit];
    rewrite Hname;
    try change (nx (emit (nan_warning name) self)) with (nx self);
    rewrite Hcoo; do 2 eexists; (split; [reflexivity|]); repeat split.
Qed.

Lemma add_constraints_column_out_of_range_witness :
  exists msg self',
    add_constraints_to_least_squares 1 (Arr2 [[f1; f1]]) [f1] (Arr2 [[0; 2]]%Z)
      (WScalar f1) "value" (init (line_support [0; 1]%R) false)
    = (Raised (ValueError msg), self')
    /\ constraints self' = [].
Proof.
  destruct (@add_constraints_column_out_of_range 1 (Arr2 [[f1; f1]]) [f1]
              (Arr2 [[0; 2]]%Z) (WScalar f1) "value" "value"
              (init (line_support [0; 1]%R) false) [1; 2] 1 [[f1; f1]]
              [[0; 2]]%Z [f1] [np_mul f1 f1] (WScalar f1)
              eq_refl eq_refl eq_refl eq_refl eq_refl eq_refl eq_refl)
    as (msg & self' & Hrun & Hc & _).
  - apply Exists_cons_tl. apply Exists_cons_hd. reflexivity.
  - exists msg, self'. split; [exact Hrun|exact Hc].
Defined.

(** ** Soft constraints: weights of a three-dimensional block *)

Lemma concat_repeat_length {X : Type} (l : list X) (k : nat) :
  length (concat (repeat l k)) = k * length l.
Proof.
  induction k as [|k IH]; cbn [repeat concat]; [reflexivity|].
  rewrite length_app, IH. cbn. lia.
Qed.

(** [np.tile(w, k)] repeats the whole array: position [r] holds
    [w[r mod len(w)]]. *)
Lemma nth_tile {X : Type} (l : list X) (k r : nat) (d : X) :
  r < k * length l ->
  nth r (concat (repeat l k)) d = nth (r mod length l) l d.
Proof.
  revert r. induction k as [|k IH]; intros r Hr; [lia|].
  cbn [repeat concat].
  destruct (Nat.lt_ge_cases r (length l)) as [Hlt|Hge].
  - rewrite app_nth1 by exact Hlt. now rewrite Nat.mod_small.
  - rewrite app_nth2 by exact Hge.
    rewrite IH by (cbn in Hr; lia).
    f_equal.
    replace r with ((r - length l) + 1 * length l) at 2 by lia.
    now rewrite Nat.Div0.mod_add.
Qed.

(** X9: for a three-dimensional block of shape [(n0, n1, n2)] with a
    weight array of length [n0], the block is flattened to [n0 * n1]
    rows (row [i * n1 + j] for entry [(i, j)]) and the weight array is
    tiled [n1] times: the weight stored for row [i * n1 + j] is
    [w[(i * n1 + j) mod n0]]. *)
Theorem add_constraints_tiles_weights (fuel : nat)
  (a3 : list (list (list npfloat))) (i3 : list (list (list Z)))
  (B wa : list npfloat) (name name' : string) (self : DiscreteInterpolator)
  (n0 n1 n2 : nat) :
  np_shape (Arr3 a3) = Returned [n0; n1; n2] ->
  np_shape (Arr3 i3) = Returned [n0; n1; n2] ->
  length B = n0 * n1 -> length wa = n0 ->
  unique_name fuel name name (constraints self) = Returned name' ->
  Forall (fun j => index_in (nx self) j = true) (concat (concat i3)) ->
  exists self' blk,
    add_constraints_to_least_squares fuel (Arr3 a3) B (Arr3 i3) (WArray wa) name self
    = (Returned tt, self')
    /\ dict_get name' (constraints self') = Some blk
    /\ sp_rows (blk_matrix blk) = n0 * n1
    /\ sp_entries (blk_matrix blk) = coo_triples (normalised_A (concat a3)) (concat i3)
    /\ blk_w blk = concat (repeat wa n1)
    /\ length (blk_w blk) = n0 * n1
    /\ (forall i j, i < n0 -> j < n1 ->
          nth (i * n1 + j) (blk_w blk) FNaN = nth ((i * n1 + j) mod n0) wa FNaN).
Proof.
  intros HsA HsI HB Hwa Hname Hcols.
  assert (Hshape : length a3 = n0 /\ length (hd [] a3) = n1).
  { cbn [np_shape] in HsA. destruct (rectangular3 a3); [|discriminate].
    injection HsA as H0 H1 _. now split. }
  destruct Hshape as [H0 H1].
  assert (Hflat : flatten_block (Arr3 a3) (Arr3 i3) B (WArray wa)
                  = Returned (n0 * n1, concat a3, concat i3, B,
                              WArray (concat (repeat wa n1)))).
  { cbn [flatten_block]. rewrite H0, H1, HB, Nat.eqb_refl. reflexivity. }
  destruct (flatten_block_shapes _ _ _ _ HsA HsI Hflat) as (Hn & _ & _ & _).
  assert (Hlen : length (concat (repeat wa n1)) = length (concat a3)).
  { rewrite concat_repeat_length, Hwa, <- Hn. lia. }
  assert (Hrun := @add_constraints_stores fuel (Arr3 a3) B (Arr3 i3) (WArray wa)
                    name name' self [n0; n1; n2] (n0 * n1) (concat a3) (concat i3)
                    B (concat (repeat wa n1)) (WArray (concat (repeat wa n1)))
                    HsA HsI Hflat (eq_trans HB Hn) eq_refl Hlen Hname Hcols).
  eexists. eexists. split; [exact Hrun|].
  cbn [constraints set_constraints]. split; [apply dict_get_set_same|].
  cbn [blk_matrix blk_w sp_rows sp_entries].
  split; [reflexivity|]. split; [reflexivity|]. split; [reflexivity|].
  split; [rewrite concat_repeat_length; lia|].
  intros i j Hi Hj. rewrite <- Hwa. apply nth_tile.
  rewrite Hwa. nia.
Qed.

Lemma add_constraints_tiles_weights_witness :
  exists self' blk,
    add_constraints_to_least_squares 1
      (Arr3 [[[f1]; [f1]]; [[f1]; [f1]]]) [f1; f1; f1; f1]
      (Arr3 [[[0]; [0]]; [[1]; [1]]]%Z) (WArray [FReal 2; FReal 3]) "grad"
      (init (line_support [0; 1]%R) false)
    = (Returned tt, self')
    /\ dict_get "grad" (constraints self') = Some blk
    /\ blk_w blk = [FReal 2; FReal 3; FReal 2; FReal 3].
Proof.
  destruct (@add_constraints_tiles_weights 1
              [[[f1]; [f1]]; [[f1]; [f1]]] [[[0]; [0]]; [[1]; [1]]]%Z
              [f1; f1; f1; f1] [FReal 2; FReal 3] "grad" "grad"
              (init (line_support [0; 1]%R) false) 2 2 1
              eq_refl eq_refl eq_refl eq_refl eq_refl)
    as (self' & blk & Hrun & Hget & _ & _ & Hw & _).
  - repeat constructor.
  - exists self', blk. split; [exact Hrun|]. split; [exact Hget|exact Hw].
Defined.

(** ** Soft constraints: registered blocks stay *)

Lemma add_constraints_registry (fuel : nat) (A : ndarray npfloat)
  (B : list npfloat) (idc : ndarray Z) (w : weight) (name : string)
  (self : DiscreteInterpolator) :
  constraints (snd (add_constraints_to_least_squares fuel A B idc w name self))
  = constraints self
  \/ exists name' blk,
       dict_mem name' (constraints self) = false
       /\ constraints (snd (add_constraints_to_least_squares fuel A B idc w name self))
          = dict_set name' blk (constraints self)
       /\ fst (add_constraints_to_least_squares fuel A B idc w name self)
          = Returned tt
       /\ unique_name fuel name name (constraints self) = Returned name'.
Proof.
  unfold add_constraints_to_least_squares. run_method.
  destruct (np_shape A) as [sa| |]; [|left; reflexivity..].
  destruct (np_shape idc) as [si| |]; [|left; reflexivity..].
  destruct (list_eq_dec Nat.eq_dec sa si) as [_|_]; cbn [negb]; [|left; reflexivity].
  destruct (flatten_block A idc B w) as [[[[[n_rows A2] idc2] B2] w2]| |];
    [|left; reflexivity..].
  destruct (Nat.eqb (length B2) (length (map norm_row A2))); cbn [negb];
    [|left; reflexivity].
  destruct w2 as [x|wa|]; [| |left; reflexivity];
    (match goal with
     | |- context [if negb (Nat.eqb ?a ?b) then _ else _] =>
         destruct (Nat.eqb a b); cbn [negb]; [|left; reflexivity]
     end);
    (match goal with
     | |- context [if ?cond then _ else _] => destruct cond
     end);
    cbn [constraints emit];
    destruct (unique_name fuel name name (constraints self)) as [name'| |] eqn:Hname;
    try (left; reflexivity);
    (match goal with
     | |- context [coo_matrix ?t ?m ?n] => destruct (coo_matrix t m n) as [matrix| |]
     end);
    try (left; reflexivity);
    right; exists name'; eexists;
    (split; [exact (unique_name_fresh _ _ _ _ Hname)
            |split; [reflexivity|split; reflexivity]]).
Qed.

(** X10: [add_constraints_to_least_squares] never replaces or removes a
    registered block, whatever it gives back: every name registered
    before the call keeps its block and its place, and the registry
    either stays as it is or gains exactly one block, under a name that
    was free, at its end. *)
Theorem add_constraints_never_overwrites (fuel : nat) (A : ndarray npfloat)
  (B : list npfloat) (idc : ndarray Z) (w : weight) (name : string)
  (self : DiscreteInterpolator) :
  let self' := snd (add_constraints_to_least_squares fuel A B idc w name self) in
  (forall key, dict_mem key (constraints self) = true ->
               dict_get key (constraints self') = dict_get key (constraints self))
  /\ (dict_keys (constraints self') = dict_keys (constraints self)
      \/ exists name',
           dict_mem name' (constraints self) = false
           /\ dict_keys (constraints self') = dict_keys (constraints self) ++ [name'])
  /\ length (constraints self) <= length (constraints self').
Proof.
  intros self'. subst self'.
  destruct (add_constraints_registry fuel A B idc w name self)
    as [->|(name' & blk & Hfree & -> & _ & _)].
  - split; [reflexivity|]. split; [now left|lia].
  - split.
    + intros key Hkey. apply dict_get_set_other. intros ->. congruence.
    + assert (Hkeys := dict_keys_set_new name' blk _ Hfree).
      split.
      * right. exists name'. split; [exact Hfree|exact Hkeys].
      * assert (Hl : length (dict_keys (dict_set name' blk (constraints self)))
                     = length (dict_keys (constraints self)) + 1)
          by (rewrite Hkeys, length_app; reflexivity).
        unfold dict_keys in Hl. rewrite !length_map in Hl. lia.
Qed.

Lemma add_constraints_never_overwrites_witness :
  dict_get "value"
    (constraints (snd (add_named 2 "value" one_block_interpolator)))
  = dict_get "value" (constraints one_block_interpolator).
Proof.
  apply (@add_constraints_never_overwrites 2 (Arr2 [[FReal 1]]) [FReal 2]
           (Arr2 [[0%Z]]) (WScalar f1) "value" one_block_interpolator).
  reflexivity.
Defined.

(** ** The bordered system of the equality constraints *)

Lemma equality_lists_rhs (blocks : list eq_block) (a : list npfloat)
  (rs cs : list Z) (b : list npfloat) :
  equality_lists blocks = Returned (a, rs, cs, b) -> length b = eq_rows blocks.
Proof.
  revert a rs cs b. induction blocks as [|blk blocks IH]; intros a rs cs b H.
  - cbn in H. injection H as <- <- <- <-. reflexivity.
  - cbn [equality_lists] in H.
    destruct (Nat.eqb (length (eq_row blk)) (length (eq_A blk))
              && Nat.eqb (length (eq_col blk)) (length (eq_A blk)));
      [|discriminate].
    destruct (equality_lists blocks) as [[[[a' rs'] cs'] b']| |];
      cbn [obind] in H; try discriminate.
    injection H as <- <- <- <-.
    unfold eq_rows. cbn [map]. rewrite list_sum_cons, length_app.
    f_equal. exact (IH _ _ _ _ eq_refl).
Qed.

Lemma sp_dot_transpose (A : sparse) :
  exists ATA, sp_dot (sp_transpose A) A = Returned ATA
              /\ sp_rows ATA = sp_cols A /\ sp_cols ATA = sp_cols A.
Proof.
  unfold sp_dot. cbn [sp_transpose sp_cols sp_rows]. rewrite Nat.eqb_refl.
  eexists. split; [reflexivity|]. split; reflexivity.
Qed.

Lemma sp_dot_vec_transpose (A : sparse) (B : list npfloat) :
  length B = sp_rows A ->
  exists ATB, sp_dot_vec (sp_transpose A) B = Returned ATB
              /\ length ATB = sp_cols A.
Proof.
  intros H. unfold sp_dot_vec. cbn [sp_transpose sp_cols sp_rows].
  rewrite H, Nat.eqb_refl. eexists. split; [reflexivity|].
  now rewrite length_map, length_seq.
Qed.

(** With registered equality blocks that fit, [add_equality_block]
    borders the normal equations: the matrix has [nx + eq_const_c] rows
    and columns, the right-hand side one entry per column of [A] and one
    per registered value. *)
Lemma add_equality_block_run (self : DiscreteInterpolator) (A : sparse)
  (B : list npfloat) :
  Forall (eq_block_fits (eq_const_c self) (nx self))
         (dict_values (equal_constraints self)) ->
  equal_constraints self <> [] ->
  sp_cols A = nx self -> length B = sp_rows A ->
  exists ATA ATB,
    add_equality_block A B self
    = (Returned (Some (ATA, ATB)), emit (LogInfo "Equality block is assembled") self)
    /\ sp_rows ATA = nx self + eq_const_c self
    /\ sp_cols ATA = nx self + eq_const_c self
    /\ length ATB = nx self + eq_rows (dict_values (equal_constraints self)).
Proof.
  intros Hfit Hne HA HB.
  destruct (sp_dot_transpose A) as (ATA0 & Hdot & Hr0 & Hc0).
  destruct (sp_dot_vec_transpose A B HB) as (ATB0 & Hvec & Hl0).
  destruct (equality_lists_fit Hfit) as (a & rs & cs & b & Hlists & _).
  destruct (equality_C_fits self Hfit) as (C & HC & HCr & HCc).
  assert (Hb := equality_lists_rhs _ Hlists).
  assert (Hpos : Nat.ltb 0 (length (equal_constraints self)) = true).
  { destruct (equal_constraints self); [congruence|reflexivity]. }
  unfold add_equality_block. run_method.
  rewrite Hpos, Hdot, Hvec. cbn [equal_constraints emit].
  rewrite Hlists.
  rewrite HC.
  unfold sp_bmat22. cbn [sp_transpose sp_rows sp_cols].
  rewrite Hr0, Hc0, HCc, HA, !Nat.eqb_refl. cbn [andb snd].
  eexists. eexists. split; [reflexivity|].
  cbn [sp_rows sp_cols]. rewrite HCr, length_app, Hl0, Hb, HA. auto.
Qed.

Lemma dict_values_set_new {V : Type} (key : string) (v : V) (d : dict V) :
  dict_mem key d = false -> dict_values (dict_set key v d) = dict_values d ++ [v].
Proof.
  unfold dict_values. induction d as [|[k v'] d IH]; cbn [dict_mem dict_set map snd];
    [reflexivity|].
  destruct (String.eqb k key); [discriminate|].
  intros H. cbn [map snd app]. now rewrite IH.
Qed.

Lemma eq_rows_app (l l' : list eq_block) : eq_rows (l ++ l') = eq_rows l + eq_rows l'.
Proof.
  unfold eq_rows. induction l as [|blk l IH]; [reflexivity|].
  cbn [app map]. rewrite !list_sum_cons, IH. lia.
Qed.

Lemma not_sentinel_length (idc : list Z) : length (not_sentinel idc) = length idc.
Proof. unfold not_sentinel. apply length_map. Qed.

Lemma mapped_columns_length (self : DiscreteInterpolator) (node_idx : list Z) :
  length (mapped_columns self node_idx) = length node_idx.
Proof. unfold mapped_columns. apply length_map. Qed.

(** Under pairwise distinct names, the row counter is the number of
    registered values. *)
Lemma add_equalities_rows (calls : list (list Z * list npfloat * string))
  (self : DiscreteInterpolator) :
  NoDup (map snd calls) ->
  (forall key, In key (dict_keys (equal_constraints self)) -> ~ In key (map snd calls)) ->
  eq_rows (dict_values (equal_constraints self)) = eq_const_c self ->
  eq_rows (dict_values (equal_constraints (add_equalities calls self)))
  = eq_const_c (add_equalities calls self).
Proof.
  revert self. induction calls as [|[[node_idx values] name] calls IH];
    intros self Hnd Hfresh Hrows; cbn [add_equalities]; [assumption|].
  cbn [map snd] in Hnd, Hfresh. inversion Hnd as [|x l Hnotin Hnd']; subst.
  destruct (add_equality_constraints_cases self node_idx values name)
    as [[Hidx Hlen]|[e Hraise]].
  - rewrite (@add_equality_constraints_run self node_idx values name Hidx Hlen).
    cbn [snd].
    assert (Hfree : dict_mem name (equal_constraints self) = false).
    { destruct (dict_mem name (equal_constraints self)) eqn:E; [|reflexivity].
      apply dict_mem_In in E. exfalso. apply (Hfresh name E). now left. }
    apply IH; [exact Hnd'| |].
    + cbn [equal_constraints set_equal_constraints].
      rewrite dict_keys_set_new by exact Hfree.
      intros key Hin Hcalls. apply in_app_or in Hin. destruct Hin as [Hin|[<-|[]]].
      * apply (Hfresh key Hin). now right.
      * contradiction.
    + cbn [equal_constraints eq_const_c set_equal_constraints].
      rewrite dict_values_set_new by exact Hfree.
      rewrite eq_rows_app, Hrows. f_equal.
      unfold eq_rows. cbn [map eq_B]. rewrite list_sum_cons. cbn [list_sum fold_right].
      rewrite Nat.add_0_r. apply mask_select_length.
      now rewrite not_sentinel_length, mapped_columns_length.
  - rewrite Hraise. cbn [snd]. apply IH; [exact Hnd'| |exact Hrows].
    intros key Hin Hcalls. apply (Hfresh key Hin). now right.
Qed.

(** X11: after any sequence of [add_equality_constraints] calls under
    pairwise distinct names on a new interpolator, [add_equality_block]
    on a system [A, B] with [nx] columns returns [None] while no
    equality constraint is registered, and otherwise the bordered
    system: a square matrix of order [nx + eq_const_c] and a right-hand
    side of that length. *)
Theorem add_equality_block_shape (s : Support) (utd : bool)
  (calls : list (list Z * list npfloat * string)) (A : sparse) (B : list npfloat) :
  let self := add_equalities calls (init s utd) in
  NoDup (map snd calls) ->
  sp_cols A = nx self -> length B = sp_rows A ->
  (equal_constraints self = [] -> add_equality_block A B self = (Returned None, self))
  /\ (equal_constraints self <> [] ->
      exists ATA ATB self',
        add_equality_block A B self = (Returned (Some (ATA, ATB)), self')
        /\ sp_rows ATA = nx self + eq_const_c self
        /\ sp_cols ATA = nx self + eq_const_c self
        /\ length ATB = nx self + eq_const_c self).
Proof.
  intros self Hnd HA HB. split.
  - intros Hempty. unfold add_equality_block. run_method. now rewrite Hempty.
  - intros Hne.
    assert (Hfit : Forall (eq_block_fits (eq_const_c self) (nx self))
                          (dict_values (equal_constraints self))).
    { apply add_equalities_fits. constructor. }
    assert (Hrows : eq_rows (dict_values (equal_constraints self)) = eq_const_c self).
    { apply add_equalities_rows; [exact Hnd| |reflexivity]. intros key []. }
    destruct (add_equality_block_run self A B Hfit Hne HA HB)
      as (ATA & ATB & Hrun & Hr & Hc & Hl).
    exists ATA, ATB. eexists. split; [exact Hrun|].
    rewrite Hrows in Hl. auto.
Qed.

Lemma add_equality_block_shape_witness :
  let self := add_equalities [([0%Z], [FReal 5], "fixed")]
                (init (line_support [0; 1]%R) false) in
  exists ATA ATB self',
    add_equality_block (mkSparse 1 2 [(0%Z, 0%Z, f1)]) [f1] self
    = (Returned (Some (ATA, ATB)), self')
    /\ sp_rows ATA = 3 /\ sp_cols ATA = 3 /\ length ATB = 3.
Proof.
  intros self.
  assert (Hnd : NoDup (map snd [([0%Z], [FReal 5], "fixed")])).
  { repeat constructor. cbn. tauto. }
  destruct (@add_equality_block_shape (line_support [0; 1]%R) false
              [([0%Z], [FReal 5], "fixed")] (mkSparse 1 2 [(0%Z, 0%Z, f1)]) [f1]
              Hnd eq_refl eq_refl) as [_ H].
  destruct H as (ATA & ATB & self' & Hrun & Hr & Hc & Hl); [discriminate|].
  exists ATA, ATB, self'. split; [exact Hrun|]. split; [exact Hr|].
  split; [exact Hc|exact Hl].
Defined.

(** X12: [add_equality_constraints] called again under a name already
    in use replaces the block registered under that name, but the row
    counter keeps the rows of the replaced block: the new block starts
    at row [n1], and the bordered system of [add_equality_block] then
    has [nx + n1 + n2] rows for a right-hand side of [nx + n2]
    entries. *)
Theorem add_equality_constraints_same_name (self : DiscreteInterpolator)
  (idx1 idx2 : list Z) (vals1 vals2 : list npfloat) (name : string)
  (A : sparse) (B : list npfloat) :
  equal_constraints self = [] -> eq_const_c self = 0 ->
  Forall (py_index_ok (n_nodes (support self))) idx1 -> length vals1 = length idx1 ->
  Forall (py_index_ok (n_nodes (support self))) idx2 -> length vals2 = length idx2 ->
  sp_cols A = nx self -> length B = sp_rows A ->
  let n1 := count_true (not_sentinel (mapped_columns self idx1)) in
  let n2 := count_true (not_sentinel (mapped_columns self idx2)) in
  let self2 := add_equalities [(idx1, vals1, name); (idx2, vals2, name)] self in
  eq_const_c self2 = n1 + n2
  /\ (exists blk,
        equal_constraints self2 = [(name, blk)]
        /\ length (eq_B blk) = n2
        /\ eq_row blk = np_arange (Z.of_nat n1) n2)
  /\ (exists ATA ATB self',
        add_equality_block A B self2 = (Returned (Some (ATA, ATB)), self')
        /\ sp_rows ATA = nx self + n1 + n2
        /\ length ATB = nx self + n2).
Proof.
  intros Hempty Hzero Hi1 Hl1 Hi2 Hl2 HA HB n1 n2 self2.
  assert (Hrun1 := @add_equality_constraints_run self idx1 vals1 name Hi1 Hl1).
  cbv zeta in Hrun1. fold n1 in Hrun1. rewrite Hempty, Hzero in Hrun1.
  cbn [dict_set Nat.add] in Hrun1.
  set (self1 := set_equal_constraints
                  [(name, mkEq (repeat f1 n1)
                            (mask_select (not_sentinel (mapped_columns self idx1)) vals1)
                            (mask_select (not_sentinel (mapped_columns self idx1))
                                         (mapped_columns self idx1))
                            (np_arange (Z.of_nat 0) n1))] n1 self) in *.
  assert (Hrun2 := @add_equality_constraints_run self1 idx2 vals2 name Hi2 Hl2).
  cbv zeta in Hrun2.
  change (mapped_columns self1 idx2) with (mapped_columns self idx2) in Hrun2.
  fold n2 in Hrun2.
  cbn [equal_constraints eq_const_c self1 set_equal_constraints dict_set] in Hrun2.
  rewrite String.eqb_refl in Hrun2.
  assert (Hself2 : self2 = snd (add_equality_constraints idx2 vals2 name self1)).
  { unfold self2. cbn [add_equalities]. now rewrite Hrun1. }
  rewrite Hrun2 in Hself2. cbn [snd] in Hself2.
  assert (Hfit : Forall (eq_block_fits (eq_const_c self2) (nx self2))
                        (dict_values (equal_constraints self2))).
  { apply add_equalities_fits. rewrite Hempty. constructor. }
  assert (Hlen : length (mask_select (not_sentinel (mapped_columns self idx2)) vals2)
                 = n2).
  { apply mask_select_length.
    now rewrite not_sentinel_length, mapped_columns_length. }
  rewrite Hself2 in *.
  cbn [equal_constraints eq_const_c set_equal_constraints] in *.
  split; [reflexivity|]. split.
  - eexists. split; [reflexivity|]. cbn [eq_B eq_row]. split; [exact Hlen|reflexivity].
  - match type of Hfit with
    | Forall (eq_block_fits _ (nx ?st)) _ =>
        destruct (@add_equality_block_run st A B) as (ATA & ATB & Hrun & Hr & _ & Hl);
          [exact Hfit|discriminate|exact HA|exact HB|]
    end.
    exists ATA, ATB. eexists. split; [exact Hrun|].
    cbn [equal_constraints eq_const_c set_equal_constraints] in Hr, Hl.
    change (nx (set_equal_constraints _ _ self1)) with (nx self) in Hr, Hl.
    split; [lia|].
    rewrite Hl. f_equal. unfold eq_rows, dict_values.
    cbn [map snd eq_B]. rewrite list_sum_cons. cbn [list_sum fold_right].
    rewrite Hlen. lia.
Qed.

Lemma add_equality_constraints_same_name_witness :
  let self2 := add_equalities [([0%Z], [FReal 5], "fixed"); ([1%Z], [FReal 7], "fixed")]
                 (init (line_support [0; 1]%R) false) in
  eq_const_c self2 = 2
  /\ exists ATA ATB self',
       add_equality_block (mkSparse 1 2 [(0%Z, 0%Z, f1)]) [f1] self2
       = (Returned (Some (ATA, ATB)), self')
       /\ sp_rows ATA = 4 /\ length ATB = 3.
Proof.
  intros self2.
  destruct (@add_equality_constraints_same_name (init (line_support [0; 1]%R) false)
              [0%Z] [1%Z] [FReal 5] [FReal 7] "fixed"
              (mkSparse 1 2 [(0%Z, 0%Z, f1)]) [f1] eq_refl eq_refl)
    as (Hc & _ & H); try reflexivity.
  - repeat constructor; cbn; lia.
  - repeat constructor; cbn; lia.
  - split; [exact Hc|exact H].
Defined.

(** ** What the solver reads and what it stores *)

Lemma weighted_blocks_rhs (blocks : list soft_block) (mats : list sparse)
  (bs : list (list npfloat)) :
  weighted_blocks blocks = Returned (mats, bs) ->
  list_sum (map (@length npfloat) bs) = list_sum (map sp_rows mats).
Proof.
  revert mats bs. induction blocks as [|blk blocks IH]; intros mats bs H.
  - cbn in H. injection H as <- <-. reflexivity.
  - cbn [weighted_blocks] in H.
    destruct (Nat.eqb (length (blk_w blk)) 0); [now apply IH|].
    unfold sp_scale_rows, np_mul_vec in H.
    destruct (Nat.eqb (length (blk_w blk)) (sp_rows (blk_matrix blk))) eqn:Hw;
      cbn [obind] in H; [|discriminate].
    destruct (Nat.eqb (length (blk_b blk)) (length (blk_w blk))) eqn:Hb;
      cbn [obind] in H; [|discriminate].
    destruct (weighted_blocks blocks) as [[mats' bs']| |]; cbn [obind] in H;
      try discriminate.
    injection H as <- <-. cbn [fst snd map sp_rows].
    rewrite !list_sum_cons, (IH mats' bs' eq_refl).
    apply Nat.eqb_eq in Hw, Hb.
    rewrite zip_with_length by exact Hb. lia.
Qed.

Lemma vstack_from_rows (mats : list sparse) (acc A : sparse) :
  vstack_from acc mats = Returned A ->
  sp_rows A = sp_rows acc + list_sum (map sp_rows mats).
Proof.
  revert acc. induction mats as [|m mats IH]; intros acc H.
  - cbn in H. injection H as <-. cbn. lia.
  - cbn [vstack_from] in H.
    destruct (Nat.eqb (sp_cols m) (sp_cols acc)); [|discriminate].
    rewrite (IH _ H). cbn [sp_rows map]. rewrite list_sum_cons. lia.
Qed.

(** Whenever the assembly returns, the right-hand side has one entry
    per row of the matrix. *)
Lemma assembled_rhs_length (self : DiscreteInterpolator) (A : sparse)
  (B : list npfloat) :
  assembled self = Returned (A, B) -> length B = sp_rows A.
Proof.
  unfold assembled. intros H.
  destruct (weighted_blocks (dict_values (constraints self))) as [[mats bs]| |] eqn:Hwb;
    cbn [obind fst snd] in H; try discriminate.
  assert (Hsum := weighted_blocks_rhs _ Hwb).
  destruct mats as [|m mats]; cbn [sp_vstack obind] in H; [discriminate|].
  destruct (vstack_from m mats) as [A'| |] eqn:Hv; cbn [obind] in H; try discriminate.
  destruct bs as [|b bs]; cbn [np_hstack obind] in H; [discriminate|].
  injection H as <- <-.
  change (b ++ concat bs) with (concat (b :: bs)).
  rewrite (vstack_from_rows _ _ Hv), length_concat.
  cbn [map] in Hsum. rewrite !list_sum_cons in Hsum.
  cbn [map]. rewrite list_sum_cons. exact Hsum.
Qed.

Section SolverReads.

Variable kwargs : Type.
Variable sla_cg : sparse -> list npfloat -> kwargs -> list npfloat * Z.
Variable sla_lsmr : sparse -> list npfloat -> kwargs -> list npfloat * Z.

(** The dispatch reads nothing of the object but the solution it may
    leave in place. *)
Lemma dispatch_solver_reads_c (solver : solver_arg) (kw : kwargs) (A : sparse)
  (b : list npfloat) (st1 st2 : DiscreteInterpolator) :
  c st1 = c st2 ->
  fst (dispatch_solver sla_cg sla_lsmr solver kw A b st1)
  = fst (dispatch_solver sla_cg sla_lsmr solver kw A b st2)
  /\ c (snd (dispatch_solver sla_cg sla_lsmr solver kw A b st1))
     = c (snd (dispatch_solver sla_cg sla_lsmr solver kw A b st2)).
Proof.
  intros Hc.
  unfold dispatch_solver, solve_custom, known_solver, solve_cg, solve_lsmr.
  run_method.
  destruct solver as [|s|f|]; cbn [solver_is];
    repeat match goal with
      | |- context [if ?cond then _ else _] => destruct cond; cbn [negb solver_is]
      | |- context [match ?x with _ => _ end] => destruct x; cbn [negb solver_is]
      end;
    cbn [fst snd c set_c set_up_to_date emit]; auto.
Qed.

End SolverReads.

(** X13: [solve_system] reads the support and the soft-constraint
    registry only: two objects that agree on these two get the same
    outcome and the same solution [c], whatever their equality
    constraints, row counter, interpolation weights, region and flags;
    in particular registered equality constraints do not reach the
    solver. *)
Theorem solve_system_reads_soft_constraints_only
  (kwargs : Type) (sla_cg sla_lsmr : sparse -> list npfloat -> kwargs -> list npfloat * Z)
  (solver : solver_arg) (kw : kwargs) (self1 self2 : DiscreteInterpolator) :
  support self1 = support self2 -> constraints self1 = constraints self2 ->
  fst (solve_system sla_cg sla_lsmr solver kw self1)
  = fst (solve_system sla_cg sla_lsmr solver kw self2)
  /\ c (snd (solve_system sla_cg sla_lsmr solver kw self1))
     = c (snd (solve_system sla_cg sla_lsmr solver kw self2)).
Proof.
  intros Hs Hcs. rewrite !solve_system_unfold. unfold bind.
  assert (Ho1 := build_matrix_outcome (reset_c self1)).
  assert (Ho2 := build_matrix_outcome (reset_c self2)).
  assert (Hs1 := build_matrix_state (reset_c self1)).
  assert (Hs2 := build_matrix_state (reset_c self2)).
  rewrite assembled_reset_c in Ho1, Ho2.
  assert (Hasm : assembled self1 = assembled self2)
    by (unfold assembled; now rewrite Hcs).
  destruct (build_matrix (reset_c self1)) as [o1 s1].
  destruct (build_matrix (reset_c self2)) as [o2 s2].
  cbn [fst snd] in *. rewrite Ho1, Ho2, <- Hasm.
  destruct Hs1 as (_ & _ & Hc1 & _). destruct Hs2 as (_ & _ & Hc2 & _).
  assert (Hc : c s1 = c s2).
  { rewrite Hc1, Hc2. unfold reset_c. cbn [c set_c]. now rewrite Hs. }
  destruct (assembled self1) as [[A b]| |]; cbn [fst snd].
  - now apply dispatch_solver_reads_c.
  - auto.
  - auto.
Qed.


Lemma solve_system_reads_soft_constraints_only_witness :
  let self1 := one_block_interpolator in
  let self2 := snd (add_equality_constraints [0%Z] [FReal 5] "fixed" self1) in
  eq_const_c self2 = 1
  /\ c (snd (solve_system (zero_backend 0) (zero_backend 1) (SolverStr "cg") tt self1))
     = c (snd (solve_system (zero_backend 0) (zero_backend 1) (SolverStr "cg") tt self2)).
Proof.
  intros self1 self2. split; [reflexivity|].
  apply (@solve_system_reads_soft_constraints_only unit (zero_backend 0)
           (zero_backend 1) (SolverStr "cg") tt self1 self2); reflexivity.
Defined.

Section SolverAnswers.

Variable kwargs : Type.
Variable sla_cg : sparse -> list npfloat -> kwargs -> list npfloat * Z.
Variable sla_lsmr : sparse -> list npfloat -> kwargs -> list npfloat * Z.

Lemma build_matrix_assembled (self : DiscreteInterpolator) (A : sparse)
  (b : list npfloat) :
  assembled self = Returned (A, b) ->
  exists self1,
    build_matrix (reset_c self) = (Returned (A, b), self1)
    /\ same_attributes (reset_c self) self1.
Proof.
  intros Hasm.
  assert (Ho := build_matrix_outcome (reset_c self)).
  assert (Hs := build_matrix_state (reset_c self)).
  rewrite assembled_reset_c, Hasm in Ho.
  destruct (build_matrix (reset_c self)) as [o self1]. cbn [fst snd] in *.
  subst o. now exists self1.
Qed.

Lemma solve_system_custom (f : sparse -> list npfloat -> list npfloat)
  (kw : kwargs) (self : DiscreteInterpolator) (A : sparse) (b : list npfloat) :
  assembled self = Returned (A, b) ->
  exists self',
    solve_system sla_cg sla_lsmr (SolverCallable f) kw self = (Returned true, self')
    /\ c self' = f A b /\ up_to_date self' = true.
Proof.
  intros Hasm. rewrite solve_system_unfold. unfold bind.
  destruct (@build_matrix_assembled self A b Hasm) as (self1 & -> & _).
  cbn [fst snd dispatch_solver].
  destruct (solve_custom_run f A b self1) as (self' & -> & Hc & Hutd & _).
  now exists self'.
Qed.

Lemma solve_system_cg (kw : kwargs) (self : DiscreteInterpolator) (A : sparse)
  (b : list npfloat) :
  assembled self = Returned (A, b) ->
  exists ATA ATB self',
    sp_dot (sp_transpose A) A = Returned ATA
    /\ sp_dot_vec (sp_transpose A) b = Returned ATB
    /\ solve_system sla_cg sla_lsmr (SolverStr "cg") kw self = (Returned true, self')
    /\ c self' = fst (sla_cg ATA ATB kw) /\ up_to_date self' = true.
Proof.
  intros Hasm. rewrite solve_system_unfold. unfold bind.
  destruct (@build_matrix_assembled self A b Hasm) as (self1 & -> & _).
  cbn [fst snd dispatch_solver known_solver String.eqb Ascii.eqb Bool.eqb orb negb].
  unfold bind, ret. cbn [solver_is String.eqb Ascii.eqb Bool.eqb].
  destruct (sp_dot_transpose A) as (ATA & HATA & _).
  destruct (@sp_dot_vec_transpose A b (@assembled_rhs_length self A b Hasm))
    as (ATB & HATB & _).
  destruct (solve_cg_run sla_cg A b kw self1)
    as [(self' & ATA' & ATB' & -> & HATA' & HATB' & Hc & Hutd & _)
       |(e & self' & Hraise & _)].
  - exists ATA', ATB', self'. auto.
  - exfalso. unfold solve_cg in Hraise. revert Hraise. run_method.
    rewrite HATA, HATB. destruct (snd (sla_cg ATA ATB kw) >? 0)%Z; discriminate.
Qed.

Lemma dispatch_solver_unknown (s : string) (kw : kwargs) (A : sparse)
  (b : list npfloat) (st : DiscreteInterpolator) :
  s <> "cg" -> s <> "lsmr" ->
  dispatch_solver sla_cg sla_lsmr (SolverStr s) kw A b st
  = dispatch_solver sla_cg sla_lsmr (SolverStr "cg") kw A b
      (emit (LogWarning ("Unknown solver " ++ s ++ " using cg")) st).
Proof.
  intros Hcg Hlsmr. apply String.eqb_neq in Hcg, Hlsmr.
  unfold dispatch_solver, known_solver. rewrite Hcg, Hlsmr.
  cbn [orb negb String.eqb Ascii.eqb Bool.eqb]. run_method. reflexivity.
Qed.

Lemma dispatch_solver_reads_flag (solver : solver_arg) (kw : kwargs) (A : sparse)
  (b : list npfloat) (st1 st2 : DiscreteInterpolator) :
  up_to_date st1 = up_to_date st2 ->
  up_to_date (snd (dispatch_solver sla_cg sla_lsmr solver kw A b st1))
  = up_to_date (snd (dispatch_solver sla_cg sla_lsmr solver kw A b st2)).
Proof.
  intros Hc.
  unfold dispatch_solver, solve_custom, known_solver, solve_cg, solve_lsmr.
  run_method.
  destruct solver as [|s|f|]; cbn [solver_is];
    repeat match goal with
      | |- context [if ?cond then _ else _] => destruct cond; cbn [negb solver_is]
      | |- context [match ?x with _ => _ end] => destruct x; cbn [negb solver_is]
      end;
    cbn [fst snd up_to_date set_c set_up_to_date emit]; auto.
Qed.

Lemma dispatch_solver_trace (solver : solver_arg) (kw : kwargs) (A : sparse)
  (b : list npfloat) (st : DiscreteInterpolator) :
  exists t, trace (snd (dispatch_solver sla_cg sla_lsmr solver kw A b st))
            = trace st ++ t.
Proof.
  unfold dispatch_solver, solve_custom, known_solver, solve_cg, solve_lsmr.
  run_method.
  destruct solver as [|s|f|]; cbn [solver_is];
    repeat match goal with
      | |- context [if ?cond then _ else _] => destruct cond; cbn [negb solver_is]
      | |- context [match ?x with _ => _ end] => destruct x; cbn [negb solver_is]
      end;
    cbn [fst snd trace set_c set_up_to_date emit];
    rewrite <- ?app_assoc;
    first [eexists; reflexivity | exists []; now rewrite app_nil_r].
Qed.

End SolverAnswers.

(** X14: a solver name other than ["cg"] and ["lsmr"] is not refused:
    [solve_system] logs a warning and goes on as for ["cg"], with the
    same outcome, the same solution and the same flag. *)
Theorem solve_system_unknown_solver_uses_cg
  (kwargs : Type) (sla_cg sla_lsmr : sparse -> list npfloat -> kwargs -> list npfloat * Z)
  (s : string) (kw : kwargs) (self : DiscreteInterpolator) :
  s <> "cg" -> s <> "lsmr" ->
  let run := solve_system sla_cg sla_lsmr (SolverStr s) kw self in
  let run_cg := solve_system sla_cg sla_lsmr (SolverStr "cg") kw self in
  fst run = fst run_cg
  /\ c (snd run) = c (snd run_cg)
  /\ up_to_date (snd run) = up_to_date (snd run_cg)
  /\ (forall Ab, assembled self = Returned Ab ->
        In (LogWarning ("Unknown solver " ++ s ++ " using cg")) (trace (snd run))).
Proof.
  intros Hcg Hlsmr run run_cg. subst run run_cg.
  rewrite !solve_system_unfold. unfold bind.
  assert (Ho := build_matrix_outcome (reset_c self)).
  destruct (build_matrix (reset_c self)) as [[[A b]|e|] self1]; cbn [fst snd] in *.
  - rewrite dispatch_solver_unknown by assumption.
    set (w := LogWarning ("Unknown solver " ++ s ++ " using cg")).
    destruct (@dispatch_solver_reads_c kwargs sla_cg sla_lsmr (SolverStr "cg") kw A b
                (emit w self1) self1 eq_refl) as [H1 H2].
    assert (H3 := @dispatch_solver_reads_flag kwargs sla_cg sla_lsmr (SolverStr "cg")
                    kw A b (emit w self1) self1 eq_refl).
    split; [exact H1|]. split; [exact H2|]. split; [exact H3|].
    intros Ab _.
    destruct (@dispatch_solver_trace kwargs sla_cg sla_lsmr (SolverStr "cg") kw A b
                (emit w self1)) as [t Ht].
    rewrite Ht. cbn [trace emit]. apply in_or_app. left. apply in_or_app. right. now left.
  - repeat split. intros Ab H. rewrite assembled_reset_c, H in Ho. discriminate.
  - repeat split. intros Ab H. rewrite assembled_reset_c, H in Ho. discriminate.
Qed.

Lemma solve_system_unknown_solver_uses_cg_witness :
  fst (solve_system (zero_backend 0) (zero_backend 1) (SolverStr "gmres") tt
         one_block_interpolator)
  = fst (solve_system (zero_backend 0) (zero_backend 1) (SolverStr "cg") tt
           one_block_interpolator).
Proof.
  apply (@solve_system_unknown_solver_uses_cg unit (zero_backend 0) (zero_backend 1)
           "gmres" tt one_block_interpolator); discriminate.
Defined.

(** X15: once the matrix [A, b] is assembled, [solve_system] with a
    callable, with ["cg"] or with ["lsmr"] returns true and raises the
    flag.  It stores as [c] the answer of the callable on [A, b] as it
    is; for ["cg"] the answer of [cg] on the normal equations
    [A.T A, A.T b], whatever the termination code; for ["lsmr"], called
    on [A, b] itself, the answer for the termination codes 1, 2, 4, 5
    and 7 and the all-NaN vector for every other code, 0 (the solution
    is zero) included. *)
Theorem solve_system_stores_backend_answer
  (kwargs : Type) (sla_cg sla_lsmr : sparse -> list npfloat -> kwargs -> list npfloat * Z)
  (kw : kwargs) (self : DiscreteInterpolator) (A : sparse) (b : list npfloat) :
  assembled self = Returned (A, b) ->
  (forall f, exists self',
      solve_system sla_cg sla_lsmr (SolverCallable f) kw self = (Returned true, self')
      /\ c self' = f A b /\ up_to_date self' = true)
  /\ (exists ATA ATB self',
        sp_dot (sp_transpose A) A = Returned ATA
        /\ sp_dot_vec (sp_transpose A) b = Returned ATB
        /\ solve_system sla_cg sla_lsmr (SolverStr "cg") kw self = (Returned true, self')
        /\ c self' = fst (sla_cg ATA ATB kw) /\ up_to_date self' = true)
  /\ (exists self',
        solve_system sla_cg sla_lsmr (SolverStr "lsmr") kw self = (Returned true, self')
        /\ c self' = (if lsmr_keeps (snd (sla_lsmr A b kw))
                      then fst (sla_lsmr A b kw)
                      else repeat FNaN (n_nodes (support self)))
        /\ up_to_date self' = true)
  /\ lsmr_keeps 0 = false.
Proof.
  intros Hasm. split; [|split; [|split]].
  - intros f. now apply solve_system_custom.
  - now apply solve_system_cg.
  - now apply solve_system_lsmr.
  - reflexivity.
Qed.

Lemma solve_system_stores_backend_answer_witness :
  exists self',
    solve_system (zero_backend 0) (zero_backend 0) (SolverStr "lsmr") tt
      one_block_interpolator = (Returned true, self')
    /\ c self' = [FNaN; FNaN].
Proof.
  destruct (@solve_system_stores_backend_answer unit (zero_backend 0) (zero_backend 0)
              tt one_block_interpolator
              (mkSparse 1 2 [(0%Z, 0%Z, np_mul f1 f1)]) [np_mul f1 f1] eq_refl)
    as (_ & _ & (self' & Hrun & Hc & _) & _).
  exists self'. split; [exact Hrun|exact Hc].
Defined.

(** ** Residuals *)

(** X16: [calculate_residual_for_constraints] never yields a residual:
    it returns the empty dictionary exactly when no soft constraint is
    registered, and raises as soon as one is: [ValueError] from the
    unpacking of the first registered name unless that name has exactly
    two characters, and [TypeError] if it has. *)
Theorem calculate_residual_never_yields (self : DiscreteInterpolator) :
  (forall d, calculate_residual_for_constraints self = ResidualsReturned d
             <-> constraints self = [] /\ d = [])
  /\ (forall key blk rest,
        constraints self = (key, blk) :: rest ->
        (length (utf8_chars key) = 2 ->
         calculate_residual_for_constraints self
         = ResidualsTypeError "string indices must be integers")
        /\ (length (utf8_chars key) <> 2 ->
            exists msg, calculate_residual_for_constraints self
                        = ResidualsValueError msg)).
Proof.
  unfold calculate_residual_for_constraints, dict_keys. split.
  - intros d. destruct (constraints self) as [|[key blk] rest]; cbn [map fst].
    + split; [intros H; injection H as <-; now split|intros [_ ->]; reflexivity].
    + split; [|intros [H _]; discriminate].
      destruct (unpack_two key) as [msg|[a b]]; discriminate.
  - intros key blk rest ->. cbn [map fst]. unfold unpack_two. split.
    + intros Hlen. destruct (utf8_chars key) as [|a [|b [|x chars]]];
        try discriminate. reflexivity.
    + intros Hlen. destruct (utf8_chars key) as [|a [|b [|x chars]]];
        try (eexists; reflexivity). cbn in Hlen. congruence.
Qed.

(** A name of five characters, and names with a character of two
    bytes. *)
Lemma calculate_residual_never_yields_witness :
  (exists msg, calculate_residual_for_constraints one_block_interpolator
               = ResidualsValueError msg)
  /\ length (utf8_chars (String (ascii_of_nat 195) (String (ascii_of_nat 169) ""))) = 1
  /\ length (utf8_chars (String (ascii_of_nat 195) (String (ascii_of_nat 169) "1"))) = 2.
Proof.
  split; [|split; reflexivity].
  destruct (calculate_residual_never_yields one_block_interpolator) as [_ H].
  destruct (H "value" (mkSoft (mkSparse 1 2 [(0%Z, 0%Z, f1)]) [f1] [f1]) [] eq_refl)
    as [_ H'].
  apply H'. vm_compute. discriminate.
Defined.

(** ** Inequality constraints *)

Lemma zip_triples_app (r1 r2 c1 c2 : list Z) (d1 d2 : list npfloat) :
  length r1 = length d1 -> length c1 = length d1 ->
  zip_with (fun (rc : Z * Z) (v : npfloat) => (fst rc, snd rc, v))
           (combine (r1 ++ r2) (c1 ++ c2)) (d1 ++ d2)
  = zip_with (fun (rc : Z * Z) (v : npfloat) => (fst rc, snd rc, v)) (combine r1 c1) d1
    ++ zip_with (fun (rc : Z * Z) (v : npfloat) => (fst rc, snd rc, v))
                (combine r2 c2) d2.
Proof.
  revert r1 c1. induction d1 as [|v d1 IH]; intros [|r r1] [|j c1] Hr Hc;
    try discriminate; [reflexivity|].
  cbn [app combine zip_with]. f_equal. apply IH; cbn in *; lia.
Qed.

Lemma zip_triples_row (r : Z) (cols : list Z) (row : list npfloat) :
  length cols = length row ->
  zip_with (fun (rc : Z * Z) (v : npfloat) => (fst rc, snd rc, v))
           (combine (repeat r (length row)) cols) row
  = zip_with (fun v j => (r, j, v)) row cols.
Proof.
  revert cols. induction row as [|v row IH]; intros [|j cols] H; try discriminate;
    [reflexivity|].
  cbn [length repeat combine zip_with fst snd]. f_equal. apply IH. cbn in H. lia.
Qed.

Lemma concat_width_length {X : Type} (l : list (list X)) (k : nat) :
  Forall (fun row => length row = k) l -> length (concat l) = length l * k.
Proof.
  induction 1 as [|row l Hrow _ IH]; [reflexivity|].
  cbn [concat length]. rewrite length_app, IH, Hrow. lia.
Qed.

(** The three flat arrays that the method hands to [coo_matrix] hold the
    entries [(i, idc[i][j], A[i][j])]. *)
Lemma flat_triples_from (start : nat) (A : list (list npfloat)) (cols : list (list Z))
  (k : nat) :
  length cols = length A ->
  Forall (fun row => length row = k) A ->
  Forall (fun row => length row = k) cols ->
  zip_with (fun (rc : Z * Z) (v : npfloat) => (fst rc, snd rc, v))
           (combine (concat (map (fun r => repeat r k)
                                 (np_arange (Z.of_nat start) (length A))))
                    (concat cols))
           (concat A)
  = concat (zip_with (fun i rc =>
                        zip_with (fun v j => (Z.of_nat i, j, v)) (fst rc) (snd rc))
                     (seq start (length A)) (combine A cols)).
Proof.
  revert start cols. induction A as [|row A IH]; intros start [|c cols] Hlen HA HC;
    try discriminate; [reflexivity|].
  injection Hlen as Hlen. inversion HA as [|? ? Hrow HA']; subst.
  inversion HC as [|? ? Hc HC']; subst.
  cbn [length]. rewrite np_arange_S.
  cbn [map concat seq combine zip_with fst snd].
  rewrite zip_triples_app by (rewrite ?repeat_length; congruence).
  f_equal.
  - apply zip_triples_row. congruence.
  - replace (Z.of_nat start + 1)%Z with (Z.of_nat (S start)) by lia.
    now apply IH.
Qed.

Lemma np_take2_ok {X : Type} (a : list X) (idx : list (list Z)) (d : X) :
  Forall (Forall (py_index_ok (length a))) idx ->
  np_take2 a idx
  = Returned (map (map (fun i => nth (py_position (length a) i) a d)) idx).
Proof.
  induction 1 as [|row idx Hrow _ IH]; [reflexivity|].
  cbn [np_take2 map]. rewrite (@np_take_ok X a row d Hrow), IH. reflexivity.
Qed.

Lemma np_take2_mapped (self : DiscreteInterpolator) (idc : list (list Z)) :
  Forall (Forall (py_index_ok (n_nodes (support self)))) idc ->
  np_take2 (gi self) idc = Returned (map (mapped_columns self) idc).
Proof.
  intros H. rewrite <- (gi_length self) in H.
  rewrite (@np_take2_ok Z (gi self) idc 0%Z H). rewrite gi_length. reflexivity.
Qed.

Lemma map_widths {X Y : Type} (f : list X -> list Y) (l : list (list X)) (k : nat) :
  (forall row, length (f row) = length row) ->
  Forall (fun row => length row = k) l ->
  Forall (fun row => length row = k) (map f l).
Proof.
  intros Hf H. induction H as [|row l Hrow _ IH]; constructor; [|exact IH].
  now rewrite Hf.
Qed.

(** X17: [add_inequality_constraints_to_matrix] on a coefficient array
    and a node-index array of one shape, with node indices that the
    node array accepts: when every indexed node is active, the block
    registered under [name] holds the bounds as given and the matrix of
    shape [(rows, nx)] with the coefficients as given (no row is
    normalised) on the region-mapped columns; when some indexed node is
    inactive, its column is the sentinel -1, the sparse-matrix
    constructor raises [ValueError] and nothing is registered. *)
Theorem add_inequality_constraints_to_matrix_stores
  (A bounds : list (list npfloat)) (idc : list (list Z)) (name : string)
  (self : DiscreteInterpolator) (registry : dict ineq_block) (k : nat) :
  length idc = length A ->
  Forall (fun row => length row = k) A ->
  Forall (fun row => length row = k) idc ->
  Forall (Forall (py_index_ok (n_nodes (support self)))) idc ->
  let cols := map (mapped_columns self) idc in
  (Forall (fun j => j <> (-1)%Z) (concat cols) ->
   add_inequality_constraints_to_matrix A bounds idc name self registry
   = Returned (dict_set name
                 (mkIneq (mkSparse (length idc) (nx self) (coo_triples A cols)) bounds)
                 registry))
  /\ (Exists (fun j => j = (-1)%Z) (concat cols) ->
      exists msg,
        add_inequality_constraints_to_matrix A bounds idc name self registry
        = Raised (ValueError msg)).
Proof.
  intros Hlen HA HI Hidx cols.
  assert (Hcl : length cols = length A) by (unfold cols; now rewrite length_map).
  assert (HC : Forall (fun row => length row = k) cols).
  { apply map_widths; [|exact HI]. intros row. apply mapped_columns_length. }
  assert (Hk : A = [] \/ length (hd [] A) = k).
  { destruct HA as [|row A' Hrow _]; [now left|now right]. }
  assert (Hrun : add_inequality_constraints_to_matrix A bounds idc name self registry
                 = obind (coo_matrix (coo_triples A cols) (length idc) (nx self))
                     (fun matrix =>
                        Returned (dict_set name (mkIneq matrix bounds) registry))).
  { unfold add_inequality_constraints_to_matrix.
    rewrite (@np_take2_mapped self idc Hidx). cbn [obind]. fold cols.
    rewrite length_map, np_arange_length, Hcl.
    unfold coo_matrix_arrays.
    assert (Htriples :
              zip_with (fun (rc : Z * Z) (v : npfloat) => (fst rc, snd rc, v))
                (combine (concat (map (fun r => repeat r (length (hd [] A)))
                                      (np_arange 0 (length A))))
                         (concat cols))
                (concat A)
              = coo_triples A cols
              /\ length (concat (map (fun r => repeat r (length (hd [] A)))
                                     (np_arange 0 (length A))))
                 = length (concat A)).
    { destruct Hk as [->|Hk].
      - destruct cols; [|discriminate]. split; reflexivity.
      - rewrite Hk. split.
        + apply (@flat_triples_from 0 A cols k Hcl HA HC).
        + rewrite (@concat_width_length _ A k HA).
          rewrite (@concat_width_length _ _ k).
          * now rewrite length_map, np_arange_length.
          * apply Forall_forall. intros row Hin. apply in_map_iff in Hin.
            destruct Hin as (r & <- & _). apply repeat_length. }
    destruct Htriples as [Htriples Hrl].
    rewrite Hrl, Nat.eqb_refl.
    rewrite (@concat_width_length _ cols k HC), (@concat_width_length _ A k HA), Hcl,
      Nat.eqb_refl.
    cbn [andb]. rewrite Htriples. now rewrite Hlen. }
  assert (Hentries := coo_triples_entries A cols).
  assert (Hrows : forallb (fun e : Z * Z * npfloat => index_in (length idc) (fst (fst e)))
                          (coo_triples A cols) = true).
  { apply forallb_forall. intros e Hin. rewrite Forall_forall in Hentries.
    rewrite Hlen. now apply Hentries. }
  split.
  - intros Hactive. rewrite Hrun.
    rewrite coo_matrix_ok; [reflexivity| |].
    + apply Forall_forall. intros e Hin. rewrite forallb_forall in Hrows. now apply Hrows.
    + apply Forall_forall. intros e Hin. rewrite Forall_forall in Hentries.
      destruct (Hentries e Hin) as [_ Hcol].
      rewrite Forall_forall in Hactive. specialize (Hactive _ Hcol).
      unfold cols in Hcol. apply in_concat in Hcol.
      destruct Hcol as (row & Hrow & Hj). apply in_map_iff in Hrow.
      destruct Hrow as (idx & <- & Hidx').
      rewrite Forall_forall in Hidx. specialize (Hidx _ Hidx').
      assert (H := @mapped_columns_entries self idx Hidx).
      rewrite Forall_forall in H. destruct (H _ Hj) as [Hs|Hin']; [contradiction|].
      exact Hin'.
  - intros Hinactive. rewrite Hrun. unfold coo_matrix. rewrite Hrows.
    assert (Hc : forallb (fun e : Z * Z * npfloat => index_in (nx self) (snd (fst e)))
                         (coo_triples A cols) = false).
    { apply forallb_Exists_false.
      apply Exists_exists in Hinactive. destruct Hinactive as (j & Hin & ->).
      assert (Hmap : map (fun e : Z * Z * npfloat => snd (fst e)) (coo_triples A cols)
                     = concat cols)
        by exact (@coo_triples_columns_from 0 A cols k Hcl HA HC).
      rewrite <- Hmap in Hin. apply in_map_iff in Hin.
      destruct Hin as (e & He & Hin).
      apply Exists_exists. exists e. split; [exact Hin|]. now rewrite He. }
    rewrite Hc. cbn [obind]. eexists. reflexivity.
Qed.

Lemma positive_x_renumbering :
  let self := set_region_function positive_x (init (line_support [1; 0; 2]%R) false) in
  nx self = 2 /\ gi self = [0; -1; 1]%Z.
Proof.
  intros self.
  assert (Hregion : region self = [true; false; true]).
  { unfold region, self. cbn. unfold positive_x, f0. cbn.
    decide_reals. reflexivity. }
  assert (Hnx : nx self = 2) by (unfold nx; rewrite Hregion; reflexivity).
  split; [exact Hnx|]. unfold gi. rewrite Hnx, Hregion. reflexivity.
Qed.

Lemma add_inequality_constraints_to_matrix_stores_witness :
  let self := set_region_function positive_x (init (line_support [1; 0; 2]%R) false) in
  add_inequality_constraints_to_matrix [[FReal 3; FReal 4]] [[f0; f1]] [[0; 2]]%Z
    "inequality_value" self []
  = Returned [("inequality_value",
               mkIneq (mkSparse 1 2 [(0, 0, FReal 3); (0, 1, FReal 4)]%Z) [[f0; f1]])]
  /\ exists msg,
       add_inequality_constraints_to_matrix [[FReal 3; FReal 4]] [[f0; f1]] [[0; 1]]%Z
         "inequality_value" self []
       = Raised (ValueError msg).
Proof.
  intros self.
  destruct positive_x_renumbering as [Hnx Hgi]. fold self in Hnx, Hgi.
  assert (Hw : forall idc : list Z,
             length idc = 2 -> Forall (fun row : list Z => length row = 2) [idc])
    by (intros idc H; repeat constructor; exact H).
  assert (Hok : forall i j : Z,
             (0 <= i < 3)%Z -> (0 <= j < 3)%Z ->
             Forall (Forall (py_index_ok (n_nodes (support self)))) [[i; j]]).
  { intros i j Hi Hj. repeat constructor; cbn; lia. }
  split.
  - destruct (@add_inequality_constraints_to_matrix_stores [[FReal 3; FReal 4]]
                [[f0; f1]] [[0; 2]]%Z "inequality_value" self [] 2 eq_refl
                (ltac:(repeat constructor)) (Hw [0; 2]%Z eq_refl)
                (Hok 0%Z 2%Z ltac:(lia) ltac:(lia))) as [H _].
    rewrite H.
    + unfold mapped_columns, coo_triples. rewrite Hgi, Hnx. reflexivity.
    + unfold mapped_columns. rewrite Hgi. vm_compute.
      repeat (apply Forall_cons; [discriminate|]). apply Forall_nil.
  - destruct (@add_inequality_constraints_to_matrix_stores [[FReal 3; FReal 4]]
                [[f0; f1]] [[0; 1]]%Z "inequality_value" self [] 2 eq_refl
                (ltac:(repeat constructor)) (Hw [0; 1]%Z eq_refl)
                (Hok 0%Z 1%Z ltac:(lia) ltac:(lia))) as [_ H].
    apply H. unfold mapped_columns. rewrite Hgi. vm_compute.
    apply Exists_cons_tl. apply Exists_cons_hd. reflexivity.
Defined.

Lemma dict_keys_set_mem {V : Type} (key : string) (v : V) (d : dict V) :
  dict_mem key d = true -> dict_keys (dict_set key v d) = dict_keys d.
Proof.
  unfold dict_keys. induction d as [|[k v'] d IH]; cbn [dict_mem dict_set map fst];
    [discriminate|].
  destruct (String.eqb k key); [reflexivity|].
  intros H. cbn [map fst]. now rewrite IH.
Qed.

Lemma coo_matrix_arrays_shape (data : list npfloat) (rows cols : list Z) (m n : nat)
  (A : sparse) :
  coo_matrix_arrays data rows cols m n = Returned A -> sp_rows A = m /\ sp_cols A = n.
Proof.
  unfold coo_matrix_arrays. destruct (_ && _); [|discriminate].
  intros H. apply coo_matrix_shape in H. tauto.
Qed.

Lemma np_take2_length {X : Type} (a : list X) (idx : list (list Z))
  (taken : list (list X)) :
  np_take2 a idx = Returned taken -> length taken = length idx.
Proof.
  revert taken. induction idx as [|row idx IH]; intros taken H; cbn [np_take2] in H.
  - injection H as <-. reflexivity.
  - destruct (np_take a row) as [r| |]; cbn [obind] in H; try discriminate.
    destruct (np_take2 a idx) as [rs| |]; cbn [obind] in H; try discriminate.
    injection H as <-. cbn [length]. f_equal. now apply IH.
Qed.

Lemma add_inequality_returned
  (A bounds : list (list npfloat)) (idc : list (list Z)) (name : string)
  (self : DiscreteInterpolator) (registry registry' : dict ineq_block) :
  add_inequality_constraints_to_matrix A bounds idc name self registry
  = Returned registry' ->
  exists matrix,
    registry' = dict_set name (mkIneq matrix bounds) registry
    /\ sp_rows matrix = length idc /\ sp_cols matrix = nx self.
Proof.
  unfold add_inequality_constraints_to_matrix. intros H.
  destruct (np_take2 (gi self) idc) as [cols| |] eqn:Htake; cbn [obind] in H;
    try discriminate.
  destruct (coo_matrix_arrays _ _ _ _ _) as [matrix| |] eqn:Hcoo; cbn [obind] in H;
    try discriminate.
  injection H as <-.
  apply coo_matrix_arrays_shape in Hcoo. destruct Hcoo as [Hr Hc].
  rewrite length_map, np_arange_length, (np_take2_length _ _ Htake) in Hr.
  now exists matrix.
Qed.

(** X18: whenever [add_inequality_constraints_to_matrix] returns, the
    block is stored under the very name given, with a matrix of
    [idc.shape[0]] rows and [nx] columns and the bounds as given; the
    other names keep their blocks; a block already registered under the
    name is replaced in place (the name is not made unique, as it is
    for the soft constraints). *)
Theorem add_inequality_constraints_to_matrix_replaces
  (A bounds : list (list npfloat)) (idc : list (list Z)) (name : string)
  (self : DiscreteInterpolator) (registry registry' : dict ineq_block) :
  add_inequality_constraints_to_matrix A bounds idc name self registry
  = Returned registry' ->
  (exists matrix,
      dict_get name registry' = Some (mkIneq matrix bounds)
      /\ sp_rows matrix = length idc /\ sp_cols matrix = nx self)
  /\ (forall other, other <> name -> dict_get other registry' = dict_get other registry)
  /\ (dict_mem name registry = true -> dict_keys registry' = dict_keys registry)
  /\ (dict_mem name registry = false -> dict_keys registry' = dict_keys registry ++ [name]).
Proof.
  intros H. destruct (add_inequality_returned _ _ _ _ _ _ H) as (matrix & -> & Hr & Hc).
  split; [|split; [|split]].
  - exists matrix. split; [apply dict_get_set_same|]. split; assumption.
  - intros other Hne. now apply dict_get_set_other.
  - apply dict_keys_set_mem.
  - apply dict_keys_set_new.
Qed.

Lemma add_inequality_constraints_to_matrix_replaces_witness :
  let self := init (line_support [0; 1]%R) false in
  exists reg1 reg2,
    add_inequality_constraints_to_matrix [[f1]] [[f0; f1]] [[0%Z]] "inequality_value"
      self [] = Returned reg1
    /\ add_inequality_constraints_to_matrix [[f1]; [f1]] [[f0; f1]; [f0; f1]]
         [[0%Z]; [1%Z]] "inequality_value" self reg1 = Returned reg2
    /\ dict_keys reg2 = dict_keys reg1.
Proof.
  intros self. eexists. eexists. split; [reflexivity|]. split; [reflexivity|].
  apply (@add_inequality_constraints_to_matrix_replaces [[f1]; [f1]]
           [[f0; f1]; [f0; f1]] [[0%Z]; [1%Z]] "inequality_value" self);
    reflexivity.
Defined.

Lemma np_hstack2_rows (arrays : list (list (list npfloat)))
  (bounds : list (list npfloat)) :
  np_hstack2 arrays = Returned bounds ->
  Forall (fun b => length b = length bounds) arrays.
Proof.
  destruct arrays as [|a rest]; cbn [np_hstack2]; [discriminate|].
  destruct (forallb _ rest) eqn:E; [|discriminate].
  intros H. injection H as <-. rewrite length_map, length_seq.
  constructor; [reflexivity|].
  apply Forall_forall. intros b Hin. rewrite forallb_forall in E.
  apply Nat.eqb_eq. now apply E.
Qed.

(** X19: [build_inequality_matrix] raises [ValueError] on an empty
    registry.  When it returns [Q, bounds], the matrices are stacked one
    under the other, so [Q] has the rows of all the blocks together,
    while the two-dimensional bounds arrays are joined side by side, so
    [bounds] has the rows of one block, the same number for every
    block: with one bounds row per matrix row, [Q] has as many rows as
    [bounds] times the number of blocks. *)
Theorem build_inequality_matrix_rows (registry : dict ineq_block) (Q : sparse)
  (bounds : list (list npfloat)) :
  build_inequality_matrix [] = Raised (ValueError "blocks must be 2-D")
  /\ (build_inequality_matrix registry = Returned (Q, bounds) ->
      registry <> []
      /\ sp_rows Q = list_sum (map (fun blk => sp_rows (ineq_matrix blk))
                                   (dict_values registry))
      /\ Forall (fun blk => length (ineq_bounds blk) = length bounds)
                (dict_values registry)
      /\ (Forall (fun blk => length (ineq_bounds blk) = sp_rows (ineq_matrix blk))
                 (dict_values registry) ->
          sp_rows Q = length registry * length bounds)).
Proof.
  split; [reflexivity|].
  unfold build_inequality_matrix. intros H.
  destruct (sp_vstack (map ineq_matrix (dict_values registry))) as [Q'| |] eqn:HQ;
    cbn [obind] in H; try discriminate.
  destruct (np_hstack2 (map ineq_bounds (dict_values registry))) as [b'| |] eqn:Hb;
    cbn [obind] in H; try discriminate.
  injection H as <- <-.
  assert (Hrows : sp_rows Q' = list_sum (map (fun blk => sp_rows (ineq_matrix blk))
                                             (dict_values registry))).
  { destruct (dict_values registry) as [|blk blocks]; [discriminate|].
    cbn [map sp_vstack] in HQ. rewrite (vstack_from_rows _ _ HQ).
    cbn [map]. rewrite list_sum_cons, map_map. reflexivity. }
  assert (Hbounds : Forall (fun blk => length (ineq_bounds blk) = length b')
                           (dict_values registry)).
  { apply np_hstack2_rows in Hb. rewrite Forall_map in Hb. exact Hb. }
  split; [|split; [exact Hrows|split; [exact Hbounds|]]].
  - intros ->. discriminate.
  - intros Hper. rewrite Hrows.
    replace (length registry) with (length (dict_values registry))
      by (unfold dict_values; apply length_map).
    clear HQ Hb Hrows. revert Hbounds Hper.
    generalize (dict_values registry) as blocks.
    induction blocks as [|blk blocks IH]; intros Hbounds Hper; [reflexivity|].
    inversion Hbounds; subst. inversion Hper; subst.
    cbn [map length]. rewrite list_sum_cons, IH by assumption. lia.
Qed.

Lemma build_inequality_matrix_rows_witness :
  let registry :=
    [("inequality_value", mkIneq (mkSparse 1 2 [(0%Z, 0%Z, f1)]) [[f0; f1]]);
     ("inequality_pairs", mkIneq (mkSparse 1 2 [(0%Z, 1%Z, f1)]) [[f0; f1]])] in
  exists Q bounds,
    build_inequality_matrix registry = Returned (Q, bounds)
    /\ sp_rows Q = 2 /\ length bounds = 1.
Proof.
  intros registry. eexists. eexists. split; [reflexivity|].
  split; [|reflexivity].
  destruct (@build_inequality_matrix_rows registry
              (mkSparse 2 2 [(0%Z, 0%Z, f1); (1%Z, 1%Z, f1)]) [[f0; f1; f0; f1]])
    as [_ H].
  destruct (H eq_refl) as (_ & _ & _ & Hrows).
  apply Hrows. repeat constructor.
Defined.

(** ** Gradient evaluation *)

Section GradientEvaluation.

Variable kwargs : Type.
Variable no_kwargs : kwargs.
Variable sla_cg : sparse -> list npfloat -> kwargs -> list npfloat * Z.
Variable sla_lsmr : sparse -> list npfloat -> kwargs -> list npfloat * Z.
Variable setup_hook : DiscreteInterpolator -> DiscreteInterpolator.

(** A stale object whose setup registers no soft constraint cannot be
    brought up to date: the solve raises. *)
Lemma update_without_constraints (self : DiscreteInterpolator) :
  solver self <> SolverNone -> up_to_date self = false ->
  constraints (setup_hook (emit SetupCalled self)) = [] ->
  fst (update no_kwargs sla_cg sla_lsmr setup_hook self)
  = Raised (ValueError "blocks must be 2-D").
Proof.
  intros Hsolver Hutd Hhook.
  assert (Hrun : fst (bind (setup_interpolator setup_hook) (fun _ =>
                      bind get (fun self0 =>
                      bind (solve_system sla_cg sla_lsmr (solver self0) no_kwargs)
                           (fun r => ret (Some r)))) self)
                 = Raised (ValueError "blocks must be 2-D")).
  { unfold setup_interpolator. run_method.
    match goal with
    | |- context [solve_system sla_cg sla_lsmr ?sv no_kwargs ?st] =>
        assert (He : assembled st = Raised (ValueError "blocks must be 2-D"))
          by (unfold assembled;
              cbn [constraints set_equal_constraints set_constraints];
              rewrite Hhook; reflexivity);
        destruct (solve_system_assembly_raises sla_cg sla_lsmr sv no_kwargs st He)
          as [Hfst _];
        destruct (solve_system sla_cg sla_lsmr sv no_kwargs st) as [o s2]
    end.
    cbn [fst] in Hfst. subst o. reflexivity. }
  unfold update. unfold bind at 1. unfold get at 1. rewrite Hutd. cbn [negb].
  destruct (solver self); try exact Hrun. contradiction.
Qed.

End GradientEvaluation.

(** X20: [evaluate_gradient] on an up-to-date object leaves the object
    as it is and returns what the support answers for all the locations
    with the stored solution, and no row for no location, without
    asking the support.  On a stale object it solves first: when the
    setup registers no soft constraint the call raises [ValueError],
    even for no location at all. *)
Theorem evaluate_gradient_cases
  (kwargs : Type) (no_kwargs : kwargs)
  (sla_cg sla_lsmr : sparse -> list npfloat -> kwargs -> list npfloat * Z)
  (setup_hook : DiscreteInterpolator -> DiscreteInterpolator)
  (self : DiscreteInterpolator) (locations : list point) :
  solver self <> SolverNone ->
  (up_to_date self = true ->
   evaluate_gradient no_kwargs sla_cg sla_lsmr setup_hook locations self
   = (Returned (match locations with
                | [] => []
                | _ => support_evaluate_gradient (support self) locations (c self)
                end), self))
  /\ (up_to_date self = false ->
      constraints (setup_hook (emit SetupCalled self)) = [] ->
      fst (evaluate_gradient no_kwargs sla_cg sla_lsmr setup_hook locations self)
      = Raised (ValueError "blocks must be 2-D")).
Proof.
  intros Hsolver. split.
  - intros Hutd. unfold evaluate_gradient, bind.
    rewrite (@update_up_to_date kwargs no_kwargs sla_cg sla_lsmr setup_hook self Hutd Hsolver).
    destruct locations; reflexivity.
  - intros Hutd Hhook. unfold evaluate_gradient, bind.
    assert (H := @update_without_constraints kwargs no_kwargs sla_cg sla_lsmr
                   setup_hook self Hsolver Hutd Hhook).
    destruct (update no_kwargs sla_cg sla_lsmr setup_hook self) as [o s1].
    cbn [fst] in H. subst o. reflexivity.
Qed.

Lemma evaluate_gradient_cases_witness :
  fst (evaluate_gradient tt (zero_backend 0) (zero_backend 1) (fun s => s) []
         (init (line_support [0; 1]%R) false))
  = Raised (ValueError "blocks must be 2-D").
Proof.
  destruct (@evaluate_gradient_cases unit tt (zero_backend 0) (zero_backend 1)
              (fun s => s) (init (line_support [0; 1]%R) false) [])
    as [_ H].
  - discriminate.
  - apply H; reflexivity.
Defined.

(** ** The names of the soft constraints, for any block *)

(** X21: the collision policy for a name without underscore, whatever
    the block: when the name and its suffixes [_0] to [_(n-1)] are
    registered and the suffix [_n] is free, a call under that name
    either leaves the registry as it is (it raised, or the shapes did
    not match) or registers its block under the name with suffix [_n],
    after the blocks that were there; under a free name the block is
    registered under the name itself. *)
Theorem add_constraints_name_policy (fuel : nat) (A : ndarray npfloat)
  (B : list npfloat) (idc : ndarray Z) (w : weight) (name : string)
  (self : DiscreteInterpolator) (n : nat) :
  has_underscore name = false ->
  (forall i, (0 <= i < Z.of_nat n)%Z ->
             dict_mem (suffixed name i) (constraints self) = true) ->
  dict_mem (suffixed name (Z.of_nat n)) (constraints self) = false ->
  n < fuel ->
  let self' := snd (add_constraints_to_least_squares fuel A B idc w name self) in
  let stored := if dict_mem name (constraints self)
                then suffixed name (Z.of_nat n) else name in
  dict_keys (constraints self') = dict_keys (constraints self)
  \/ (dict_keys (constraints self') = dict_keys (constraints self) ++ [stored]
      /\ fst (add_constraints_to_least_squares fuel A B idc w name self) = Returned tt).
Proof.
  intros Hname Htaken Hfree Hfuel self' stored. subst self' stored.
  destruct (add_constraints_registry fuel A B idc w name self)
    as [->|(name' & blk & Hnew & -> & Hret & Hloop)]; [now left|].
  right. split; [|exact Hret].
  rewrite dict_keys_set_new by exact Hnew. f_equal. f_equal.
  destruct (dict_mem name (constraints self)) eqn:Hmem.
  - rewrite (@unique_name_counts _ name (constraints self) n fuel
               Hname Hmem Htaken Hfree Hfuel) in Hloop.
    now injection Hloop.
  - destruct fuel; cbn [unique_name] in Hloop; rewrite Hmem in Hloop;
      now injection Hloop.
Qed.

Lemma add_constraints_name_policy_witness :
  dict_keys (constraints (snd (add_named 2 "value" one_block_interpolator)))
  = ["value"; "value_0"].
Proof.
  destruct (@add_constraints_name_policy 2 (Arr2 [[FReal 1]]) [FReal 2]
              (Arr2 [[0%Z]]) (WScalar f1) "value" one_block_interpolator 0
              eq_refl) as [H|[H _]].
  - intros i Hi. lia.
  - reflexivity.
  - lia.
  - exfalso. apply (f_equal (@length string)) in H.
    assert (Hkeys : length (dict_keys (constraints
                      (snd (add_constraints_to_least_squares 2 (Arr2 [[FReal 1]])
                              [FReal 2] (Arr2 [[0%Z]]) (WScalar f1) "value"
                              one_block_interpolator)))) = 2).
    { destruct (add_named_outcome 2 "value" one_block_interpolator eq_refl)
        as [blk Hrun].
      unfold add_named in Hrun. rewrite Hrun. reflexivity. }
    rewrite Hkeys in H. discriminate.
  - exact H.
Defined.

(** ** The entries of the assembled system *)

Lemma weighted_blocks_closed (blocks : list soft_block) (mats : list sparse)
  (bs : list (list npfloat)) :
  weighted_blocks blocks = Returned (mats, bs) ->
  mats = map (fun blk =>
                mkSparse (sp_rows (blk_matrix blk)) (sp_cols (blk_matrix blk))
                  (map (fun e => (fst e, np_mul (snd e)
                                           (nth (Z.to_nat (fst (fst e))) (blk_w blk) FNaN)))
                       (sp_entries (blk_matrix blk))))
             (filter contributes blocks)
  /\ bs = map (fun blk => zip_with np_mul (blk_b blk) (blk_w blk))
              (filter contributes blocks).
Proof.
  revert mats bs. induction blocks as [|blk blocks IH]; intros mats bs H.
  - cbn in H. injection H as <- <-. split; reflexivity.
  - cbn [weighted_blocks] in H. cbn [filter].
    assert (Hc : contributes blk = negb (Nat.eqb (length (blk_w blk)) 0))
      by reflexivity.
    rewrite Hc.
    destruct (Nat.eqb (length (blk_w blk)) 0); cbn [negb]; [now apply IH|].
    unfold sp_scale_rows, np_mul_vec in H.
    destruct (Nat.eqb (length (blk_w blk)) (sp_rows (blk_matrix blk)));
      cbn [obind] in H; [|discriminate].
    destruct (Nat.eqb (length (blk_b blk)) (length (blk_w blk)));
      cbn [obind] in H; [|discriminate].
    destruct (weighted_blocks blocks) as [[mats' bs']| |]; cbn [obind] in H;
      try discriminate.
    injection H as <- <-. cbn [fst snd map].
    destruct (IH mats' bs' eq_refl) as [-> ->]. split; reflexivity.
Qed.

Lemma vstack_from_weighted (blocks : list soft_block) (acc A : sparse) :
  vstack_from acc
    (map (fun blk =>
            mkSparse (sp_rows (blk_matrix blk)) (sp_cols (blk_matrix blk))
              (map (fun e => (fst e, np_mul (snd e)
                                       (nth (Z.to_nat (fst (fst e))) (blk_w blk) FNaN)))
                   (sp_entries (blk_matrix blk))))
         blocks)
  = Returned A ->
  sp_entries A = sp_entries acc ++ weighted_entries (sp_rows acc) blocks.
Proof.
  revert acc. induction blocks as [|blk blocks IH]; intros acc H.
  - cbn in H. injection H as <-. cbn. now rewrite app_nil_r.
  - cbn [map vstack_from sp_cols] in H.
    destruct (Nat.eqb (sp_cols (blk_matrix blk)) (sp_cols acc)); [|discriminate].
    rewrite (IH _ H). cbn [sp_entries sp_rows weighted_entries].
    rewrite <- app_assoc. f_equal. f_equal.
    unfold sp_shift. cbn [sp_entries]. rewrite map_map.
    apply map_ext. intros [[i j] v]. cbn [fst snd]. f_equal. f_equal. lia.
Qed.

(** X22: what [build_matrix] returns after any sequence of returning
    calls of [add_constraints_to_least_squares] from an empty registry,
    entry by entry.  Every registered block has one weight and one
    right-hand side per row; the blocks without rows are left out; the
    others are stacked in the order of registration, each entry
    [(i, j, v)] of a block on the row [i] counted from the rows of the
    blocks before it, on the same column, with the value [v * w[i]]; the
    right-hand side is the sequence of their [b * w]. *)
Theorem build_matrix_weights_rows (self self' : DiscreteInterpolator)
  (calls : list soft_call) (A : sparse) (B : list npfloat) :
  constraints self = [] -> accepted self calls self' ->
  fst (build_matrix self') = Returned (A, B) ->
  let blocks := filter contributes (dict_values (constraints self')) in
  Forall (block_ok (nx self')) (dict_values (constraints self'))
  /\ sp_entries A = weighted_entries 0 blocks
  /\ B = concat (map (fun blk => zip_with np_mul (blk_b blk) (blk_w blk)) blocks)
  /\ blocks <> [].
Proof.
  intros Hempty Hacc H blocks.
  assert (Hok : Forall (block_ok (nx self')) (dict_values (constraints self'))).
  { apply (@accepted_blocks_ok self self' calls Hacc). rewrite Hempty. constructor. }
  split; [exact Hok|].
  rewrite build_matrix_outcome in H. unfold assembled in H.
  destruct (weighted_blocks (dict_values (constraints self'))) as [[mats bs]| |] eqn:Hwb;
    cbn [obind fst snd] in H; try discriminate.
  destruct (weighted_blocks_closed _ Hwb) as [Hmats Hbs]. fold blocks in Hmats, Hbs.
  destruct blocks as [|blk blocks'] eqn:Hblocks.
  - subst mats. cbn in H. discriminate.
  - subst mats bs. cbn [map sp_vstack] in H.
    destruct (vstack_from _ _) as [A'| |] eqn:Hv; cbn [obind] in H; try discriminate.
    cbn [np_hstack obind] in H. injection H as <- <-.
    split; [|split; [reflexivity|discriminate]].
    rewrite (vstack_from_weighted _ _ Hv). cbn [sp_entries sp_rows weighted_entries].
    f_equal. apply map_ext. intros [[i j] v]. cbn [fst snd]. f_equal. f_equal. lia.
Qed.

Lemma build_matrix_weights_rows_witness :
  let self := init (line_support [0; 1]%R) false in
  let call := mkSoftCall 1 (Arr2 [[FReal 3; FReal 4]; [f0; f0]])
                [FReal 10; FReal 2] (Arr2 [[0; 1]; [0; 1]]%Z) (WScalar (FReal 2))
                "grad" in
  exists self' A B,
    accepted self [call] self'
    /\ fst (build_matrix self') = Returned (A, B)
    /\ sp_entries A
       = weighted_entries 0 (filter contributes (dict_values (constraints self')))
    /\ B = concat (map (fun blk => zip_with np_mul (blk_b blk) (blk_w blk))
                       (filter contributes (dict_values (constraints self')))).
Proof.
  intros self call.
  assert (Hrun := @add_constraints_stores 1 (call_A call) (call_B call)
                    (call_idc call) (call_w call) "grad" "grad" self
                    [2; 2] 2 _ _ _ _ (WScalar (FReal 2))
                    eq_refl eq_refl eq_refl eq_refl eq_refl eq_refl eq_refl
                    ltac:(repeat constructor)).
  assert (Hacc := @accepted_cons self _ _ call [] Hrun (accepted_nil _)).
  match type of Hacc with
  | accepted _ _ ?st =>
      assert (Hok : Forall (block_ok (nx st)) (dict_values (constraints st)))
        by (apply (@accepted_blocks_ok self st [call] Hacc); constructor);
      destruct (assembled_ok st Hok) as [Hret _];
      destruct (Hret ltac:(destruct (has_nan _ _ _); reflexivity)) as (A & B & HAB);
      rewrite <- build_matrix_outcome in HAB;
      destruct (@build_matrix_weights_rows self st [call] A B eq_refl Hacc HAB)
        as (_ & HA & HB & _);
      exists st, A, B
  end.
  split; [exact Hacc|]. split; [exact HAB|]. split; [exact HA|exact HB].
Defined.

(** ** Inequality constraints on values *)

Lemma count_true_negb (mask : list bool) :
  count_true mask + count_true (map negb mask) = length mask.
Proof.
  unfold count_true. induction mask as [|[|] mask IH]; cbn; [reflexivity| |]; lia.
Qed.

Lemma np_mask_rows_length {X : Type} (mask : list bool) (arr selected : list X) :
  np_mask_rows mask arr = Returned selected ->
  length mask = length arr /\ length selected = count_true mask.
Proof.
  unfold np_mask_rows. destruct (Nat.eqb (length mask) (length arr)) eqn:E;
    [|discriminate].
  apply Nat.eqb_eq in E. intros H. injection H as <-.
  split; [exact E|]. now apply mask_select_length.
Qed.

Lemma np_take_length {X : Type} (a : list X) (idx : list Z) (taken : list X) :
  np_take a idx = Returned taken -> length taken = length idx.
Proof.
  revert taken. induction idx as [|i idx IH]; intros taken H; cbn [np_take] in H.
  - injection H as <-. reflexivity.
  - destruct (py_getitem a i); [|discriminate].
    destruct (np_take a idx) as [xs| |]; try discriminate.
    injection H as <-. cbn [length]. f_equal. now apply IH.
Qed.

(** X23: [add_value_inequality_constraints] does nothing without
    points.  With points, whenever it returns, the block
    ["inequality_value"] has one matrix row for each point inside the
    mesh, but its bounds are taken from all the points: the bounds have
    as many rows more than the matrix as there are points outside the
    mesh. *)
Theorem add_value_inequality_constraints_rows
  (get_inequality_value_constraints : DiscreteInterpolator -> list point)
  (vertices_array : Type)
  (get_element_for_location :
     Support -> list point -> vertices_array * list (list npfloat) * list Z * list bool)
  (elements : Support -> list (list Z))
  (w : npfloat) (self : DiscreteInterpolator) (registry registry' : dict ineq_block) :
  add_value_inequality_constraints get_inequality_value_constraints
    get_element_for_location elements w self registry = Returned registry' ->
  let points := get_inequality_value_constraints self in
  let inside := snd (get_element_for_location (support self) points) in
  (points = [] -> registry' = registry)
  /\ (points <> [] ->
      exists blk,
        dict_get "inequality_value" registry' = Some blk
        /\ sp_rows (ineq_matrix blk) = count_true inside
        /\ sp_cols (ineq_matrix blk) = nx self
        /\ length (ineq_bounds blk) = length points
        /\ length (ineq_bounds blk)
           = sp_rows (ineq_matrix blk) + count_true (map negb inside)).
Proof.
  intros H points inside. unfold add_value_inequality_constraints in H.
  fold points in H. split.
  - intros Hempty. rewrite Hempty in H. cbn in H. now injection H.
  - intros Hne.
    assert (Hpos : Nat.ltb 0 (length points) = true)
      by (destruct points; [congruence|reflexivity]).
    rewrite Hpos in H. subst inside.
    destruct (get_element_for_location (support self) points)
      as [[[vertices a] element] inside]. cbn [snd].
    destruct (np_mask_rows inside points) as [inside_points| |] eqn:Hp;
      cbn [obind] in H; try discriminate.
    destruct (np_mask_rows inside a) as [a'| |] eqn:Ha; cbn [obind] in H;
      try discriminate.
    destruct (np_mask_rows inside element) as [element'| |] eqn:He;
      cbn [obind] in H; try discriminate.
    destruct (np_take (elements (support self)) element') as [cols| |] eqn:Hc;
      cbn [obind] in H; try discriminate.
    destruct (add_inequality_returned _ _ _ _ _ _ H) as (matrix & -> & Hr & Hcols).
    eexists. split; [apply dict_get_set_same|]. cbn [ineq_matrix ineq_bounds].
    destruct (np_mask_rows_length _ _ Hp) as [Hlen _].
    destruct (np_mask_rows_length _ _ He) as [_ Hel].
    assert (Hrows : sp_rows matrix = count_true inside)
      by (rewrite Hr, (np_take_length _ _ Hc); exact Hel).
    split; [exact Hrows|]. split; [exact Hcols|].
    rewrite length_map. split; [reflexivity|].
    rewrite Hrows, count_true_negb. now symmetry.
Qed.

Lemma add_value_inequality_constraints_rows_witness :
  let points := fun _ : DiscreteInterpolator =>
                  [[f0; f0; f0; f1; FReal 2]; [FReal 5; f0; f0; f1; FReal 2]] in
  let locate := fun (_ : Support) (_ : list point) =>
                  (tt, [[f1]; [f1]], [0; 0]%Z, [true; false]) in
  let self := init (line_support [0; 1]%R) false in
  exists registry' blk,
    add_value_inequality_constraints points locate (fun _ => [[0%Z]]) f1 self []
    = Returned registry'
    /\ dict_get "inequality_value" registry' = Some blk
    /\ sp_rows (ineq_matrix blk) = 1
    /\ length (ineq_bounds blk) = 2.
Proof.
  intros points locate self.
  assert (Hrun : add_value_inequality_constraints points locate (fun _ => [[0%Z]]) f1
                   self []
                 = Returned [("inequality_value",
                              mkIneq (mkSparse 1 2 [(0%Z, 0%Z, f1)])
                                     [[f1; FReal 2]; [f1; FReal 2]])])
    by reflexivity.
  destruct (@add_value_inequality_constraints_rows points unit locate
              (fun _ => [[0%Z]]) f1 self [] _ Hrun) as [_ H].
  destruct H as (blk & Hget & Hrows & _ & Hlen & _); [discriminate|].
  eexists. exists blk. split; [exact Hrun|]. split; [exact Hget|].
  split; [exact Hrows|exact Hlen].
Defined.

(** ** Soft constraints: NaN in the coefficient array *)

Lemma no_nan_is_real (row : list npfloat) :
  existsb np_isnan row = false -> exists rs, row = map FReal rs.
Proof.
  induction row as [|x row IH]; intros H; [now exists []|].
  cbn [existsb] in H. apply orb_false_iff in H. destruct H as [Hx Hrow].
  destruct (IH Hrow) as [rs ->]. destruct x as [|r]; [discriminate|].
  now exists (r :: rs).
Qed.

Lemma existsb_isnan_int (l : list Z) : existsb np_isnan_int l = false.
Proof. induction l as [|x l IH]; [reflexivity|exact IH]. Qed.

Lemma zeros_no_nan {X : Type} (row : list X) :
  existsb np_isnan (map (fun _ => f0) row) = false.
Proof. induction row as [|x row IH]; [reflexivity|exact IH]. Qed.

(** The stored coefficients never hold a NaN: the rows with a NaN have
    been zeroed, the others divided by a positive number or kept. *)
Lemma normalised_A_no_nan (A : list (list npfloat)) :
  existsb np_isnan (concat (normalised_A A)) = false.
Proof.
  unfold normalised_A, normalise_rows, zero_nan_rows.
  induction A as [|row A IH]; [reflexivity|].
  cbn [map zip_with concat]. rewrite existsb_app, IH, orb_false_r.
  destruct (existsb np_isnan row) eqn:Hnan.
  - rewrite (norm_row_nan _ Hnan). cbn [np_gt]. apply zeros_no_nan.
  - destruct (no_nan_is_real _ Hnan) as [rs ->].
    rewrite norm_row_real.
    destruct (np_gt (FReal (sqrt (sum_sq rs))) f0) eqn:Hgt; [|exact Hnan].
    unfold np_gt, f0 in Hgt.
    destruct (Rlt_dec 0 (sqrt (sum_sq rs))) as [Hpos|]; [|discriminate].
    clear Hnan Hgt IH. set (l := sqrt (sum_sq rs)) in *. clearbody l.
    induction rs as [|r rs IHr]; [reflexivity|].
    cbn [map existsb]. rewrite IHr, orb_false_r.
    unfold np_div. destruct (Req_dec_T l 0); [lra|reflexivity].
Qed.

Lemma normalised_B_nan (A : list (list npfloat)) (B : list npfloat) :
  length B = length A ->
  existsb np_isnan (normalised_B A B) = existsb np_isnan B.
Proof.
  unfold normalised_B, normalise_b. revert A.
  induction B as [|b B IH]; intros [|row A] H; try discriminate; [reflexivity|].
  cbn [map zip_with existsb]. rewrite (IH A) by (cbn in H; lia). f_equal.
  destruct (np_gt (norm_row row) f0) eqn:Hgt; [|reflexivity].
  destruct (norm_row row) as [|l]; [discriminate|].
  unfold np_gt, f0 in Hgt. destruct (Rlt_dec 0 l) as [Hpos|]; [|discriminate].
  destruct b as [|x]; [reflexivity|].
  unfold np_div. destruct (Req_dec_T l 0); [lra|reflexivity].
Qed.

(** X24: the NaN test of [add_constraints_to_least_squares] comes after
    the rows of [A] that hold a NaN have been set to zero: whenever a
    call on arguments of matching shapes returns, the warning is logged
    exactly when [B] holds a NaN; a coefficient row that holds a NaN is
    stored as a row of zeros with its right-hand side as given, and the
    stored coefficients hold no NaN at all. *)
Theorem add_constraints_nan_row_zeroed (fuel : nat) (A : ndarray npfloat)
  (B : list npfloat) (idc : ndarray Z) (w : weight) (name : string)
  (self self' : DiscreteInterpolator) (s : list nat) (n_rows : nat)
  (A2 : list (list npfloat)) (idc2 : list (list Z)) (B2 : list npfloat)
  (w2 : weight) :
  np_shape A = Returned s -> np_shape idc = Returned s ->
  flatten_block A idc B w = Returned (n_rows, A2, idc2, B2, w2) ->
  add_constraints_to_least_squares fuel A B idc w name self = (Returned tt, self') ->
  trace self' = (if existsb np_isnan B then trace self ++ [nan_warning name]
                 else trace self)
  /\ exists name' blk,
       dict_get name' (constraints self') = Some blk
       /\ existsb np_isnan (map snd (sp_entries (blk_matrix blk))) = false
       /\ forall i, i < length A2 -> existsb np_isnan (nth i A2 []) = true ->
            sp_row (blk_matrix blk) (Z.of_nat i) = map (fun _ => f0) (nth i A2 [])
            /\ nth i (blk_b blk) FNaN = nth i B FNaN.
Proof.
  intros HsA HsI Hflat Hrun.
  destruct (add_constraints_returned _ _ _ _ _ _ _ Hrun)
    as [(sa & si & HsA' & HsI' & Hne & _)
       |(s' & n' & A' & idc' & B' & w' & wv & name' & matrix
         & _ & _ & Hflat' & HB & _ & _ & Hname & Hcoo & ->)];
    [congruence|].
  rewrite Hflat in Hflat'. injection Hflat' as <- <- <- <- <-.
  destruct (flatten_block_shapes _ _ _ _ HsA HsI Hflat)
    as (Hn & Hlen & HB2 & width & HwA & HwI).
  subst B2.
  destruct (coo_matrix_shape _ _ _ Hcoo) as (Hrows & Hcolumns & Hentries).
  assert (Hnan : has_nan (normalised_A A2) idc2 (normalised_B A2 B)
                 = existsb np_isnan B).
  { unfold has_nan.
    now rewrite existsb_isnan_int, normalised_A_no_nan, normalised_B_nan. }
  rewrite Hnan. split.
  - destruct (existsb np_isnan B); reflexivity.
  - exists name', (mkSoft matrix (normalised_B A2 B) wv).
    split; [cbn [constraints set_constraints]; apply dict_get_set_same|].
    cbn [blk_matrix blk_b]. split.
    + rewrite Hentries.
      assert (Hvals : forall (rows : list (list npfloat)) (cols : list (list Z)) start,
                 existsb np_isnan (concat rows) = false ->
                 existsb np_isnan
                   (map snd (concat (zip_with (fun k rc =>
                      zip_with (fun v j => (Z.of_nat k, j, v)) (fst rc) (snd rc))
                      (seq start (length rows)) (combine rows cols)))) = false).
      { induction rows as [|row rows IH]; intros [|col cols] start Hno;
          try reflexivity.
        cbn [length seq combine zip_with concat fst snd] in *.
        rewrite existsb_app in Hno. apply orb_false_iff in Hno.
        destruct Hno as [Hrow Hrest].
        rewrite map_app, existsb_app, (IH cols (S start) Hrest), orb_false_r.
        clear IH Hrest. revert col. induction row as [|v row IHr]; intros [|j col];
          try reflexivity.
        cbn [existsb] in Hrow. apply orb_false_iff in Hrow.
        destruct Hrow as [Hv Hrow].
        cbn [zip_with map snd existsb]. now rewrite Hv, IHr. }
      apply Hvals. apply normalised_A_no_nan.
    + intros i Hi Hrow.
      assert (Hwidths : length (nth i idc2 []) = length (nth i (normalised_A A2) [])).
      { rewrite normalised_A_row_lengths by assumption.
        rewrite Forall_forall in HwA, HwI.
        rewrite (HwA (nth i A2 [])) by (apply nth_In; lia).
        apply HwI. apply nth_In. lia. }
      destruct (@sp_row_coo_triples (normalised_A A2) idc2 matrix i)
        as [Hsp _]; trivial; try (now rewrite normalised_A_length).
      rewrite Hsp, normalised_A_nth, normalised_B_nth by assumption.
      cbv zeta. rewrite Hrow, (norm_row_nan _ Hrow). cbn [np_gt]. split; reflexivity.
Qed.

Lemma add_constraints_nan_row_zeroed_witness :
  exists self' blk,
    add_constraints_to_least_squares 1 (Arr2 [[FNaN; f1]]) [FReal 5]
      (Arr2 [[0; 1]]%Z) (WScalar f1) "value" (init (line_support [0; 1]%R) false)
    = (Returned tt, self')
    /\ trace self' = trace (init (line_support [0; 1]%R) false)
    /\ dict_get "value" (constraints self') = Some blk
    /\ sp_row (blk_matrix blk) 0 = [f0; f0]
    /\ blk_b blk = [FReal 5].
Proof.
  assert (Hrun : add_constraints_to_least_squares 1 (Arr2 [[FNaN; f1]]) [FReal 5]
                   (Arr2 [[0; 1]]%Z) (WScalar f1) "value"
                   (init (line_support [0; 1]%R) false)
                 = (Returned tt,
                    set_constraints
                      [("value", mkSoft (mkSparse 1 2 [(0, 0, f0); (0, 1, f0)]%Z)
                                        [FReal 5] [np_mul f1 f1])]
                      (init (line_support [0; 1]%R) false)))
    by reflexivity.
  destruct (@add_constraints_nan_row_zeroed 1 (Arr2 [[FNaN; f1]]) [FReal 5]
              (Arr2 [[0; 1]]%Z) (WScalar f1) "value"
              (init (line_support [0; 1]%R) false) _ [1; 2] 1 [[FNaN; f1]]
              [[0; 1]]%Z [FReal 5] (WScalar f1) eq_refl eq_refl eq_refl Hrun)
    as (Htrace & _).
  eexists. eexists. split; [exact Hrun|]. split; [exact Htrace|].
  split; [reflexivity|]. split; reflexivity.
Defined.

(** ** The region map of the objects of the class *)


(** ** The value of [solve_system] and the solution it leaves *)

Section ReturnValue.

Variable kwargs : Type.
Variable sla_cg : sparse -> list npfloat -> kwargs -> list npfloat * Z.
Variable sla_lsmr : sparse -> list npfloat -> kwargs -> list npfloat * Z.

(** The dispatch on ["cg"], from any state: the answer of [cg] on the
    normal equations is stored. *)
Lemma dispatch_solver_cg (kw : kwargs) (A : sparse) (b : list npfloat)
  (st : DiscreteInterpolator) :
  length b = sp_rows A ->
  exists ATA ATB st',
    sp_dot (sp_transpose A) A = Returned ATA
    /\ sp_dot_vec (sp_transpose A) b = Returned ATB
    /\ dispatch_solver sla_cg sla_lsmr (SolverStr "cg") kw A b st = (Returned true, st')
    /\ c st' = fst (sla_cg ATA ATB kw) /\ up_to_date st' = true.
Proof.
  intros Hb.
  cbn [dispatch_solver known_solver String.eqb Ascii.eqb Bool.eqb orb negb].
  unfold bind, ret. cbn [solver_is String.eqb Ascii.eqb Bool.eqb].
  destruct (sp_dot_transpose A) as (ATA & HATA & _).
  destruct (@sp_dot_vec_transpose A b Hb) as (ATB & HATB & _).
  destruct (solve_cg_run sla_cg A b kw st)
    as [(st' & ATA' & ATB' & -> & HATA' & HATB' & Hc & Hutd & _)
       |(e & st' & Hraise & _)].
  - exists ATA', ATB', st'. auto.
  - exfalso. unfold solve_cg in Hraise. revert Hraise. run_method.
    rewrite HATA, HATB. destruct (snd (sla_cg ATA ATB kw) >? 0)%Z; discriminate.
Qed.

(** Every solver name but ["lsmr"] ends in the conjugate gradient. *)
Lemma solve_system_not_lsmr (s : string) (kw : kwargs) (self : DiscreteInterpolator)
  (A : sparse) (b : list npfloat) :
  String.eqb s "lsmr" = false ->
  assembled self = Returned (A, b) ->
  exists ATA ATB self',
    sp_dot (sp_transpose A) A = Returned ATA
    /\ sp_dot_vec (sp_transpose A) b = Returned ATB
    /\ solve_system sla_cg sla_lsmr (SolverStr s) kw self = (Returned true, self')
    /\ c self' = fst (sla_cg ATA ATB kw) /\ up_to_date self' = true.
Proof.
  intros Hs Hasm. rewrite solve_system_unfold. unfold bind.
  destruct (@build_matrix_assembled self A b Hasm) as (self1 & -> & _).
  cbn [fst snd].
  assert (Hb := @assembled_rhs_length self A b Hasm).
  destruct (String.eqb s "cg") eqn:Hcg.
  - apply String.eqb_eq in Hcg. subst s. now apply dispatch_solver_cg.
  - apply String.eqb_neq in Hcg, Hs.
    rewrite (dispatch_solver_unknown sla_cg sla_lsmr kw A b self1 Hcg Hs).
    now apply dispatch_solver_cg.
Qed.

(** Without a callable or a name nothing is solved: the solution is the
    all-NaN vector of the reset. *)
Lemma solve_system_no_solver (solver : solver_arg) (kw : kwargs)
  (self self' : DiscreteInterpolator) (r : bool) :
  runs_backend solver = false ->
  solve_system sla_cg sla_lsmr solver kw self = (Returned r, self') ->
  r = false
  /\ c self' = repeat FNaN (n_nodes (support self))
  /\ up_to_date self' = up_to_date self.
Proof.
  intros Hno Hrun.
  destruct (solve_system_run sla_cg sla_lsmr solver kw self)
    as (o & self1 & Heq & _ & Hcases).
  rewrite Hrun in Heq. injection Heq as <- <-.
  destruct Hcases as [(_ & Hb & _)|[(Hr & _ & _ & Hc & Hu & _)|(e & Hr & _)]].
  - congruence.
  - injection Hr as ->. auto.
  - discriminate.
Qed.

(** A call that returns has assembled the matrix. *)
Lemma solve_system_returned_assembled (solver : solver_arg) (kw : kwargs)
  (self self' : DiscreteInterpolator) (r : bool) :
  solve_system sla_cg sla_lsmr solver kw self = (Returned r, self') ->
  exists A b, assembled self = Returned (A, b).
Proof.
  rewrite solve_system_unfold. unfold bind. intros Hrun.
  assert (Ho := build_matrix_outcome (reset_c self)).
  rewrite assembled_reset_c in Ho.
  destruct (build_matrix (reset_c self)) as [[[A b]|e|] self1]; cbn [fst] in Ho;
    try discriminate.
  now exists A, b.
Qed.

End ReturnValue.

(** C4: when [solve_system] returns, it has assembled the matrix
    [A, b], and it returns true exactly when a backend was run on it
    during the call (one more solve is on record), which is the case
    exactly for a callable or a string [solver]; the flag is then up and
    [c] is the solution computed or accepted: the answer of the callable
    on [A, b]; the answer of [cg] on the normal equations for every
    name but ["lsmr"]; under ["lsmr"] the answer of [lsmr] on [A, b]
    for the termination codes that accept it.  Under ["lsmr"], when the
    termination code reports ill-conditioning, the call still returns
    true, the computed answer is dropped and [c] is the all-NaN vector
    of the reset made before the solve.  When it returns false nothing
    was run and [c] is that all-NaN vector. *)
Theorem solve_system_true_iff_solution_computed
  (kwargs : Type) (sla_cg sla_lsmr : sparse -> list npfloat -> kwargs -> list npfloat * Z)
  (solver : solver_arg) (kw : kwargs) (self self' : DiscreteInterpolator) (r : bool) :
  solve_system sla_cg sla_lsmr solver kw self = (Returned r, self') ->
  (r = true <-> solves (trace self') = solves (trace self) + 1)
  /\ (r = true <-> runs_backend solver = true)
  /\ (r = true -> up_to_date self' = true)
  /\ (exists A b,
        assembled self = Returned (A, b)
        /\ match solver with
           | SolverCallable f => r = true /\ c self' = f A b
           | SolverStr s =>
               r = true
               /\ (if String.eqb s "lsmr"
                   then c self' = (if lsmr_keeps (snd (sla_lsmr A b kw))
                                   then fst (sla_lsmr A b kw)
                                   else repeat FNaN (n_nodes (support self)))
                   else exists ATA ATB,
                          sp_dot (sp_transpose A) A = Returned ATA
                          /\ sp_dot_vec (sp_transpose A) b = Returned ATB
                          /\ c self' = fst (sla_cg ATA ATB kw))
           | SolverNone | SolverOther =>
               r = false
               /\ c self' = repeat FNaN (n_nodes (support self))
               /\ up_to_date self' = up_to_date self
           end)
  /\ (forall A b,
        solver = SolverStr "lsmr" -> assembled self = Returned (A, b) ->
        ill_conditioned (snd (sla_lsmr A b kw)) = true ->
        r = true
        /\ c self' = repeat FNaN (n_nodes (support self))
        /\ up_to_date self' = true).
Proof.
  intros Hrun.
  destruct (solve_system_return_value _ _ _ _ _ Hrun) as (H1 & H2 & H3 & H4).
  split; [exact H1|]. split; [exact H2|]. split; [exact H3|]. split; [|exact H4].
  destruct (solve_system_returned_assembled _ _ _ _ _ Hrun) as (A & b & Hasm).
  exists A, b. split; [exact Hasm|].
  destruct solver as [|s|f|].
  - now apply (solve_system_no_solver sla_cg sla_lsmr SolverNone kw self).
  - destruct (String.eqb s "lsmr") eqn:Hs.
    + apply String.eqb_eq in Hs. subst s.
      destruct (solve_system_lsmr sla_cg sla_lsmr kw self Hasm)
        as (self2 & Heq & Hc & _).
      rewrite Hrun in Heq. injection Heq as -> ->. now split.
    + destruct (solve_system_not_lsmr sla_cg sla_lsmr s kw self Hs Hasm)
        as (ATA & ATB & self2 & HATA & HATB & Heq & Hc & _).
      rewrite Hrun in Heq. injection Heq as -> ->.
      split; [reflexivity|]. now exists ATA, ATB.
  - destruct (solve_system_custom sla_cg sla_lsmr f kw self Hasm)
      as (self2 & Heq & Hc & _).
    rewrite Hrun in Heq. injection Heq as -> ->. now split.
  - now apply (solve_system_no_solver sla_cg sla_lsmr SolverOther kw self).
Qed.

(** An ill-conditioned [lsmr] run on one registered block: the call
    returns true with [c] all NaN; a run whose answer is accepted leaves
    that answer in [c]. *)
Lemma solve_system_true_iff_solution_computed_witness :
  let run := solve_system (zero_backend 0) (zero_backend 3) (SolverStr "lsmr") tt
               one_block_interpolator in
  let run' := solve_system (zero_backend 0) (zero_backend 1) (SolverStr "lsmr") tt
                one_block_interpolator in
  fst run = Returned true
  /\ solves (trace (snd run)) = solves (trace one_block_interpolator) + 1
  /\ c (snd run) = [FNaN; FNaN]
  /\ c (snd run') = [f0; f0].
Proof.
  intros run run'.
  assert (Hrun : run = (Returned true, snd run)) by reflexivity.
  assert (Hrun' : run' = (Returned true, snd run')) by reflexivity.
  destruct (solve_system_true_iff_solution_computed _ _ _ _ _ Hrun)
    as (Hsolved & _ & _ & _ & Hlsmr).
  destruct (solve_system_true_iff_solution_computed _ _ _ _ _ Hrun')
    as (_ & _ & _ & (A & b & Hasm & _ & Hc) & _).
  split; [reflexivity|]. split; [now apply Hsolved|].
  split; [eapply Hlsmr; reflexivity|].
  cbn [String.eqb Ascii.eqb Bool.eqb] in Hc. rewrite Hc.
  assert (HAb : Returned (A, b)
                = Returned (mkSparse 1 2 [(0%Z, 0%Z, np_mul f1 f1)], [np_mul f1 f1]))
    by (rewrite <- Hasm; reflexivity).
  injection HAb as -> ->. reflexivity.
Defined.

(** ** Soft constraints over a floating-point kernel *)

Section FloatKernelFacts.

Variable F : Type.
Variable fzero : F.
Variable fone : F.
Variable fisnan : F -> bool.
Variable fpositive : F -> bool.
Variable fmul : F -> F -> F.
Variable fdiv : F -> F -> F.
Variable linalg_norm : list F -> F.

Lemma float_normalised_A_length (A : list (list F)) :
  length (float_normalised_A fzero fisnan fpositive fdiv linalg_norm A) = length A.
Proof.
  unfold float_normalised_A, float_normalise_rows, float_zero_nan_rows.
  rewrite zip_with_length; now rewrite !length_map.
Qed.

Lemma float_normalised_B_length (A : list (list F)) (B : list F) :
  length B = length A ->
  length (float_normalised_B fpositive fdiv linalg_norm A B) = length A.
Proof.
  intros H. unfold float_normalised_B, float_normalise_b.
  rewrite zip_with_length; now rewrite ?length_map.
Qed.

(** Row [i] as stored: zeroed if it holds a NaN, divided by its computed
    norm if that norm is positive, and as it came otherwise. *)
Lemma float_normalised_A_nth (A : list (list F)) (i : nat) :
  i < length A ->
  nth i (float_normalised_A fzero fisnan fpositive fdiv linalg_norm A) [] =
  let row := nth i A [] in
  let row0 := if existsb fisnan row then map (fun _ => fzero) row else row in
  if fpositive (linalg_norm row)
  then map (fun x => fdiv x (linalg_norm row)) row0
  else row0.
Proof.
  intros Hi. unfold float_normalised_A, float_normalise_rows, float_zero_nan_rows.
  rewrite zip_with_nth with (dx := []) (dy := fzero)
    by now rewrite ?length_map.
  rewrite (nth_map_in _ _ []) by assumption.
  rewrite (nth_map_in _ _ []) by assumption.
  reflexivity.
Qed.

Lemma float_normalised_B_nth (A : list (list F)) (B : list F) (i : nat) :
  i < length A -> length B = length A ->
  nth i (float_normalised_B fpositive fdiv linalg_norm A B) fzero =
  if fpositive (linalg_norm (nth i A []))
  then fdiv (nth i B fzero) (linalg_norm (nth i A []))
  else nth i B fzero.
Proof.
  intros Hi Hlen. unfold float_normalised_B, float_normalise_b.
  rewrite zip_with_nth with (dx := fzero) (dy := fzero)
    by (rewrite ?length_map; lia).
  now rewrite (nth_map_in _ _ []) by assumption.
Qed.

Lemma float_normalised_A_row_lengths (A : list (list F)) (i : nat) :
  i < length A ->
  length (nth i (float_normalised_A fzero fisnan fpositive fdiv linalg_norm A) [])
  = length (nth i A []).
Proof.
  intros Hi. rewrite float_normalised_A_nth by assumption. cbv zeta.
  destruct (fpositive _), (existsb _ _); now rewrite ?length_map.
Qed.

Lemma float_flatten_block_shapes (A : ndarray F) (idc : ndarray Z)
  (B : list F) (w : float_weight F) (s : list nat)
  (n_rows : nat) (A2 : list (list F)) (idc2 : list (list Z))
  (B2 : list F) (w2 : float_weight F) :
  np_shape A = Returned s -> np_shape idc = Returned s ->
  float_flatten_block A idc B w = Returned (n_rows, A2, idc2, B2, w2) ->
  n_rows = length A2 /\ length idc2 = length A2 /\ B2 = B
  /\ exists width, Forall (fun row => length row = width) A2
                   /\ Forall (fun row => length row = width) idc2.
Proof.
  destruct A as [a2|a3], idc as [i2|i3]; cbn [np_shape float_flatten_block];
    try discriminate.
  - destruct (rectangular2 a2) eqn:Ha; [|discriminate].
    destruct (rectangular2 i2) eqn:Hi; [|discriminate].
    intros [= <-] [= Hlen Hwidth] [= <- <- <- <- <-].
    repeat split; auto. exists (length (hd [] a2)).
    unfold rectangular2 in *.
    rewrite all_length_Forall in Ha. rewrite all_length_Forall in Hi.
    rewrite Hwidth in Hi. now split.
  - destruct (rectangular3 a3) eqn:Ha; [|discriminate].
    destruct (rectangular3 i3) eqn:Hi; [|discriminate].
    intros [= <-] [= H0 H1 H2].
    destruct (Nat.eqb (length B) _); [|discriminate].
    intros [= <- <- <- <- <-].
    unfold rectangular3 in *. apply andb_true_iff in Ha, Hi.
    destruct Ha as [Ha1 Ha2], Hi as [Hi1 Hi2].
    rewrite all_length_Forall in Ha1. rewrite all_length_Forall in Hi1.
    rewrite forallb_forall in Ha2. rewrite forallb_forall in Hi2.
    assert (Ha3 : Forall (fun plane => Forall (fun row => length row
                     = length (hd [] (hd [] a3))) plane) a3).
    { apply Forall_forall. intros p Hp. apply all_length_Forall. auto. }
    assert (Hi3 : Forall (fun plane => Forall (fun row => length row
                     = length (hd [] (hd [] a3))) plane) i3).
    { apply Forall_forall. intros p Hp. apply all_length_Forall.
      rewrite <- H2. auto. }
    rewrite H1 in Hi1.
    destruct (concat_all_length Ha1 Ha3) as [Hla Hra].
    destruct (concat_all_length Hi1 Hi3) as [Hli Hri].
    repeat split; try lia. eauto.
Qed.

Lemma float_filter_row_triples (k i : Z) (row : list F) (cols : list Z) :
  filter (fun e : Z * Z * F => (fst (fst e) =? i)%Z)
         (zip_with (fun v j => (k, j, v)) row cols)
  = if (k =? i)%Z then zip_with (fun v j => (k, j, v)) row cols else [].
Proof.
  revert cols. induction row as [|v row IH]; intros [|j cols];
    cbn [zip_with filter fst]; try (destruct (k =? i)%Z; reflexivity).
  rewrite IH. destruct (k =? i)%Z; reflexivity.
Qed.

Lemma float_map_snd_row_triples (k : Z) (row : list F) (cols : list Z) :
  length cols = length row ->
  map snd (zip_with (fun v j => (k, j, v)) row cols) = row
  /\ map (fun e : Z * Z * F => snd (fst e))
         (zip_with (fun v j => (k, j, v)) row cols) = cols.
Proof.
  revert cols. induction row as [|v row IH]; intros [|j cols] H;
    try discriminate; [split; reflexivity|].
  injection H as H. destruct (IH cols H) as [H1 H2].
  cbn [zip_with map snd fst]. now rewrite H1, H2.
Qed.

Lemma float_filter_coo_triples_from (start : nat) (A : list (list F))
  (idc : list (list Z)) (i : nat) :
  length idc = length A ->
  filter (fun e : Z * Z * F => (fst (fst e) =? Z.of_nat i)%Z)
         (concat (zip_with (fun k rc =>
                              zip_with (fun v j => (Z.of_nat k, j, v)) (fst rc) (snd rc))
                           (seq start (length A)) (combine A idc)))
  = if ((start <=? i) && (i <? start + length A))%nat
    then zip_with (fun v j => (Z.of_nat i, j, v))
                  (nth (i - start) A []) (nth (i - start) idc [])
    else [].
Proof.
  revert start idc. induction A as [|row A IH]; intros start [|cols idc] H;
    try discriminate.
  - cbn [length seq combine zip_with concat filter].
    destruct ((start <=? i) && (i <? start + 0))%nat eqn:E; [|reflexivity].
    apply andb_true_iff in E. destruct E as [H1 H2].
    apply Nat.leb_le in H1. apply Nat.ltb_lt in H2. lia.
  - injection H as H. cbn [length seq combine zip_with concat fst snd].
    rewrite filter_app, float_filter_row_triples, (IH (S start) idc H).
    destruct (Nat.eq_dec start i) as [->|Hne].
    + rewrite Z.eqb_refl, Nat.sub_diag. cbn [nth].
      assert (H1 : (S i <=? i)%nat = false) by (apply Nat.leb_gt; lia).
      assert (H2 : (i <=? i)%nat = true) by (apply Nat.leb_le; lia).
      assert (H3 : (i <? i + S (length A))%nat = true) by (apply Nat.ltb_lt; lia).
      rewrite H1, H2, H3. cbn [andb]. apply app_nil_r.
    + assert (Hz : (Z.of_nat start =? Z.of_nat i)%Z = false)
        by (apply Z.eqb_neq; lia).
      rewrite Hz. cbn [app].
      destruct (S start <=? i)%nat eqn:H1.
      * apply Nat.leb_le in H1.
        assert (H2 : (start <=? i)%nat = true) by (apply Nat.leb_le; lia).
        rewrite H2. cbn [andb].
        replace (i <? start + S (length A))%nat with (i <? S start + length A)%nat
          by (f_equal; lia).
        destruct (i <? S start + length A)%nat; [|reflexivity].
        replace (i - start) with (S (i - S start)) by lia. reflexivity.
      * apply Nat.leb_gt in H1.
        assert (H2 : (start <=? i)%nat = false) by (apply Nat.leb_gt; lia).
        rewrite H2. reflexivity.
Qed.

(** Row [i] of the matrix built from the coefficient rows [A] and the
    column rows [idc] holds the values of [A[i]] on the columns
    [idc[i]]. *)
Lemma float_row_coo_triples (A : list (list F)) (idc : list (list Z))
  (m : float_sparse F) (i : nat) :
  fs_entries m = float_coo_triples A idc ->
  length idc = length A ->
  length (nth i idc []) = length (nth i A []) ->
  i < length A ->
  float_row m (Z.of_nat i) = nth i A []
  /\ float_row_cols m (Z.of_nat i) = nth i idc [].
Proof.
  intros Hm Hlen Hrow Hi. unfold float_row, float_row_cols, float_coo_triples in *.
  rewrite Hm, (@float_filter_coo_triples_from 0 A idc i Hlen).
  assert (H1 : (0 <=? i)%nat = true) by (apply Nat.leb_le; lia).
  assert (H2 : (i <? 0 + length A)%nat = true) by (apply Nat.ltb_lt; lia).
  rewrite H1, H2, Nat.sub_0_r. cbn [andb].
  now apply float_map_snd_row_triples.
Qed.

Lemma float_coo_matrix_shape (entries : list (Z * Z * F)) (m n : nat)
  (A : float_sparse F) :
  float_coo_matrix entries m n = Returned A ->
  fs_rows A = m /\ fs_cols A = n /\ fs_entries A = entries.
Proof.
  unfold float_coo_matrix. destruct (forallb _ _); [|discriminate].
  destruct (forallb _ _); [|discriminate]. intros [= <-]. auto.
Qed.

(** A call that returns has either refused the block for its shapes or
    stored it, normalised, under the name that the collision loop
    found. *)
Lemma add_constraints_float_returned (fuel nx : nat) (A : ndarray F)
  (B : list F) (idc : ndarray Z) (w : float_weight F) (name : string)
  (registry registry' : dict (float_block F)) (logged : list event) :
  add_constraints_float fzero fone fisnan fpositive fmul fdiv linalg_norm
    fuel nx A B idc w name registry = (Returned tt, (registry', logged)) ->
  (exists sa si,
      np_shape A = Returned sa /\ np_shape idc = Returned si /\ sa <> si
      /\ registry' = registry)
  \/ (exists s n_rows A2 idc2 B2 w2 wv name' matrix,
        np_shape A = Returned s /\ np_shape idc = Returned s
        /\ float_flatten_block A idc B w = Returned (n_rows, A2, idc2, B2, w2)
        /\ length B2 = length A2
        /\ length wv = length A2
        /\ unique_name fuel name name registry = Returned name'
        /\ float_coo_matrix
             (float_coo_triples
                (float_normalised_A fzero fisnan fpositive fdiv linalg_norm A2) idc2)
             n_rows nx = Returned matrix
        /\ registry'
           = dict_set name'
               (mkFloatBlock matrix
                  (float_normalised_B fpositive fdiv linalg_norm A2 B2) wv)
               registry).
Proof.
  unfold add_constraints_float, outcome_then.
  destruct (np_shape A) as [sa| |] eqn:HsA; try discriminate.
  destruct (np_shape idc) as [si| |] eqn:HsI; try discriminate.
  destruct (list_eq_dec Nat.eq_dec sa si) as [<-|Hne]; cbn [negb].
  2:{ intros [= <- _]. left. exists sa, si. auto. }
  destruct (float_flatten_block A idc B w) as [[[[[n_rows A2] idc2] B2] w2]| |] eqn:Hflat;
    try discriminate.
  rewrite length_map.
  destruct (Nat.eqb (length B2) (length A2)) eqn:HB; cbn [negb]; [|discriminate].
  apply Nat.eqb_eq in HB.
  fold (float_normalised_A fzero fisnan fpositive fdiv linalg_norm A2).
  fold (float_normalised_B fpositive fdiv linalg_norm A2 B2).
  rewrite !float_normalised_A_length.
  intros H. right. exists sa, n_rows, A2, idc2, B2, w2.
  destruct w2 as [x|wa|]; [| |discriminate].
  - rewrite length_map, repeat_length, Nat.eqb_refl in H. cbn [negb] in H.
    destruct (unique_name fuel name name registry) as [name'| |];
      try discriminate.
    destruct (float_coo_matrix _ _ _) as [matrix| |]; try discriminate.
    injection H as <- _.
    do 3 eexists. repeat split; try reflexivity; try assumption.
    now rewrite length_map, repeat_length.
  - destruct (Nat.eqb (length wa) (length A2)) eqn:Hw; cbn [negb] in H;
      [|discriminate].
    apply Nat.eqb_eq in Hw.
    destruct (unique_name fuel name name registry) as [name'| |];
      try discriminate.
    destruct (float_coo_matrix _ _ _) as [matrix| |]; try discriminate.
    injection H as <- _.
    do 3 eexists. repeat split; try reflexivity; assumption.
Qed.

End FloatKernelFacts.

(** The exact numbers are one such kernel: on them the method over a
    kernel is [add_constraints_to_least_squares] above. *)
Lemma dict_mem_float_registry (key : string) (registry : dict soft_block) :
  dict_mem key (float_registry registry) = dict_mem key registry.
Proof.
  induction registry as [|[k v] registry IH]; [reflexivity|].
  cbn [float_registry map dict_mem fst]. fold (float_registry registry).
  now rewrite IH.
Qed.

Lemma unique_name_float_registry (fuel : nat) (base_name name : string)
  (registry : dict soft_block) :
  unique_name fuel base_name name (float_registry registry)
  = unique_name fuel base_name name registry.
Proof.
  revert name. induction fuel as [|fuel IH]; intros name; cbn [unique_name];
    rewrite dict_mem_float_registry; destruct (dict_mem name registry);
    try reflexivity.
  destruct (next_count name); try reflexivity. apply IH.
Qed.

Lemma float_registry_set (key : string) (blk : soft_block)
  (registry : dict soft_block) :
  float_registry (dict_set key blk registry)
  = dict_set key (float_block_of blk) (float_registry registry).
Proof.
  induction registry as [|[k v] registry IH]; [reflexivity|].
  cbn [float_registry map dict_set fst snd]. fold (float_registry registry).
  destruct (String.eqb k key); [reflexivity|].
  cbn [map fst snd]. fold (float_registry (dict_set key blk registry)).
  now rewrite IH.
Qed.

Ltac agrees_done :=
  eexists; split;
  [reflexivity
  |cbn [fst snd trace emit set_constraints]; rewrite ?app_nil_r; reflexivity].

Lemma add_constraints_exact_agrees (fuel : nat) (A : ndarray npfloat)
  (B : list npfloat) (idc : ndarray Z) (w : weight) (name : string)
  (self : DiscreteInterpolator) :
  let run := add_constraints_to_least_squares fuel A B idc w name self in
  exists logged,
    add_constraints_exact fuel (nx self) A B idc (float_weight_of w) name
      (float_registry (constraints self))
    = (fst run, (float_registry (constraints (snd run)), logged))
    /\ trace (snd run) = trace self ++ logged.
Proof.
  cbv zeta.
  unfold add_constraints_exact, add_constraints_float, outcome_then,
    add_constraints_to_least_squares.
  run_method.
  destruct (np_shape A) as [sa| |];
    try (agrees_done).
  destruct (np_shape idc) as [si| |];
    try (agrees_done).
  destruct (list_eq_dec Nat.eq_dec sa si) as [<-|Hne]; cbn [negb].
  2:{ agrees_done. }
  assert (Hflat : float_flatten_block A idc B (float_weight_of w)
                  = match flatten_block A idc B w with
                    | Returned (n, A2, idc2, B2, w2) =>
                        Returned (n, A2, idc2, B2, float_weight_of w2)
                    | Raised e => Raised e
                    | Diverged => Diverged
                    end).
  { destruct A, idc, w; cbn [float_flatten_block flatten_block float_weight_of];
      try reflexivity; destruct (Nat.eqb _ _); reflexivity. }
  rewrite Hflat. clear Hflat.
  destruct (flatten_block A idc B w) as [[[[[n_rows A2] idc2] B2] w2]| |];
    try (agrees_done).
  destruct (negb (Nat.eqb (length B2) (length (map norm_row A2))));
    [agrees_done|].
  fold (float_normalised_A f0 np_isnan (fun x => np_gt x f0) np_div norm_row A2).
  fold (float_normalised_B (fun x => np_gt x f0) np_div norm_row A2 B2).
  change (float_normalised_A f0 np_isnan (fun x => np_gt x f0) np_div norm_row A2)
    with (normalised_A A2).
  change (float_normalised_B (fun x => np_gt x f0) np_div norm_row A2 B2)
    with (normalised_B A2 B2).
  fold (normalised_A A2). fold (normalised_B A2 B2).
  destruct w2 as [x|wa|]; cbn [float_weight_of];
    try (agrees_done).
  - destruct (negb (Nat.eqb _ _));
      [agrees_done|].
    destruct (existsb np_isnan_int (concat idc2) || _ || _);
      cbn [fst snd constraints emit trace];
      rewrite unique_name_float_registry;
      (destruct (unique_name fuel name name (constraints self)) as [name'| |];
       [|agrees_done..]);
      change (nx (emit _ self)) with (nx self);
      change (float_coo_triples (normalised_A A2) idc2)
        with (coo_triples (normalised_A A2) idc2);
      unfold float_coo_matrix, coo_matrix;
      repeat (destruct (forallb _ _); [|agrees_done]);
      cbn [fst snd constraints set_constraints trace emit];
      rewrite float_registry_set; agrees_done.
  - destruct (negb (Nat.eqb _ _));
      [agrees_done|].
    destruct (existsb np_isnan_int (concat idc2) || _ || _);
      cbn [fst snd constraints emit trace];
      rewrite unique_name_float_registry;
      (destruct (unique_name fuel name name (constraints self)) as [name'| |];
       [|agrees_done..]);
      change (nx (emit _ self)) with (nx self);
      change (float_coo_triples (normalised_A A2) idc2)
        with (coo_triples (normalised_A A2) idc2);
      unfold float_coo_matrix, coo_matrix;
      repeat (destruct (forallb _ _); [|agrees_done]);
      cbn [fst snd constraints set_constraints trace emit];
      rewrite float_registry_set; agrees_done.
Qed.

(** C6, amended: for every call of [add_constraints_to_least_squares]
    that returns on arguments of matching shapes, whatever the
    floating-point arithmetic, the block is stored under the name found
    by the collision loop, with as many rows as the (flattened)
    coefficient array and one right-hand side per row: no row is dropped.
    The stored row [i] holds, on the columns [idc[i]], the coefficients of
    the row [i] (zeros if the row holds a NaN) divided one by one by the
    computed norm of the row if that norm compares greater than zero, and
    unchanged otherwise; the right-hand side of the row is divided by the
    same computed norm in the first case and unchanged otherwise.  That
    the stored row has norm 1 is no part of this: it needs exact
    arithmetic and distinct columns. *)
Theorem add_constraints_normalises_rows
  (F : Type) (fzero fone : F) (fisnan fpositive : F -> bool)
  (fmul fdiv : F -> F -> F) (linalg_norm : list F -> F)
  (fuel nx : nat) (A : ndarray F) (B : list F) (idc : ndarray Z)
  (w : float_weight F) (name : string)
  (registry registry' : dict (float_block F)) (logged : list event)
  (s : list nat) (n_rows : nat) (A2 : list (list F)) (idc2 : list (list Z))
  (B2 : list F) (w2 : float_weight F) :
  np_shape A = Returned s -> np_shape idc = Returned s ->
  float_flatten_block A idc B w = Returned (n_rows, A2, idc2, B2, w2) ->
  add_constraints_float fzero fone fisnan fpositive fmul fdiv linalg_norm
    fuel nx A B idc w name registry = (Returned tt, (registry', logged)) ->
  exists name' blk,
    unique_name fuel name name registry = Returned name'
    /\ registry' = dict_set name' blk registry
    /\ dict_get name' registry' = Some blk
    /\ fs_rows (fb_matrix blk) = length A2
    /\ length (fb_b blk) = length A2
    /\ forall i, i < length A2 ->
         let row := nth i A2 [] in
         let len := linalg_norm row in
         let row0 := if existsb fisnan row then map (fun _ => fzero) row else row in
         float_row (fb_matrix blk) (Z.of_nat i)
         = (if fpositive len then map (fun x => fdiv x len) row0 else row0)
         /\ float_row_cols (fb_matrix blk) (Z.of_nat i) = nth i idc2 []
         /\ length (float_row (fb_matrix blk) (Z.of_nat i)) = length row
         /\ nth i (fb_b blk) fzero
            = (if fpositive len then fdiv (nth i B2 fzero) len
               else nth i B2 fzero).
Proof.
  intros HsA HsI Hflat Hrun.
  destruct (add_constraints_float_returned _ _ _ _ _ _ _ _ _ _ _ _ _ _ _ Hrun)
    as [(sa & si & HsA' & HsI' & Hne & _)
       |(s' & n' & A' & idc' & B' & w' & wv & name' & matrix
         & _ & _ & Hflat' & HB & _ & Hname & Hcoo & ->)];
    [congruence|].
  rewrite Hflat in Hflat'. injection Hflat' as <- <- <- <- <-.
  destruct (float_flatten_block_shapes _ _ _ _ HsA HsI Hflat)
    as (Hn & Hlen & _ & width & HwA & HwI).
  destruct (float_coo_matrix_shape _ _ _ Hcoo) as (Hrows & _ & Hentries).
  exists name',
    (mkFloatBlock matrix (float_normalised_B fpositive fdiv linalg_norm A2 B2) wv).
  split; [exact Hname|]. split; [reflexivity|].
  split; [apply dict_get_set_same|].
  cbn [fb_matrix fb_b].
  split; [congruence|]. split; [now apply float_normalised_B_length|].
  intros i Hi.
  assert (Hwidths : length (nth i idc2 [])
                    = length (nth i (float_normalised_A fzero fisnan fpositive
                                       fdiv linalg_norm A2) [])).
  { rewrite float_normalised_A_row_lengths by assumption.
    rewrite Forall_forall in HwA, HwI.
    rewrite (HwA (nth i A2 [])) by (apply nth_In; lia).
    apply HwI. apply nth_In. lia. }
  destruct (@float_row_coo_triples F
              (float_normalised_A fzero fisnan fpositive fdiv linalg_norm A2)
              idc2 matrix i)
    as [Hrow Hcols]; trivial;
    try (now rewrite float_normalised_A_length).
  rewrite Hrow, Hcols.
  rewrite float_normalised_A_row_lengths by assumption.
  rewrite float_normalised_A_nth, float_normalised_B_nth by assumption.
  cbv zeta. auto.
Qed.

(** On numpy's [float64]: a block of three rows on a system of two
    columns, each with the right-hand side 10.  The squares of the first
    row, [(2^600, 2^600)], overflow: its computed norm is infinite, and
    the row is stored as a zero row with the right-hand side 0.  The
    row [(3, 4)] has the norm 5 and is stored as [(3/5, 4/5)] with the
    right-hand side 2.  The square of [2^-600] underflows to zero: the
    computed norm of the last row is 0, and the row is stored as it
    came. *)
Lemma add_constraints_normalises_rows_witness :
  let A := [[0x1p+600; 0x1p+600]; [3; 4]; [0x1p-600; 0]]%float in
  let B := [10; 10; 10]%float in
  let idc := [[0; 1]; [0; 1]; [0; 1]]%Z in
  let run := add_constraints_binary64 1 2 (Arr2 A) B (Arr2 idc)
               (FWScalar 1%float) "grad" [] in
  exists blk,
    run = (Returned tt, ([("grad", blk)], []))
    /\ map binary64_norm A = [PrimFloat.infinity; 5%float; 0%float]
    /\ float_row (fb_matrix blk) 0 = [0; 0]%float
    /\ float_row (fb_matrix blk) 1 = [PrimFloat.div 3 5; PrimFloat.div 4 5]
    /\ float_row (fb_matrix blk) 2 = [0x1p-600; 0]%float
    /\ nth 0 (fb_b blk) 0%float = 0%float
    /\ nth 1 (fb_b blk) 0%float = 2%float
    /\ nth 2 (fb_b blk) 0%float = 10%float.
Proof.
  intros A B idc run.
  assert (Hrun : run = (Returned tt, (fst (snd run), snd (snd run))))
    by (vm_compute; reflexivity).
  destruct (@add_constraints_normalises_rows _ 0%float 1%float
              PrimFloat.is_nan (fun x => PrimFloat.ltb 0%float x)
              PrimFloat.mul PrimFloat.div binary64_norm 1 2 (Arr2 A) B
              (Arr2 idc) (FWScalar 1%float) "grad" []
              (fst (snd run)) (snd (snd run)) [3; 2] 3 A idc B
              (FWScalar 1%float) eq_refl eq_refl eq_refl Hrun)
    as (name' & blk & Hname & Hreg & _ & _ & _ & Hrows).
  injection Hname as <-.
  destruct (Hrows 0 ltac:(cbn; lia)) as (H0 & _ & _ & Hb0).
  destruct (Hrows 1 ltac:(cbn; lia)) as (H1 & _ & _ & Hb1).
  destruct (Hrows 2 ltac:(cbn; lia)) as (H2 & _ & _ & Hb2).
  exists blk. split.
  { rewrite Hrun, Hreg. reflexivity. }
  split; [vm_compute; reflexivity|].
  change (Z.of_nat 0) with 0%Z in H0. change (Z.of_nat 1) with 1%Z in H1.
  change (Z.of_nat 2) with 2%Z in H2.
  rewrite H0, H1, H2, Hb0, Hb1, Hb2.
  vm_compute. repeat split.
Defined.
